(** * momentum-stock-bot: indicator pipeline, alert gate, fetch gate, scan loop

    Shallow embedding of [src/index.js] (the MACD bot and the momentum
    scanner that follow it in the same file).

    Numbers: where only the definedness of a value or the outcome of a
    comparison matters, JavaScript numbers are modelled as exact rationals
    [Q], with [Qeq] ([==]) as equality; where the computed value itself
    matters ([emaSeries] on a constant series) they are the kernel's
    binary64 floats (module [Doubles]).  Timestamps ([Date.now()],
    milliseconds) are [Z]; calendar day keys ([new Date().toDateString()])
    are strings.  The clock is an input of every operation that reads it.

    Asynchrony: where a property depends on what other calls in flight do
    between two awaits of a function, the function is modelled as the
    stretches between its awaits, each a turn of the event loop, so that the
    turns of several calls can be interleaved. *)

From Stdlib Require Import QArith Qminmax Qabs ZArith Lia Lqa.
From Stdlib Require Import PrimFloat Uint63.
From stdpp Require Import base option list strings gmap sorting.

(** ** Numeric helpers *)

Module Num.

(** [x < y] on numbers, as a boolean. *)
Definition Qlt_bool (x y : Q) : bool := negb (Qle_bool y x).

(** An array length or a period used as a number. *)
Definition ofNat (n : nat) : Q := inject_Z (Z.of_nat n).

(** ToNumber on a value that is a number or [null]: [null] becomes [0]
    (this is what the relational operators of the source do). *)
Definition toNumber (v : option Q) : Q :=
  match v with Some x => x | None => 0%Q end.

(** [a > b] where either side may be [null]. *)
Definition js_gt (a b : option Q) : bool := Qlt_bool (toNumber b) (toNumber a).

End Num.

(** ** Technical helpers: [emaSeries], [macdSeries] *)

Module Indicator.
Import Num.

Definition MACD_FAST : nat := 12.
Definition MACD_SLOW : nat := 26.
Definition MACD_SIGNAL : nat := 9.

(** [arr.reduce((a,b)=>a+b, 0)] *)
Definition sumQ (l : list Q) : Q := fold_left Qplus l 0%Q.

(** The body of [for (let i = period; i < values.length; i++)]: [rest] is
    [values[i..]], [prev] the running value, [out] the output array. *)
Fixpoint ema_loop (k : Q) (rest : list Q) (i : nat) (prev : Q)
    (out : list (option Q)) : list (option Q) :=
  match rest with
  | [] => out
  | x :: rest' =>
      let prev' := (x * k + prev * (1 - k))%Q in
      ema_loop k rest' (S i) prev' (<[i := Some prev']> out)
  end.

(** [emaSeries(values, period)], for [period >= 1] (the source calls it with
    12, 26 and 9; with period 0 the source divides by zero and is not
    modelled).  [None] is [null]. *)
Definition emaSeries (values : list Q) (period : nat) : list (option Q) :=
  let out := replicate (length values) (@None Q) in
  if (length values <? period)%nat then out
  else
    let prev := (sumQ (take period values) / ofNat period)%Q in
    let out := <[(period - 1)%nat := Some prev]> out in
    let k := (2 / (ofNat period + 1))%Q in
    ema_loop k (drop period values) period prev out.

(** The running value after the loop has consumed [xs], starting from
    [prev] (a closed form of the loop, used to state what it computes). *)
Definition emaFrom (k prev : Q) (xs : list Q) : Q :=
  fold_left (fun p x => (x * k + p * (1 - k))%Q) xs prev.

Record MacdObj := { macd : list (option Q); signal : list (option Q); hist : list (option Q) }.

(** [a[i] != null && b[i] != null ? a[i] - b[i] : null] *)
Definition sub_defined (a b : option Q) : option Q :=
  match a, b with
  | Some x, Some y => Some (x - y)%Q
  | _, _ => None
  end.

(** [macdSeries(closePrices)].  The index-wise loops and [map]s of the
    source run over arrays that all have the length of [closePrices], so
    they are written with [zip_with]. *)
Definition macdSeries (closePrices : list Q) : MacdObj :=
  let fast := emaSeries closePrices MACD_FAST in
  let slow := emaSeries closePrices MACD_SLOW in
  let macd := zip_with sub_defined fast slow in
  let macdVals := map toNumber macd in
  let signal :=
    zip_with (fun (m v : option Q) => match m with None => None | Some _ => v end)
             macd (emaSeries macdVals MACD_SIGNAL) in
  let hist := zip_with sub_defined macd signal in
  {| macd := macd; signal := signal; hist := hist |}.

End Indicator.

(** ** The signal line as the specification words it

    "EMA of the MACD line using signalPeriod, seeded the same way, but
    computed only over the contiguous defined region of the MACD line
    (undefined MACD indices are not-yet-started, not zero)".  This follows the
    specification, not the source; it is what [macdSeries] is compared with. *)

Module SignalSpec.
Import Indicator.

(** Number of leading undefined entries. *)
Fixpoint leadingUndefined (l : list (option Q)) : nat :=
  match l with
  | None :: l' => S (leadingUndefined l')
  | _ => 0%nat
  end.

(** The defined values, in order. *)
Definition definedRegion (l : list (option Q)) : list Q :=
  omap id (drop (leadingUndefined l) l).

Definition signalOverDefined (macd : list (option Q)) (signalPeriod : nat)
    : list (option Q) :=
  replicate (leadingUndefined macd) None
    ++ emaSeries (definedRegion macd) signalPeriod.

(** Simple average of a list of numbers. *)
Definition mean (l : list Q) : Q := (foldr Qplus 0 l / Num.ofNat (length l))%Q.

End SignalSpec.

(** ** Analyzer: [MACDAnalyzer.analyzeTicker] *)

Module Analyzer.
Import Num Indicator.

(** One bar of [yahooFinance.historical], already sorted by date. *)
Record Bar := { date : Z; close : Q }.

Inductive Cross := BullishCross | BearishCross.

(** The object returned by [analyzeTicker].  The [divergence] field only
    feeds log lines and the embed text and is left out. *)
Record Analysis := {
  ticker : string;
  cross : option Cross;
  macdNow : option Q;
  signalNow : option Q;
  histNow : option Q;
  histPrev : option Q;
  price : Q;
  prevPrice : Q;
  timestamp : Z;
  raw : list Bar;
  idx : nat
}.

(** [arr[i] === null] for an in-range index. *)
Definition is_null (v : option (option Q)) : bool :=
  match v with Some None => true | _ => false end.

(** [arr[i]] read as number-or-absent ([null] and [undefined] are both
    rejected by the [!= null] tests). *)
Definition at_ (l : list (option Q)) (i : nat) : option Q := default None (l !! i).

(** [let idx = n - 1; while (idx >= 0 && (macd[idx] === null ||
    signal[idx] === null)) idx--;] : the value of [idx] after the loop. *)
Fixpoint findIdx (macd signal : list (option Q)) (n : nat) : Z :=
  match n with
  | O => (-1)%Z
  | S m =>
      if is_null (macd !! m) || is_null (signal !! m)
      then findIdx macd signal m
      else Z.of_nat m
  end.

(** The two [if]s of the cross detection, in source order. *)
Definition detectCross (macdPrev signalPrev macdNow signalNow : option Q)
    : option Cross :=
  match macdPrev, signalPrev, macdNow, signalNow with
  | Some mp, Some sp, Some mn, Some sn =>
      let c1 := if Qlt_bool mp sp && Qlt_bool sn mn then Some BullishCross else None in
      if Qlt_bool sp mp && Qlt_bool mn sn then Some BearishCross else c1
  | _, _, _, _ => None
  end.

Definition noBar : Bar := {| date := 0; close := 0 |}.

(** [analyzeTicker(ticker)] after the fetch: [data] is what
    [fetchCloseSeries] returned ([None] is [null]); [closes] is
    [raw.map(r => r.close)].  [None] is [return null]. *)
Definition analyzeTicker (sym : string) (data : option (list Bar)) : option Analysis :=
  match data with
  | None => None
  | Some bars =>
      let closes := map close bars in
      if (length closes <? MACD_SLOW + MACD_SIGNAL + 2)%nat then None
      else
        let macdObj := macdSeries closes in
        let idxZ := findIdx (macd macdObj) (signal macdObj) (length (macd macdObj)) in
        if (idxZ <? 1)%Z then None
        else
          let i := Z.to_nat idxZ in
          let macdNow := at_ (macd macdObj) i in
          let signalNow := at_ (signal macdObj) i in
          let macdPrev := at_ (macd macdObj) (i - 1) in
          let signalPrev := at_ (signal macdObj) (i - 1) in
          let latestBar := default noBar (bars !! i) in
          let prevBar := default noBar (bars !! (i - 1)%nat) in
          Some {| ticker := sym;
                  cross := detectCross macdPrev signalPrev macdNow signalNow;
                  macdNow := macdNow;
                  signalNow := signalNow;
                  histNow := at_ (hist macdObj) i;
                  histPrev := at_ (hist macdObj) (i - 1);
                  price := close latestBar;
                  prevPrice := close prevBar;
                  timestamp := date latestBar;
                  raw := bars;
                  idx := i |}
  end.




End Analyzer.

(** ** Alert cooldowns and counters *)

Module AlertGate.

Definition MAX_ALERTS_PER_DAY : nat := 20.
Definition ALERT_COOLDOWN_MINUTES : Q := 15.

(** The three module-level variables of the MACD bot. *)
Record AlertState := {
  lastAlertAt : gmap string Z;      (* ticker -> timestamp ms *)
  dailyAlerts : gmap string nat;    (* ticker -> count *)
  lastDailyReset : string
}.

Definition initial (today : string) : AlertState :=
  {| lastAlertAt := ∅; dailyAlerts := ∅; lastDailyReset := today |}.

(** [resetDailyCounts()]; [today] is [new Date().toDateString()]. *)
Definition resetDailyCounts (today : string) (st : AlertState) : AlertState :=
  if decide (today = lastDailyReset st) then st
  else {| lastAlertAt := lastAlertAt st; dailyAlerts := ∅; lastDailyReset := today |}.

(** [(dailyAlerts.get(ticker) || 0)] *)
Definition countToday (st : AlertState) (t : string) : nat :=
  default 0%nat (dailyAlerts st !! t).

(** [canAlert(ticker)] with the quota and the cooldown as parameters; [now]
    is [Date.now()].  [!last] holds for a missing entry and for the
    timestamp [0]. *)
Definition canAlertWith (quota : nat) (cooldownMinutes : Q)
    (today : string) (now : Z) (t : string) (st : AlertState) : bool * AlertState :=
  let st := resetDailyCounts today st in
  if (quota <=? countToday st t)%nat then (false, st)
  else
    match lastAlertAt st !! t with
    | None => (true, st)
    | Some last =>
        if (last =? 0)%Z then (true, st)
        else
          let diffMinutes := (inject_Z (now - last) / 60000)%Q in
          (Qle_bool cooldownMinutes diffMinutes, st)
    end.

Definition canAlert := canAlertWith MAX_ALERTS_PER_DAY ALERT_COOLDOWN_MINUTES.

(** [recordAlert(ticker)] *)
Definition recordAlert (now : Z) (t : string) (st : AlertState) : AlertState :=
  {| lastAlertAt := <[t := now]> (lastAlertAt st);
     dailyAlerts := <[t := (countToday st t + 1)%nat]> (dailyAlerts st);
     lastDailyReset := lastDailyReset st |}.

(** The cooldown in milliseconds. *)
Definition cooldownMs : Z := 900000.

End AlertGate.

(** ** The scan pass of the MACD bot: [runScanOnce] *)

Module Scan.
Import Num Analyzer AlertGate.


(** How the loop body ends for one symbol; each [continue] of the source is
    one constructor.  [Sent] and [SendFailed] are the two ways the
    [channel.send] call can end. *)
Inductive Outcome :=
| NoData
| NoCross
| Skipped
| IgnoredBearish
| HistNotRising
| PriceNotRising
| Sent (res : Analysis)
| SendFailed (res : Analysis).






End Scan.


(** ** Who starts a scan pass: [startLoop], the interval, [/scan-now]

    One event is one turn of the event loop that touches the scanning state.
    A pass of [runScanOnce] suspends at every fetch, so other events run
    between two of its iterations; a pass in flight is the list of symbols it
    has not finished.  [stopLoop] is never called by the source and is not an
    event. *)

Module Scheduler.

Record Loop := {
  scanning : bool;
  timers : nat;                  (* intervals installed by setInterval *)
  starting : nat;                (* startLoop calls suspended at channels.fetch *)
  inFlight : list (list string)  (* passes begun and not finished *)
}.

Definition initial : Loop :=
  {| scanning := false; timers := 0; starting := 0; inFlight := [] |}.

Inductive event :=
| Ready                 (* client ready: startLoop(client) is called *)
| ChannelFetched        (* a suspended startLoop resumes *)
| Tick                  (* the interval callback fires *)
| ScanNow               (* the scan-now handler reaches runScanOnce *)
| TickerDone (j : nat). (* pass j finishes the symbol it is working on *)

(** A call of [runScanOnce(channel, tickers)]: with no ticker the loop body
    never runs and the call returns without suspending. *)
Definition beginPass (tickers : list string) (l : Loop) : Loop :=
  match tickers with
  | [] => l
  | _ :: _ =>
      {| scanning := scanning l; timers := timers l; starting := starting l;
         inFlight := inFlight l ++ [tickers] |}
  end.

Definition step (WATCHLIST : list string) (l : Loop) (e : event) : option Loop :=
  match e with
  | Ready =>
      if scanning l then Some l
      else Some {| scanning := true; timers := timers l;
                   starting := S (starting l); inFlight := inFlight l |}
  | ChannelFetched =>
      match starting l with
      | O => None
      | S n =>
          Some (beginPass WATCHLIST
                  {| scanning := scanning l; timers := S (timers l);
                     starting := n; inFlight := inFlight l |})
      end
  | Tick =>
      match timers l with
      | O => None
      | S _ => Some (beginPass WATCHLIST l)
      end
  | ScanNow => Some (beginPass WATCHLIST l)
  | TickerDone j =>
      match inFlight l !! j with
      | Some (_ :: (_ :: _) as rest) =>
          Some {| scanning := scanning l; timers := timers l; starting := starting l;
                  inFlight := <[j := rest]> (inFlight l) |}
      | Some [_] =>
          Some {| scanning := scanning l; timers := timers l; starting := starting l;
                  inFlight := delete j (inFlight l) |}
      | _ => None
      end
  end.

Fixpoint run (WATCHLIST : list string) (l : Loop) (es : list event) : option Loop :=
  match es with
  | [] => Some l
  | e :: es' =>
      match step WATCHLIST l e with
      | Some l' => run WATCHLIST l' es'
      | None => None
      end
  end.

(** "At most one scan pass runs at a time", over every event sequence. *)
Definition atMostOnePass (WATCHLIST : list string) : Prop :=
  forall es l, run WATCHLIST initial es = Some l -> (length (inFlight l) <= 1)%nat.

(** The flag and the timers: the flag is set as soon as a start is under
    way, and at most one start is under way or done. *)
Definition startedOnce (l : Loop) : Prop :=
  (timers l + starting l <= 1)%nat
  /\ (scanning l = false -> (timers l + starting l = 0)%nat).

End Scheduler.

(** ** The momentum scanner's backoff limiter: [RateLimiter] *)

Module Backoff.

Record RateLimiter := {
  lastRequest : option Z;
  minDelay : Z;
  backoffDelay : Q;
  rateLimited : bool
}.

Definition initialBackoff : Q := 5000.
Definition backoffCap : Q := 30000.

(** [new RateLimiter()] *)
Definition create : RateLimiter :=
  {| lastRequest := None; minDelay := 1000; backoffDelay := initialBackoff;
     rateLimited := false |}.

(** [markRateLimited()] *)
Definition markRateLimited (r : RateLimiter) : RateLimiter :=
  {| lastRequest := lastRequest r; minDelay := minDelay r;
     backoffDelay := Qmin (backoffDelay r * (15 # 10)) backoffCap;
     rateLimited := true |}.

(** [reset()] *)
Definition reset (r : RateLimiter) : RateLimiter :=
  {| lastRequest := lastRequest r; minDelay := minDelay r;
     backoffDelay := 5000; rateLimited := rateLimited r |}.

(** Where a [wait()] is suspended: at the [await] of its backoff sleep or at
    the [await] of its pacing sleep. *)
Inductive Await := InBackoff | InPace.

(** How a stretch of [wait()] between two [await]s ends: with a [setTimeout]
    of [ms] awaited at [at_], or with the return of [wait()]. *)
Inductive Stretch :=
| Sleep (ms : Q) (at_ : Await)
| Returned.

Definition clearRateLimited (r : RateLimiter) : RateLimiter :=
  {| lastRequest := lastRequest r; minDelay := minDelay r;
     backoffDelay := backoffDelay r; rateLimited := false |}.

Definition setLastRequest (now : Z) (r : RateLimiter) : RateLimiter :=
  {| lastRequest := Some now; minDelay := minDelay r;
     backoffDelay := backoffDelay r; rateLimited := rateLimited r |}.

(** [wait()] from [if (this.lastRequest)] on, up to the pacing [await] or
    the return.  [tElapsed] is the [Date.now()] read for [elapsed], [tEnd]
    the one stored in [lastRequest].  [if (this.lastRequest)] fails for
    [null] and for [0]. *)
Definition waitPace (tElapsed tEnd : Z) (r : RateLimiter) : Stretch * RateLimiter :=
  match lastRequest r with
  | Some t =>
      if (t =? 0)%Z then (Returned, setLastRequest tEnd r)
      else
        let elapsed := (tElapsed - t)%Z in
        if (elapsed <? minDelay r)%Z
        then (Sleep (inject_Z (minDelay r - elapsed)) InPace, r)
        else (Returned, setLastRequest tEnd r)
  | None => (Returned, setLastRequest tEnd r)
  end.

(** [wait()] from its call to its first [await] (or its return). *)
Definition waitCall (tElapsed tEnd : Z) (r : RateLimiter) : Stretch * RateLimiter :=
  if rateLimited r then (Sleep (backoffDelay r) InBackoff, r)
  else waitPace tElapsed tEnd r.

(** [wait()] resumed after the sleep awaited at [at_]: after the backoff
    sleep it clears [rateLimited] and goes on to the pacing; after the
    pacing sleep it stores the time and returns. *)
Definition waitResume (at_ : Await) (tElapsed tEnd : Z) (r : RateLimiter)
    : Stretch * RateLimiter :=
  match at_ with
  | InBackoff => waitPace tElapsed tEnd (clearRateLimited r)
  | InPace => (Returned, setLastRequest tEnd r)
  end.

(** The turns of the event loop that touch one limiter: the stretches of
    the [wait()] calls in flight, [markRateLimited()] and [reset()]. *)
Inductive Turn :=
| WaitCall (tElapsed tEnd : Z)
| WaitResume (at_ : Await) (tElapsed tEnd : Z)
| MarkRateLimited
| Reset.

Definition turn (r : RateLimiter) (t : Turn) : RateLimiter :=
  match t with
  | WaitCall t1 t2 => snd (waitCall t1 t2 r)
  | WaitResume at_ t1 t2 => snd (waitResume at_ t1 t2 r)
  | MarkRateLimited => markRateLimited r
  | Reset => reset r
  end.

Definition turns (r : RateLimiter) (ts : list Turn) : RateLimiter := fold_left turn ts r.

Definition isReset (t : Turn) : bool :=
  match t with Reset => true | _ => false end.

(** The one turn that clears [rateLimited]: a [wait()] coming back from its
    backoff sleep. *)
Definition clearsFlag (t : Turn) : bool :=
  match t with WaitResume InBackoff _ _ => true | _ => false end.

(** One whole [wait()], with the turns of other callers that run during its
    backoff sleep ([duringBackoff]) and during its pacing sleep
    ([duringPace]).  Returns the delays handed to [setTimeout], in order,
    and the limiter at the return. *)
Definition waitAmong (duringBackoff duringPace : list Turn) (tElapsed tEnd : Z)
    (r : RateLimiter) : list Q * RateLimiter :=
  match waitCall tElapsed tEnd r with
  | (Returned, r1) => ([], r1)
  | (Sleep d InPace, r1) =>
      ([d], snd (waitResume InPace tElapsed tEnd (turns r1 duringPace)))
  | (Sleep d InBackoff, r1) =>
      match waitResume InBackoff tElapsed tEnd (turns r1 duringBackoff) with
      | (Sleep d' _, r2) =>
          ([d; d'], snd (waitResume InPace tElapsed tEnd (turns r2 duringPace)))
      | (Returned, r2) => ([d], r2)
      end
  end.

(** A [wait()] during whose sleeps nothing else touches the limiter. *)
Definition wait (tElapsed tEnd : Z) (r : RateLimiter) : list Q * RateLimiter :=
  waitAmong [] [] tElapsed tEnd r.

(** The limiter as a [wait()] finds it when it reads the clock for
    [elapsed]: as called, or, after a backoff sleep, as the turns during
    that sleep left it, with the flag cleared. *)
Definition atClock (duringBackoff : list Turn) (r : RateLimiter) : RateLimiter :=
  if rateLimited r then clearRateLimited (turns r duringBackoff) else r.

(** Total time handed to [setTimeout] by one [wait]. *)
Definition suspended (sleeps : list Q) : Q := foldr Qplus 0%Q sleeps.

(** Every state the limiter can be in keeps the delay between its initial
    value and the cap. *)
Definition delayInRange (r : RateLimiter) : Prop :=
  (initialBackoff <= backoffDelay r /\ backoffDelay r <= backoffCap)%Q.

End Backoff.

(** ** The momentum scanner: its alert gate and [checkMomentum] *)

Module MomentumScanner.
Import Num.

Definition ALERT_COOLDOWN_MINUTES : Q := 15.
Definition MAX_ALERTS_PER_STOCK : nat := 20.

(** The alert bookkeeping fields of the scanner object. *)
Record Scanner := {
  alertHistory : gmap string Z;
  alertCounter : gmap string nat;
  lastReset : string
}.

Definition resetDailyCounters (today : string) (sc : Scanner) : Scanner :=
  if decide (today = lastReset sc) then sc
  else {| alertHistory := alertHistory sc; alertCounter := ∅; lastReset := today |}.

(** [canSendAlert(ticker)]: the cooldown test is guarded by
    [alertHistory.has(ticker)]. *)
Definition canSendAlert (today : string) (now : Z) (t : string) (sc : Scanner)
    : bool * Scanner :=
  let sc := resetDailyCounters today sc in
  if (MAX_ALERTS_PER_STOCK <=? default 0%nat (alertCounter sc !! t))%nat then (false, sc)
  else
    match alertHistory sc !! t with
    | Some last =>
        let diff := (inject_Z (now - last) / 60000)%Q in
        if Num.Qlt_bool diff ALERT_COOLDOWN_MINUTES then (false, sc) else (true, sc)
    | None => (true, sc)
    end.

(** [recordAlert(ticker)] *)
Definition recordAlert (now : Z) (t : string) (sc : Scanner) : Scanner :=
  {| alertHistory := <[t := now]> (alertHistory sc);
     alertCounter := <[t := (default 0%nat (alertCounter sc !! t) + 1)%nat]> (alertCounter sc);
     lastReset := lastReset sc |}.


Definition MIN_VOLUME : Q := 500000.
Definition MIN_PRICE_CHANGE : Q := 5.
Definition MIN_REL_VOLUME : Q := 13 # 10.
Definition MAX_PRICE : Q := 1000.
Definition MIN_PRICE : Q := 1 # 100.

(** The object built by [getStockData]. *)
Record StockData := {
  ticker : string;
  price : Q;
  change_pct : Q;
  volume : Q;
  rel_volume : Q;
  timestamp : Z
}.

(** [checkMomentum(data)]; [None] is a falsy [data]. *)
Definition checkMomentum (data : option StockData) : bool * string :=
  match data with
  | None => (false, "No data")
  | Some d =>
      if Qlt_bool MAX_PRICE (price d) then (false, "Price too high")
      else if Qlt_bool (price d) MIN_PRICE then (false, "Price too low")
      else if Qlt_bool (volume d) MIN_VOLUME then (false, "Volume too low")
      else if Qlt_bool (Qabs (change_pct d)) MIN_PRICE_CHANGE then (false, "Move too small")
      else if Qlt_bool (rel_volume d) MIN_REL_VOLUME then (false, "RelVol too low")
      else (true, "Momentum detected!")
  end.

(** The checks as the specification lists them: a failing condition and
    the reason reported for it. *)
Definition checks : list ((StockData -> bool) * string) :=
  [ (fun d => Qlt_bool 1000 (price d), "Price too high");
    (fun d => Qlt_bool (price d) (1 # 100), "Price too low");
    (fun d => Qlt_bool (volume d) 500000, "Volume too low");
    (fun d => Qlt_bool (Qabs (change_pct d)) 5, "Move too small");
    (fun d => Qlt_bool (rel_volume d) (13 # 10), "RelVol too low") ].

(** Reason of the first check that fails, if any. *)
Fixpoint firstFailing (cs : list ((StockData -> bool) * string)) (d : StockData)
    : option string :=
  match cs with
  | [] => None
  | (fails, reason) :: cs' => if fails d then Some reason else firstFailing cs' d
  end.

End MomentumScanner.


(** ** One gate decision followed by its bookkeeping *)

Module AlertCycle.
Import AlertGate.


(** Every timestamp stored for a ticker is a real clock reading (after the
    epoch, so not [0]). *)
Definition stampsNonzero (st : AlertState) (t : string) : Prop :=
  forall last, lastAlertAt st !! t = Some last -> last <> 0%Z.

End AlertCycle.

(** ** Sample inputs *)

Module Samples.
Import Num Analyzer.

(** The price history [1, 2, ..., n]. *)
Definition ramp (n : nat) : list Q := map (fun i => ofNat (S i)) (seq 0 n).

(** Daily bars with the given closes, dated 0, 1, 2, ... *)
Definition barsOf (closes : list Q) : list Bar :=
  imap (fun i c => {| date := Z.of_nat i; close := c |}) closes.

(** 36 bars falling from 100 to 65, then a jump to 74. *)
Definition reversalUp : list Q :=
  map (fun i => (100 - ofNat i)%Q) (seq 0 36) ++ [74%Q].



Definition freshGate : AlertGate.AlertState := AlertGate.initial "Sun Nov 01 2026".

(** Iterated throttle reports on a new limiter. *)
Fixpoint throttled (n : nat) : Backoff.RateLimiter :=
  match n with
  | O => Backoff.create
  | S m => Backoff.markRateLimited (throttled m)
  end.

(** A quote priced above [MAX_PRICE] that fails every later check too. *)
Definition pricey : MomentumScanner.StockData :=
  {| MomentumScanner.ticker := "BRK-A"; MomentumScanner.price := 1500;
     MomentumScanner.change_pct := 1; MomentumScanner.volume := 100;
     MomentumScanner.rel_volume := 1; MomentumScanner.timestamp := 1793500000000 |}.

End Samples.

(** ** More technical helpers: [sma], [ema] *)

Module Technical.
Import Num Indicator.

(** [sma(values, period)], for [period >= 1]; [None] is [null]. *)
Definition sma (values : list Q) (period : nat) : option Q :=
  if (length values <? period)%nat then None
  else
    let slice := drop (length values - period) values in
    Some (sumQ slice / ofNat period)%Q.

(** [ema(values, period)], for [period >= 1].  [emaPrev] starts as what
    [sma] returned; in the loop a [null] would count as [0]. *)
Definition ema (values : list Q) (period : nat) : option Q :=
  if (length values <? period)%nat then None
  else
    let k := (2 / (ofNat period + 1))%Q in
    fold_left (fun (emaPrev : option Q) (x : Q) =>
                 Some (x * k + toNumber emaPrev * (1 - k))%Q)
              (drop period values)
              (sma (take period values) period).

End Technical.

(** ** Divergence: [findLocalExtrema], [checkDivergence] *)

Module Divergence.
Import Num Indicator.

(** One turn of the inner loop [for (j = i - lookback; j <= i + lookback; j++)]
    on the flags [(isHigh, isLow)].  A comparison with a missing element is
    false and leaves the flags alone. *)
Definition windowStep (values : list Q) (i : nat) (flags : bool * bool) (j : nat)
    : bool * bool :=
  if (j =? i)%nat then flags
  else
    match values !! i, values !! j with
    | Some center, Some vj =>
        (if Qle_bool center vj then false else fst flags,
         if Qle_bool vj center then false else snd flags)
    | _, _ => flags
    end.

Definition windowFlags (values : list Q) (lookback i : nat) : bool * bool :=
  fold_left (windowStep values i) (seq (i - lookback) (lookback + lookback + 1)) (true, true).

(** [findLocalExtrema(values, lookback)]: [(highs, lows)]. *)
Definition findLocalExtrema (values : list Q) (lookback : nat) : list nat * list nat :=
  let centers := seq lookback (length values - lookback - lookback) in
  (filter (fun i => fst (windowFlags values lookback i) = true) centers,
   filter (fun i => snd (windowFlags values lookback i) = true) centers).

Inductive Div := BearishDiv | BullishDiv.

(** [arr[arr.length - 2]] and [arr[arr.length - 1]] when [arr.length >= 2]. *)
Definition lastTwo (l : list nat) : option (nat * nat) :=
  match rev l with
  | i2 :: i1 :: _ => Some (i1, i2)
  | _ => None
  end.

(** [a < b] on two array reads; a missing element compares false. *)
Definition ltAt (values : list Q) (a b : nat) : bool :=
  match values !! a, values !! b with
  | Some x, Some y => Qlt_bool x y
  | _, _ => false
  end.

(** [m[a] != null && m[b] != null && m[a] < m[b]] *)
Definition ltDefined (m : list (option Q)) (a b : nat) : bool :=
  match mjoin (m !! a), mjoin (m !! b) with
  | Some x, Some y => Qlt_bool x y
  | _, _ => false
  end.

(** [checkDivergence(closePrices, macdSeriesArr)]; [None] is [null]. *)
Definition checkDivergence (closePrices : list Q) (macdSeriesArr : MacdObj)
    : option Div :=
  let '(highs, lows) := findLocalExtrema closePrices 6 in
  let bearish :=
    match lastTwo highs with
    | Some (i1, i2) =>
        ltAt closePrices i1 i2 && ltDefined (macd macdSeriesArr) i2 i1
    | None => false
    end in
  if bearish then Some BearishDiv
  else
    match lastTwo lows with
    | Some (i1, i2) =>
        if ltAt closePrices i2 i1 && ltDefined (macd macdSeriesArr) i1 i2
        then Some BullishDiv else None
    | None => None
    end.

(** A local high as the loop decides it: an interior index whose value is
    strictly above every other value within [lookback] on either side. *)
Definition localHigh (values : list Q) (lookback i : nat) : Prop :=
  (lookback <= i)%nat /\ (i + lookback < length values)%nat
  /\ exists c, values !! i = Some c
     /\ forall j vj, (i - lookback <= j)%nat -> (j <= i + lookback)%nat -> j <> i ->
          values !! j = Some vj -> (vj < c)%Q.

Definition localLow (values : list Q) (lookback i : nat) : Prop :=
  (lookback <= i)%nat /\ (i + lookback < length values)%nat
  /\ exists c, values !! i = Some c
     /\ forall j vj, (i - lookback <= j)%nat -> (j <= i + lookback)%nat -> j <> i ->
          values !! j = Some vj -> (c < vj)%Q.

End Divergence.

(** ** Shapes of price series, and one more sample *)

Module Series.

(** Twenty flat bars, a rally to 80 at index 28, a dip, a slower rise to 81
    at index 36, then a decline. *)
Definition doubleTop : list Q :=
  replicate 20 50%Q
    ++ [52; 55; 58; 62; 66; 70; 74; 78; 80; 77; 74; 72; 70; 72; 75; 78; 81;
        79; 77; 76; 75; 74; 73]%Q.

(** A series that never falls. *)
Definition nondecreasing (values : list Q) : Prop :=
  forall i x y, values !! i = Some x -> values !! S i = Some y -> (x <= y)%Q.

(** A series that never rises. *)
Definition nonincreasing (values : list Q) : Prop :=
  forall i x y, values !! i = Some x -> values !! S i = Some y -> (y <= x)%Q.

End Series.

(** ** The MACD bot's token bucket: [RateLimiter] with [consume] *)

Module TokenBucket.
Import Num.

Record RateLimiter := {
  maxPerMinute : Q;
  tokens : Q;
  refillRate : Q;   (* tokens per second *)
  lastRefill : Z
}.

(** [new RateLimiter(maxPerMinute)]; [now] is the [Date.now()] of the
    constructor. *)
Definition create (maxPerMinute : Q) (now : Z) : RateLimiter :=
  {| maxPerMinute := maxPerMinute; tokens := maxPerMinute;
     refillRate := (maxPerMinute / 60)%Q; lastRefill := now |}.

(** [_refill()]; [now] is its [Date.now()]. *)
Definition _refill (now : Z) (r : RateLimiter) : RateLimiter :=
  let elapsedSec := (inject_Z (now - lastRefill r) / 1000)%Q in
  let refillAmount := (elapsedSec * refillRate r)%Q in
  if Qlt_bool 0 refillAmount
  then {| maxPerMinute := maxPerMinute r;
          tokens := Qmin (maxPerMinute r) (tokens r + refillAmount);
          refillRate := refillRate r; lastRefill := now |}
  else r.

(** [while (this.tokens < 1) { await sleep(200); this._refill(); }]: every
    turn reads the clock once; [clock] holds the readings still to come, and
    the loop is stuck ([None]) when it wants one more than there are. *)
Fixpoint waitForToken (clock : list Z) (r : RateLimiter)
    : option (RateLimiter * list Z) :=
  if Qlt_bool (tokens r) 1
  then match clock with
       | [] => None
       | now :: clock' => waitForToken clock' (_refill now r)
       end
  else Some (r, clock).

(** [this.tokens -= 1] *)
Definition debit (r : RateLimiter) : RateLimiter :=
  {| maxPerMinute := maxPerMinute r; tokens := (tokens r - 1)%Q;
     refillRate := refillRate r; lastRefill := lastRefill r |}.

(** [consume()]: the limiter afterwards and the clock readings not used. *)
Definition consume (clock : list Z) (r : RateLimiter) : option (RateLimiter * list Z) :=
  match clock with
  | [] => None
  | now :: clock' =>
      match waitForToken clock' (_refill now r) with
      | Some (r', rest) => Some (debit r', rest)
      | None => None
      end
  end.

(** [n] calls of [consume] in a row, one per request. *)
Fixpoint consumeN (n : nat) (clock : list Z) (r : RateLimiter)
    : option (RateLimiter * list Z) :=
  match n with
  | O => Some (r, clock)
  | S n' =>
      match consume clock r with
      | Some (r', rest) => consumeN n' rest r'
      | None => None
      end
  end.

(** The bucket as the constructor and the operations keep it. *)
Definition wellFormed (r : RateLimiter) : Prop :=
  (1 <= maxPerMinute r /\ refillRate r == maxPerMinute r / 60
   /\ 0 <= tokens r /\ tokens r <= maxPerMinute r)%Q.

(** Tokens that flow in between two instants. *)
Definition inflow (r : RateLimiter) (from to : Z) : Q :=
  (inject_Z (to - from) / 1000 * refillRate r)%Q.

End TokenBucket.

(** ** The momentum scanner's fetcher: [StockDataFetcher.getStockData] *)

Module StockDataFetcher.
Import Num Backoff.




(** [msg.includes(needle)] *)
Definition includes (needle msg : string) : bool :=
  match String.index 0 needle msg with Some _ => true | None => false end.







End StockDataFetcher.

(** ** The momentum bot: [MomentumBot.scanBatch], [scanAndPost] *)

Module MomentumBot.
Import Num MomentumScanner.

Definition BATCH_SIZE : nat := 5.
Definition DELAY_BETWEEN_STOCKS : Q := 2000.
Definition DELAY_BETWEEN_BATCHES : Q := 10000.

(** [(this.alertCounter.get(ticker) || 0)] *)
Definition counted (sc : Scanner) (t : string) : nat := default 0%nat (alertCounter sc !! t).

(** [getAlertNumber(ticker)] *)
Definition getAlertNumber (t : string) (sc : Scanner) : nat :=
  (default 0%nat (alertCounter sc !! t) + 1)%nat.

(** What one turn of the loop in [scanAndPost] reads from the global
    [WATCHLIST]: [atSlice] is the array when the loop test and the [slice]
    run, [atPause] the array when, after the awaited [scanBatch], the test
    for the pause runs.  The commands change [WATCHLIST] in between. *)
Record Reading := { atSlice : list string; atPause : list string }.

(** The loop [for (let i = 0; i < WATCHLIST.length; i += BATCH_SIZE)] of
    [scanAndPost] from index [i] on: each batch
    [WATCHLIST.slice(i, i + BATCH_SIZE)] with the flag "a
    [DELAY_BETWEEN_BATCHES] pause follows".  The loop takes one reading per
    turn and stops when they run out. *)
Fixpoint batchLoop (i : nat) (readings : list Reading) : list (list string * bool) :=
  match readings with
  | [] => []
  | rd :: rest =>
      if (i <? length (atSlice rd))%nat
      then (take BATCH_SIZE (drop i (atSlice rd)),
            (i + BATCH_SIZE <? length (atPause rd))%nat)
           :: batchLoop (i + BATCH_SIZE) rest
      else []
  end.

(** The batches of one [scanAndPost]. *)
Definition scanAndPost (readings : list Reading) : list (list string * bool) :=
  batchLoop 0 readings.

(** A watchlist no command changes while the scan runs: every reading
    finds [WATCHLIST]; one reading per ticker and one more are enough for
    the loop to reach its end. *)
Definition steady (WATCHLIST : list string) : list Reading :=
  replicate (S (length WATCHLIST)) {| atSlice := WATCHLIST; atPause := WATCHLIST |}.

End MomentumBot.

(** ** Sample quotes and scanner states *)

Module Quotes.
Import StockDataFetcher.

(** The object built from a quote at 12 dollars, up 6.5 percent on twice
    the average volume. *)
Definition lively : MomentumScanner.StockData :=
  {| MomentumScanner.ticker := "SOFI"; MomentumScanner.price := 12;
     MomentumScanner.change_pct := 13 # 2; MomentumScanner.volume := 4000000;
     MomentumScanner.rel_volume := 2; MomentumScanner.timestamp := 1793500001200 |}.



(** A scanner on 1 November 2026 with nothing recorded. *)
Definition freshScanner : MomentumScanner.Scanner :=
  {| MomentumScanner.alertHistory := ∅; MomentumScanner.alertCounter := ∅;
     MomentumScanner.lastReset := "Sun Nov 01 2026" |}.

End Quotes.

(** ** The MACD bot's fetcher: [Fetcher.fetchCloseSeries] *)

Module Fetcher.
Import Analyzer.

(** How [yahooFinance.historical] ended: rows (or nothing), or an error. *)
Inductive Historical :=
| Rows (result : option (list Bar))
| Failed.

(** [result.sort((a, b) => new Date(a.date) - new Date(b.date))]: the
    library sort is stable, so it is modelled by a stable insertion sort on
    the dates. *)
Fixpoint insertByDate (b : Bar) (sorted : list Bar) : list Bar :=
  match sorted with
  | [] => [b]
  | c :: rest =>
      if (date b <=? date c)%Z then b :: c :: rest
      else c :: insertByDate b rest
  end.

Definition sortByDate (bars : list Bar) : list Bar := foldr insertByDate [] bars.

(** [fetchCloseSeries(ticker)] after the rate limiter: [{ closes, raw }] or
    [None] for [null]. *)
Definition fetchCloseSeries (h : Historical) : option (list Q * list Bar) :=
  match h with
  | Failed => None
  | Rows None => None
  | Rows (Some []) => None
  | Rows (Some result) =>
      let sorted := sortByDate result in
      Some (map close sorted, sorted)
  end.

(** Oldest first. *)
Definition byDate (a b : Bar) : Prop := (date a <= date b)%Z.

End Fetcher.

(** ** The MACD bot's watchlist commands *)

Module Watchlist.

(** The two arrays behind [CSV_TICKERS] and [WATCHLIST].  [loadWatchlist]
    returns the [CSV_TICKERS] array itself when the CSV file had tickers, so
    both names can denote one array: [aliased] says so, and then [own] is not
    in use.  [pending] lists the symbols whose [add-ticker] handler has
    passed its checks and is suspended at the test fetch. *)
Record Lists := {
  csv : list string;
  own : list string;
  aliased : bool;
  pending : list string
}.

(** The array [WATCHLIST] denotes. *)
Definition WATCHLIST (s : Lists) : list string := if aliased s then csv s else own s.

(** The array [CSV_TICKERS] denotes. *)
Definition CSV_TICKERS (s : Lists) : list string := csv s.

(** [let WATCHLIST = loadWatchlist()], given the CSV tickers and the
    content of the JSON file. *)
Definition loadWatchlist (csvTickers json : list string) : Lists :=
  match csvTickers with
  | [] => {| csv := []; own := json; aliased := false; pending := [] |}
  | _ :: _ => {| csv := csvTickers; own := []; aliased := true; pending := [] |}
  end.

(** [arr.includes(symbol)] *)
Definition includes (symbol : string) (arr : list string) : bool :=
  if decide (symbol ∈ arr) then true else false.

(** [WATCHLIST.push(symbol)]: the array is changed in place. *)
Definition push (symbol : string) (s : Lists) : Lists :=
  if aliased s
  then {| csv := csv s ++ [symbol]; own := own s; aliased := true; pending := pending s |}
  else {| csv := csv s; own := own s ++ [symbol]; aliased := false; pending := pending s |}.

Inductive Answer :=
| NotInCsv
| AlreadyWatching
| CouldNotFetch
| Added
| NotInWatchlist
| Removed.

(** The [add-ticker] handler up to [await fetchCloseSeries(symbol)];
    [symbol] is the option trimmed and upper-cased.  [None]: the handler is
    suspended at the fetch. *)
Definition addStart (symbol : string) (s : Lists) : option Answer * Lists :=
  if (match CSV_TICKERS s with [] => false | _ => true end)
     && negb (includes symbol (CSV_TICKERS s))
  then (Some NotInCsv, s)
  else if includes symbol (WATCHLIST s) then (Some AlreadyWatching, s)
  else (None, {| csv := csv s; own := own s; aliased := aliased s;
                 pending := symbol :: pending s |}).

(** One suspended handler fewer. *)
Fixpoint resume (symbol : string) (waiting : list string) : list string :=
  match waiting with
  | [] => []
  | x :: rest => if decide (x = symbol) then rest else x :: resume symbol rest
  end.

(** The rest of the [add-ticker] handler, once the fetch is back;
    [fetchable] says whether it returned closes.  Without a handler
    suspended for [symbol] there is nothing to run. *)
Definition addFetched (symbol : string) (fetchable : bool) (s : Lists)
    : option Answer * Lists :=
  if includes symbol (pending s)
  then
    let s1 := {| csv := csv s; own := own s; aliased := aliased s;
                 pending := resume symbol (pending s) |} in
    if fetchable then (Some Added, push symbol s1) else (Some CouldNotFetch, s1)
  else (None, s).

(** The [remove-ticker] handler: [WATCHLIST] is set to a new, filtered
    array. *)
Definition removeTicker (symbol : string) (s : Lists) : Answer * Lists :=
  if negb (includes symbol (WATCHLIST s)) then (NotInWatchlist, s)
  else (Removed,
        {| csv := csv s;
           own := filter (fun x => x <> symbol) (WATCHLIST s);
           aliased := false; pending := pending s |}).

(** The turns of the event loop that touch the lists. *)
Inductive Command :=
| AddStart (symbol : string)
| AddFetched (symbol : string) (fetchable : bool)
| RemoveTicker (symbol : string).

Definition handle (s : Lists) (c : Command) : Lists :=
  match c with
  | AddStart symbol => snd (addStart symbol s)
  | AddFetched symbol fetchable => snd (addFetched symbol fetchable s)
  | RemoveTicker symbol => snd (removeTicker symbol s)
  end.

Definition handleAll (s : Lists) (cs : list Command) : Lists := fold_left handle cs s.

(** A whole [add-ticker] with no other command in between. *)
Definition addTicker (symbol : string) (fetchable : bool) (s : Lists) : Lists :=
  handle (handle s (AddStart symbol)) (AddFetched symbol fetchable).

(** What holds of the lists from [loadWatchlist] on. *)
Definition consistent (s : Lists) : Prop :=
  (aliased s = true -> pending s = [] /\ csv s <> [])
  /\ (csv s <> [] -> forall x, x ∈ WATCHLIST s ++ pending s -> x ∈ csv s).

End Watchlist.

(** ** The momentum bot's watchlist commands *)

Module MomentumWatchlist.

(** What is found at [WATCHLIST_FILE]. *)
Inductive File :=
| Missing
| Unparsable
| Parsed (list_ : list string).

(** [loadWatchlist()]: a missing file is first written with ten defaults and
    then read back; a file that does not parse is replaced by five. *)
Definition loadWatchlist (f : File) : list string :=
  match f with
  | Missing => ["AAPL"; "TSLA"; "NVDA"; "AMD"; "PLTR"; "COIN"; "RIVN"; "SOFI"; "OSCR"; "VIVK"]
  | Unparsable => ["AAPL"; "TSLA"; "NVDA"; "AMD"; "PLTR"]
  | Parsed list_ => list_
  end.

(** The character class [[A-Z0-9\.\-]]. *)
Definition tickerChar (c : Ascii.ascii) : bool :=
  let n := Ascii.nat_of_ascii c in
  ((65 <=? n) && (n <=? 90)) || ((48 <=? n) && (n <=? 57)) || (n =? 46) || (n =? 45).

(** [/^[A-Z0-9\.\-]{1,8}$/.test(symbol)] *)
Definition validFormat (symbol : string) : bool :=
  (1 <=? String.length symbol) && (String.length symbol <=? 8)
  && forallb tickerChar (String.list_ascii_of_string symbol).

(** [WATCHLIST], and the symbols whose [add-ticker] handler has passed its
    checks and is suspended at [deferReply] or [fetchPrice]. *)
Record Lists := {
  WATCHLIST : list string;
  pending : list string
}.

Inductive Answer :=
| InvalidFormat
| AlreadyInWatchlist
| CouldNotFind
| Added
| NotInWatchlist
| Removed.

(** The [add-ticker] handler up to its first [await]; [symbol] is the
    option trimmed and upper-cased. *)
Definition addStart (symbol : string) (s : Lists) : option Answer * Lists :=
  if negb (validFormat symbol) then (Some InvalidFormat, s)
  else if Watchlist.includes symbol (WATCHLIST s) then (Some AlreadyInWatchlist, s)
  else (None, {| WATCHLIST := WATCHLIST s; pending := symbol :: pending s |}).

(** The rest of the handler once [fetchPrice] is back; [found] says whether
    it returned a quote. *)
Definition addFetched (symbol : string) (found : bool) (s : Lists) : option Answer * Lists :=
  if Watchlist.includes symbol (pending s)
  then
    if found
    then (Some Added, {| WATCHLIST := WATCHLIST s ++ [symbol];
                         pending := Watchlist.resume symbol (pending s) |})
    else (Some CouldNotFind, {| WATCHLIST := WATCHLIST s;
                                pending := Watchlist.resume symbol (pending s) |})
  else (None, s).

(** The [remove-ticker] handler. *)
Definition removeTicker (symbol : string) (s : Lists) : Answer * Lists :=
  if negb (Watchlist.includes symbol (WATCHLIST s)) then (NotInWatchlist, s)
  else (Removed, {| WATCHLIST := filter (fun x => x <> symbol) (WATCHLIST s);
                    pending := pending s |}).

Inductive Command :=
| AddStart (symbol : string)
| AddFetched (symbol : string) (found : bool)
| RemoveTicker (symbol : string).

Definition handle (s : Lists) (c : Command) : Lists :=
  match c with
  | AddStart symbol => snd (addStart symbol s)
  | AddFetched symbol found => snd (addFetched symbol found s)
  | RemoveTicker symbol => snd (removeTicker symbol s)
  end.

Definition handleAll (s : Lists) (cs : list Command) : Lists := fold_left handle cs s.

(** The bot after start-up. *)
Definition started (f : File) : Lists := {| WATCHLIST := loadWatchlist f; pending := [] |}.

End MomentumWatchlist.

(** ** [emaSeries] in the program's own arithmetic

    JavaScript numbers are IEEE 754 binary64 values.  Where a claim turns on
    the value computed, not on which entries are defined or how two values
    compare, the function is modelled on the kernel's binary64 floats, with
    the operations in the order the source performs them. *)

Module Doubles.
#[local] Set Warnings "-inexact-float".
Local Open Scope float_scope.

(** An array length or a period used as a number (exact below [2^53]). *)
Definition ofNat (n : nat) : float := PrimFloat.of_uint63 (Uint63.of_Z (Z.of_nat n)).

(** [arr.reduce((a,b)=>a+b, 0)] *)
Definition sum (l : list float) : float := fold_left PrimFloat.add l 0.

(** The body of [for (let i = period; i < values.length; i++)]. *)
Fixpoint ema_loop (k : float) (rest : list float) (i : nat) (prev : float)
    (out : list (option float)) : list (option float) :=
  match rest with
  | [] => out
  | x :: rest' =>
      let prev' := x * k + prev * (1 - k) in
      ema_loop k rest' (S i) prev' (<[i := Some prev']> out)
  end.

(** [emaSeries(values, period)], for [period >= 1]; [None] is [null]. *)
Definition emaSeries (values : list float) (period : nat) : list (option float) :=
  let out := replicate (length values) (@None float) in
  if (length values <? period)%nat then out
  else
    let prev := sum (take period values) / ofNat period in
    let out := <[(period - 1)%nat := Some prev]> out in
    let k := 2 / (ofNat period + 1) in
    ema_loop k (drop period values) period prev out.

(** The running value after the loop has consumed [xs] from [prev]. *)
Definition emaFrom (k prev : float) (xs : list float) : float :=
  fold_left (fun p x => x * k + p * (1 - k)) xs prev.

(** Three days at 0.1. *)
Definition dime : list float := [0.1; 0.1; 0.1].

End Doubles.

(** ** Scan passes of the MACD bot that overlap

    [runScanOnce] awaits [channel.send] between [canAlert] and
    [recordAlert], and nothing keeps a second pass (a tick of the interval,
    [/scan-now]) from running meanwhile on the same alert state.  A symbol's
    turn is therefore two turns of the event loop. *)

Module Passes.
Import Num Analyzer AlertGate Scan.

(** How a symbol's turn stands when it stops running: ended by one of the
    [continue]s, or suspended at [await channel.send] with the notification
    built from [res]. *)
Inductive Before :=
| Ended (o : Outcome)
| Sending (res : Analysis).

(** One symbol's turn from the return of [analyzeTicker] to
    [await channel.send(...)]. *)
Definition scanBeforeSend (sym : string) (fetched : option (list Bar))
    (today : string) (checkedAt : Z) (st : AlertState) : Before * AlertState :=
  match analyzeTicker sym fetched with
  | None => (Ended NoData, st)
  | Some res =>
      match cross res with
      | None => (Ended NoCross, st)
      | Some c =>
          let '(tickerOk, st1) := canAlert today checkedAt sym st in
          if negb tickerOk then (Ended Skipped, st1)
          else
            match c with
            | BearishCross => (Ended IgnoredBearish, st1)
            | BullishCross =>
                if negb (js_gt (histNow res) (histPrev res)) then (Ended HistNotRising, st1)
                else if negb (Qlt_bool (prevPrice res) (price res))
                     then (Ended PriceNotRising, st1)
                     else (Sending res, st1)
            end
      end
  end.

(** The turn resumed when [channel.send] has resolved ([delivered]) or
    thrown; [recordedAt] is the [Date.now()] of [recordAlert]. *)
Definition scanAfterSend (sym : string) (delivered : bool) (recordedAt : Z)
    (st : AlertState) : AlertState :=
  if delivered then recordAlert recordedAt sym st else st.

(** The alert state with the symbols whose [channel.send] is awaited. *)
Record Bot := { gate : AlertState; sending : list string }.

(** The turns of the event loop that touch the alert state. *)
Inductive Turn :=
| BeforeSend (sym : string) (fetched : option (list Bar)) (today : string) (checkedAt : Z)
| AfterSend (sym : string) (delivered : bool) (recordedAt : Z).

Definition turn (b : Bot) (t : Turn) : Bot :=
  match t with
  | BeforeSend sym fetched today checkedAt =>
      match scanBeforeSend sym fetched today checkedAt (gate b) with
      | (Sending _, st) => {| gate := st; sending := sym :: sending b |}
      | (Ended _, st) => {| gate := st; sending := sending b |}
      end
  | AfterSend sym delivered recordedAt =>
      if Watchlist.includes sym (sending b)
      then {| gate := scanAfterSend sym delivered recordedAt (gate b);
              sending := Watchlist.resume sym (sending b) |}
      else b
  end.

Definition turns (b : Bot) (ts : list Turn) : Bot := fold_left turn ts b.

(** The number of sends awaited for [t]. *)
Definition inFlight (t : string) (b : Bot) : nat :=
  length (filter (fun x => x = t) (sending b)).

(** At no moment of the run are more than [m] sends awaited for [t]; each
    pass awaits one send at a time, so [m] passes in flight give width [m]. *)
Definition width (m : nat) (t : string) (b : Bot) (ts : list Turn) : Prop :=
  forall k, (inFlight t (turns b (take k ts)) <= m)%nat.

(** The turn is the resumption of a delivered notification for [t]. *)
Definition delivers (t : string) (x : Turn) : bool :=
  match x with
  | AfterSend sym true _ => if decide (sym = t) then true else false
  | _ => false
  end.

(** The bot between passes. *)
Definition idle (st : AlertState) : Bot := {| gate := st; sending := [] |}.

End Passes.

(** ** Scans of the momentum bot that overlap

    [scanBatch] awaits [channel.send] between [canSendAlert] (and
    [getAlertNumber]) and [recordAlert]; the interval of [start] begins a
    scan on the same scanner whether or not the previous one has ended. *)

Module MomentumPasses.
Import Num MomentumScanner MomentumBot.

(** How a ticker's turn stands when it stops running. *)
Inductive Before :=
| NoData
| NoAlert (reason : string)
| Sending (alertNumber : nat).

(** One ticker's turn from the return of [getStockData] to
    [await channel.send(...)]; [alertNumber] is what [formatDiscordEmbed]
    read from [getAlertNumber] for the title. *)
Definition scanBeforeSend (ticker : string) (data : option StockData)
    (today : string) (checkedAt : Z) (sc : Scanner) : Before * Scanner :=
  match data with
  | None => (NoData, sc)
  | Some d =>
      let '(isMomentum, reason) := checkMomentum (Some d) in
      if isMomentum
      then
        let '(ok, sc1) := canSendAlert today checkedAt ticker sc in
        if ok then (Sending (getAlertNumber ticker sc1), sc1)
        else (NoAlert reason, sc1)
      else (NoAlert reason, sc)
  end.

(** The turn resumed when [channel.send] has resolved or thrown. *)
Definition scanAfterSend (ticker : string) (delivered : bool) (recordedAt : Z)
    (sc : Scanner) : Scanner :=
  if delivered then recordAlert recordedAt ticker sc else sc.

(** The scanner with the tickers whose [channel.send] is awaited. *)
Record Bot := { scanner : Scanner; sending : list string }.

Inductive Turn :=
| BeforeSend (ticker : string) (data : option StockData) (today : string) (checkedAt : Z)
| AfterSend (ticker : string) (delivered : bool) (recordedAt : Z).

Definition turn (b : Bot) (t : Turn) : Bot :=
  match t with
  | BeforeSend ticker data today checkedAt =>
      match scanBeforeSend ticker data today checkedAt (scanner b) with
      | (Sending _, sc) => {| scanner := sc; sending := ticker :: sending b |}
      | (_, sc) => {| scanner := sc; sending := sending b |}
      end
  | AfterSend ticker delivered recordedAt =>
      if Watchlist.includes ticker (sending b)
      then {| scanner := scanAfterSend ticker delivered recordedAt (scanner b);
              sending := Watchlist.resume ticker (sending b) |}
      else b
  end.

Definition turns (b : Bot) (ts : list Turn) : Bot := fold_left turn ts b.

Definition inFlight (t : string) (b : Bot) : nat :=
  length (filter (fun x => x = t) (sending b)).

Definition width (m : nat) (t : string) (b : Bot) (ts : list Turn) : Prop :=
  forall k, (inFlight t (turns b (take k ts)) <= m)%nat.

Definition idle (sc : Scanner) : Bot := {| scanner := sc; sending := [] |}.

End MomentumPasses.

(** ** What a divergence is: the last two extrema and the two comparisons *)

Module DivergenceSpec.
Import Indicator.

(** [i2] is the last index with [P] and [i1] the last one before it. *)
Definition latestTwo (P : nat -> Prop) (i1 i2 : nat) : Prop :=
  P i1 /\ P i2 /\ (i1 < i2)%nat /\ forall j, P j -> (j <= i1)%nat \/ j = i2.

(** A higher close and a lower, defined MACD at [i2] than at [i1]. *)
Definition bearishAt (closePrices : list Q) (m : MacdObj) (i1 i2 : nat) : Prop :=
  exists p1 p2 m1 m2,
    closePrices !! i1 = Some p1 /\ closePrices !! i2 = Some p2 /\ (p1 < p2)%Q
    /\ macd m !! i1 = Some (Some m1) /\ macd m !! i2 = Some (Some m2) /\ (m2 < m1)%Q.

(** A lower close and a higher, defined MACD at [i2] than at [i1]. *)
Definition bullishAt (closePrices : list Q) (m : MacdObj) (i1 i2 : nat) : Prop :=
  exists p1 p2 m1 m2,
    closePrices !! i1 = Some p1 /\ closePrices !! i2 = Some p2 /\ (p2 < p1)%Q
    /\ macd m !! i1 = Some (Some m1) /\ macd m !! i2 = Some (Some m2) /\ (m1 < m2)%Q.

End DivergenceSpec.

(** ** A throttle report made while another [wait()] sleeps *)

Module LostReport.
Import Backoff.

(** The clock when the first scan makes its first request. *)
Definition start : Z := 1793500000000.

(** Two scans share a new limiter.  The first scan's [wait()] returns at
    once and its request goes out at [start].  The second scan's [wait()],
    called at [start + 200], sleeps the 800 ms missing of [minDelay]; its
    request goes out at [start + 1000] and stays unanswered for 7.5 s.  The
    first scan's request fails with a throttle error at [start + 300]: first
    report.  After its 2000 ms pause the first scan calls [wait()] at
    [start + 2300] and goes into its backoff sleep, 7500 ms. *)
Definition opening : list Turn :=
  [WaitCall start start;
   WaitCall (start + 200) (start + 200);
   MarkRateLimited;
   WaitResume InPace (start + 1000) (start + 1000);
   WaitCall (start + 2300) (start + 2300)].

(** The limiter when the second report is about to be made. *)
Definition sleeping : RateLimiter := turns create opening.

(** At [start + 8500] the second scan's request fails with a throttle error
    too: second report.  At [start + 9800] the first scan's [wait()] comes
    back from its backoff sleep. *)
Definition ending : list Turn :=
  [MarkRateLimited; WaitResume InBackoff (start + 9800) (start + 9800)].

(** The limiter the second scan finds when, after its 2000 ms pause, it
    calls [wait()] at [start + 10500]. *)
Definition afterwards : RateLimiter := turns sleeping ending.

End LostReport.

(** * Theorems *)

(** ** Numbers *)

Section NumFacts.
Import Num.
Local Open Scope Q_scope.

Lemma Qlt_bool_iff (x y : Q) : Qlt_bool x y = true <-> x < y.
Proof.
  unfold Qlt_bool. rewrite negb_true_iff.
  destruct (Qle_bool y x) eqn:E.
  - apply Qle_bool_iff in E. split; [discriminate|]. intros H.
    exfalso. apply (Qlt_not_le _ _ H E).
  - split; [intros _|reflexivity]. apply Qnot_le_lt. intros H.
    apply Qle_bool_iff in H. congruence.
Qed.

Lemma Qlt_bool_false_iff (x y : Q) : Qlt_bool x y = false <-> y <= x.
Proof.
  unfold Qlt_bool. rewrite negb_false_iff. apply Qle_bool_iff.
Qed.

Lemma ofNat_pos (n : nat) : (1 <= n)%nat -> 0 < ofNat n.
Proof.
  intros H. unfold ofNat, Qlt. simpl. lia.
Qed.

End NumFacts.

(** ** [emaSeries] *)

Section EmaFacts.
Import Num Indicator SignalSpec.
Local Open Scope Q_scope.

Lemma ema_loop_length k rest : forall i prev out,
  length (ema_loop k rest i prev out) = length out.
Proof.
  induction rest as [|x rest IH]; intros i prev out; simpl; [reflexivity|].
  rewrite IH. apply length_insert.
Qed.

(** The loop never writes below its start index. *)
Lemma ema_loop_lookup_lt k rest : forall i prev out j,
  (j < i)%nat -> ema_loop k rest i prev out !! j = out !! j.
Proof.
  induction rest as [|x rest IH]; intros i prev out j Hj; simpl; [reflexivity|].
  rewrite IH by lia. apply list_lookup_insert_ne. lia.
Qed.

(** What the loop leaves at index [i + n]. *)
Lemma ema_loop_lookup k rest : forall i prev out n,
  (i + length rest <= length out)%nat -> (n < length rest)%nat ->
  ema_loop k rest i prev out !! (i + n)%nat
    = Some (Some (emaFrom k prev (take (S n) rest))).
Proof.
  induction rest as [|x rest IH]; intros i prev out n Hlen Hn; simpl in *; [lia|].
  destruct n as [|n].
  - rewrite Nat.add_0_r, ema_loop_lookup_lt by lia.
    rewrite list_lookup_insert_eq by lia. rewrite take_0. reflexivity.
  - replace (i + S n)%nat with (S i + n)%nat by lia.
    rewrite IH; [reflexivity| rewrite length_insert; lia | lia].
Qed.

Lemma emaSeries_length values period :
  length (emaSeries values period) = length values.
Proof.
  unfold emaSeries. destruct (length values <? period)%nat.
  - apply length_replicate.
  - rewrite ema_loop_length, length_insert. apply length_replicate.
Qed.

Lemma emaSeries_short values period :
  (length values < period)%nat ->
  emaSeries values period = replicate (length values) None.
Proof.
  intros H. unfold emaSeries.
  destruct (Nat.ltb_spec (length values) period); [reflexivity|lia].
Qed.

(** Before the seed index the output is [null]. *)
Lemma emaSeries_lookup_before values period i :
  (1 <= period)%nat -> (i < period - 1)%nat -> (i < length values)%nat ->
  emaSeries values period !! i = Some None.
Proof.
  intros Hp Hi Hlen. unfold emaSeries.
  destruct (length values <? period)%nat.
  - apply lookup_replicate_2. exact Hlen.
  - rewrite ema_loop_lookup_lt by lia.
    rewrite list_lookup_insert_ne by lia.
    apply lookup_replicate_2. exact Hlen.
Qed.

(** From the seed index on, the output is the running value. *)
Lemma emaSeries_lookup_from values period i :
  (1 <= period)%nat -> (period - 1 <= i)%nat -> (i < length values)%nat ->
  emaSeries values period !! i
    = Some (Some (emaFrom (2 / (ofNat period + 1))
                          (sumQ (take period values) / ofNat period)
                          (take (i + 1 - period) (drop period values)))).
Proof.
  intros Hp Hi Hlen. unfold emaSeries.
  destruct (Nat.ltb_spec (length values) period) as [|Hge]; [lia|].
  destruct (decide (i = period - 1)%nat) as [->|Hne].
  - rewrite ema_loop_lookup_lt by lia.
    rewrite list_lookup_insert_eq by (rewrite length_replicate; lia).
    replace (period - 1 + 1 - period)%nat with 0%nat by lia.
    rewrite take_0. reflexivity.
  - replace i with (period + (i - period))%nat at 1 by lia.
    rewrite ema_loop_lookup.
    + replace (S (i - period)) with (i + 1 - period)%nat by lia. reflexivity.
    + rewrite length_insert, length_replicate, length_drop. lia.
    + rewrite length_drop. lia.
Qed.

Lemma emaSeries_defined_iff values period i :
  (1 <= period)%nat ->
  is_Some (mjoin (emaSeries values period !! i))
  <-> (period - 1 <= i)%nat /\ (i < length values)%nat.
Proof.
  intros Hp. split.
  - intros [e He].
    destruct (emaSeries values period !! i) as [o|] eqn:E; [|discriminate].
    simpl in He. subst o.
    assert (Hi: (i < length values)%nat).
    { rewrite <- (emaSeries_length values period). eapply lookup_lt_Some, E. }
    split; [|exact Hi].
    destruct (Nat.le_gt_cases (period - 1) i) as [|Hlt]; [assumption|].
    rewrite emaSeries_lookup_before in E by lia. discriminate.
  - intros [H1 H2]. rewrite emaSeries_lookup_from by assumption. simpl. eauto.
Qed.

Lemma sumQ_acc (l : list Q) : forall a, fold_left Qplus l a == a + foldr Qplus 0 l.
Proof.
  induction l as [|x l IH]; intros a; simpl.
  - ring.
  - rewrite IH. ring.
Qed.

Lemma sumQ_foldr (l : list Q) : sumQ l == foldr Qplus 0 l.
Proof. unfold sumQ. rewrite sumQ_acc. ring. Qed.

Lemma foldr_const (l : list Q) (v : Q) :
  Forall (fun x => x == v) l -> foldr Qplus 0 l == ofNat (length l) * v.
Proof.
  induction 1 as [|x l Hx _ IH].
  - simpl. unfold ofNat. simpl. ring.
  - cbn [foldr length]. rewrite IH, Hx. unfold ofNat.
    rewrite Nat2Z.inj_succ, <- Z.add_1_r, inject_Z_plus. ring.
Qed.

Lemma emaFrom_snoc k prev xs x :
  emaFrom k prev (xs ++ [x]) = x * k + emaFrom k prev xs * (1 - k).
Proof. unfold emaFrom. rewrite fold_left_app. reflexivity. Qed.

Lemma emaFrom_const k v xs : forall prev,
  prev == v -> Forall (fun x => x == v) xs -> emaFrom k prev xs == v.
Proof.
  induction xs as [|x xs IH]; intros prev Hp Hall; simpl.
  - exact Hp.
  - inversion Hall as [|? ? Hx Hxs]; subst. apply IH; [|assumption].
    rewrite Hx, Hp. ring.
Qed.

(** In exact arithmetic (period at least 1, series at least [period] long):
    the value at the seed index is the simple average of the first [period]
    values, every later value is [current * k + previous * (1 - k)], and on
    a constant series of value [v] every defined value equals [v]. *)
Lemma emaSeries_exact (values : list Q) (period : nat) :
  (1 <= period)%nat -> (period <= length values)%nat ->
  let k := 2 / (ofNat period + 1) in
  let out := emaSeries values period in
  (exists seed, out !! (period - 1)%nat = Some (Some seed)
                /\ seed == mean (take period values))
  /\ (forall i current, (period <= i)%nat -> values !! i = Some current ->
        exists previous, out !! (i - 1)%nat = Some (Some previous)
                         /\ out !! i = Some (Some (current * k + previous * (1 - k))))
  /\ (forall v, Forall (fun x => x == v) values ->
        forall i e, out !! i = Some (Some e) -> e == v).
Proof.
  intros Hp Hlen k out. subst out. repeat split.
  - eexists. split.
    + rewrite emaSeries_lookup_from by lia.
      replace (period - 1 + 1 - period)%nat with 0%nat by lia.
      rewrite take_0. reflexivity.
    + simpl. unfold mean. rewrite sumQ_foldr, length_take.
      rewrite Nat.min_l by lia. reflexivity.
  - intros i current Hi Hcur.
    assert (Hil: (i < length values)%nat) by (eapply lookup_lt_Some, Hcur).
    eexists. split.
    + rewrite emaSeries_lookup_from by lia. reflexivity.
    + rewrite emaSeries_lookup_from by lia.
      replace (i + 1 - period)%nat with (S (i - period)) by lia.
      replace (i - 1 + 1 - period)%nat with (i - period)%nat by lia.
      assert (Hd: drop period values !! (i - period)%nat = Some current).
      { rewrite lookup_drop. replace (period + (i - period))%nat with i by lia. exact Hcur. }
      rewrite (take_S_r _ _ _ Hd), emaFrom_snoc. reflexivity.
  - intros v Hall i e He.
    assert (Hil: (i < length values)%nat).
    { rewrite <- (emaSeries_length values period). eapply lookup_lt_Some, He. }
    destruct (Nat.le_gt_cases (period - 1) i) as [Hge|Hlt].
    + rewrite emaSeries_lookup_from in He by lia. injection He as <-.
      apply emaFrom_const.
      * rewrite sumQ_foldr, (foldr_const _ v).
        -- rewrite length_take, Nat.min_l by lia. field.
           intros H0. pose proof (ofNat_pos period Hp) as Hpos.
           rewrite H0 in Hpos. apply (Qlt_irrefl 0), Hpos.
        -- apply Forall_take, Hall.
      * apply Forall_take, Forall_drop, Hall.
    + rewrite emaSeries_lookup_before in He by lia. discriminate.
Qed.

End EmaFacts.

(** ** [emaSeries] on doubles *)

Section EmaDoubleFacts.
Import Doubles.
#[local] Set Warnings "-inexact-float".
Local Open Scope float_scope.

Lemma double_loop_lookup_lt k rest : forall i prev out j,
  (j < i)%nat -> ema_loop k rest i prev out !! j = out !! j.
Proof.
  induction rest as [|x rest IH]; intros i prev out j Hj; simpl; [reflexivity|].
  rewrite IH by lia. apply list_lookup_insert_ne. lia.
Qed.

Lemma double_loop_length k rest : forall i prev out,
  length (ema_loop k rest i prev out) = length out.
Proof.
  induction rest as [|x rest IH]; intros i prev out; simpl; [reflexivity|].
  rewrite IH. apply length_insert.
Qed.

Lemma double_loop_lookup k rest : forall i prev out n,
  (i + length rest <= length out)%nat -> (n < length rest)%nat ->
  ema_loop k rest i prev out !! (i + n)%nat
    = Some (Some (emaFrom k prev (take (S n) rest))).
Proof.
  induction rest as [|x rest IH]; intros i prev out n Hlen Hn; simpl in *; [lia|].
  destruct n as [|n].
  - rewrite Nat.add_0_r, double_loop_lookup_lt by lia.
    rewrite list_lookup_insert_eq by lia. rewrite take_0. reflexivity.
  - replace (i + S n)%nat with (S i + n)%nat by lia.
    rewrite IH; [reflexivity| rewrite length_insert; lia | lia].
Qed.

Lemma double_series_length values period :
  length (emaSeries values period) = length values.
Proof.
  unfold emaSeries. destruct (length values <? period)%nat.
  - apply length_replicate.
  - rewrite double_loop_length, length_insert. apply length_replicate.
Qed.

Lemma double_series_before values period i :
  (1 <= period)%nat -> (i < period - 1)%nat -> (i < length values)%nat ->
  emaSeries values period !! i = Some None.
Proof.
  intros Hp Hi Hlen. unfold emaSeries.
  destruct (length values <? period)%nat.
  - apply lookup_replicate_2. exact Hlen.
  - rewrite double_loop_lookup_lt by lia.
    rewrite list_lookup_insert_ne by lia.
    apply lookup_replicate_2. exact Hlen.
Qed.

Lemma double_series_from values period i :
  (1 <= period)%nat -> (period - 1 <= i)%nat -> (i < length values)%nat ->
  emaSeries values period !! i
    = Some (Some (emaFrom (2 / (ofNat period + 1))
                          (sum (take period values) / ofNat period)
                          (take (i + 1 - period) (drop period values)))).
Proof.
  intros Hp Hi Hlen. unfold emaSeries.
  destruct (Nat.ltb_spec (length values) period) as [|Hge]; [lia|].
  destruct (decide (i = period - 1)%nat) as [->|Hne].
  - rewrite double_loop_lookup_lt by lia.
    rewrite list_lookup_insert_eq by (rewrite length_replicate; lia).
    replace (period - 1 + 1 - period)%nat with 0%nat by lia.
    rewrite take_0. reflexivity.
  - replace i with (period + (i - period))%nat at 1 by lia.
    rewrite double_loop_lookup.
    + replace (S (i - period)) with (i + 1 - period)%nat by lia. reflexivity.
    + rewrite length_insert, length_replicate, length_drop. lia.
    + rewrite length_drop. lia.
Qed.

Lemma double_emaFrom_snoc k prev xs x :
  emaFrom k prev (xs ++ [x]) = x * k + emaFrom k prev xs * (1 - k).
Proof. unfold emaFrom. rewrite fold_left_app. reflexivity. Qed.

(** A running value that is a fixed point of the step stays put. *)
Lemma double_emaFrom_fixed k v xs :
  v * k + v * (1 - k) = v -> Forall (fun x => x = v) xs -> emaFrom k v xs = v.
Proof.
  intros Hfix. induction xs as [|x xs IH] using rev_ind; intros Hall; [reflexivity|].
  apply Forall_app in Hall as [Hxs Hx]. inversion Hx as [|? ? -> _]; subst.
  rewrite double_emaFrom_snoc, IH by exact Hxs. exact Hfix.
Qed.

(** C6. In the program's double arithmetic, for a series at least [period]
    long (period at least 1): the value at the seed index [period - 1] is the
    sum of the first [period] values, taken from 0 left to right, divided by
    [period]; every later value is [current * k + previous * (1 - k)] with
    [k = 2 / (period + 1)]; the entries before the seed index are [null]; and
    on a constant series of value [v] every defined value is [v] provided
    the seed average of [period] copies of [v] and the step
    [v * k + v * (1 - k)] both round to [v]. *)
Theorem emaSeries_seed_recurrence (values : list float) (period : nat) :
  (1 <= period)%nat -> (period <= length values)%nat ->
  let k := 2 / (ofNat period + 1) in
  let out := emaSeries values period in
  out !! (period - 1)%nat = Some (Some (sum (take period values) / ofNat period))
  /\ (forall i current, (period <= i)%nat -> values !! i = Some current ->
        exists previous, out !! (i - 1)%nat = Some (Some previous)
                         /\ out !! i = Some (Some (current * k + previous * (1 - k))))
  /\ (forall i, (i < period - 1)%nat -> out !! i = Some None)
  /\ (forall v, Forall (fun x => x = v) values ->
        sum (replicate period v) / ofNat period = v ->
        v * k + v * (1 - k) = v ->
        forall i e, out !! i = Some (Some e) -> e = v).
Proof.
  intros Hp Hlen k out. subst out. split; [|split; [|split]].
  - rewrite double_series_from by lia.
    replace (period - 1 + 1 - period)%nat with 0%nat by lia.
    rewrite take_0. reflexivity.
  - intros i current Hi Hcur.
    assert (Hil : (i < length values)%nat) by (eapply lookup_lt_Some, Hcur).
    eexists. split.
    + rewrite double_series_from by lia. reflexivity.
    + rewrite double_series_from by lia.
      replace (i + 1 - period)%nat with (S (i - period)) by lia.
      replace (i - 1 + 1 - period)%nat with (i - period)%nat by lia.
      assert (Hd : drop period values !! (i - period)%nat = Some current).
      { rewrite lookup_drop. replace (period + (i - period))%nat with i by lia. exact Hcur. }
      rewrite (take_S_r _ _ _ Hd), double_emaFrom_snoc. reflexivity.
  - intros i Hi. apply double_series_before; lia.
  - intros v Hall Hseed Hfix i e He.
    assert (Hil : (i < length values)%nat).
    { rewrite <- (double_series_length values period). eapply lookup_lt_Some, He. }
    destruct (Nat.le_gt_cases (period - 1) i) as [Hge|Hlt].
    + rewrite double_series_from in He by lia. injection He as <-.
      assert (Htake : take period values = replicate period v).
      { apply list_eq. intros j. destruct (Nat.lt_ge_cases j period) as [Hj|Hj].
        - rewrite lookup_take_lt by exact Hj.
          rewrite lookup_replicate_2 by exact Hj.
          destruct (values !! j) as [x|] eqn:Ex.
          + rewrite Forall_forall in Hall. f_equal. apply Hall.
            eapply list_elem_of_lookup_2, Ex.
          + apply lookup_ge_None in Ex. lia.
        - rewrite lookup_take_ge by exact Hj. symmetry.
          apply lookup_ge_None. rewrite length_replicate. exact Hj. }
      rewrite Htake, Hseed. apply double_emaFrom_fixed; [exact Hfix|].
      apply Forall_take, Forall_drop, Hall.
    + rewrite double_series_before in He by lia. discriminate.
Qed.

Lemma emaSeries_seed_recurrence_witness :
  emaSeries [50; 50; 50; 50; 50] 3 !! 2%nat
  = Some (Some (sum (take 3 [50; 50; 50; 50; 50]) / ofNat 3))
  /\ forall i e, emaSeries [50; 50; 50; 50; 50] 3 !! i = Some (Some e) -> e = 50.
Proof.
  destruct (emaSeries_seed_recurrence [50; 50; 50; 50; 50] 3
              ltac:(lia) ltac:(cbn; lia)) as (Hseed & _ & _ & Hconst).
  split; [exact Hseed|].
  apply (Hconst 50).
  - repeat constructor.
  - vm_compute. reflexivity.
  - vm_compute. reflexivity.
Defined.

(** On three days at 0.1 the three-day EMA is not 0.1: the sum is
    0.30000000000000004 and its third 0.10000000000000002. *)
Lemma emaSeries_constant_series_rounds :
  emaSeries dime 3 !! 2%nat = Some (Some 0.10000000000000002)
  /\ Forall (fun x => x = 0.1) dime
  /\ ~ (forall e, emaSeries dime 3 !! 2%nat = Some (Some e) -> e = 0.1).
Proof.
  assert (H : emaSeries dime 3 !! 2%nat = Some (Some 0.10000000000000002))
    by (vm_compute; reflexivity).
  split; [exact H|]. split; [repeat constructor|].
  intros Hall. specialize (Hall _ H).
  apply (f_equal (fun x => PrimFloat.eqb x 0.1)) in Hall.
  vm_compute in Hall. discriminate Hall.
Qed.

End EmaDoubleFacts.

(** ** [macdSeries]: where the three lines hold values *)

Section MacdFacts.
Import Num Indicator SignalSpec Analyzer.
Local Open Scope Q_scope.

Lemma macd_length closes : length (macd (macdSeries closes)) = length closes.
Proof.
  unfold macdSeries; cbn [macd]. rewrite length_zip_with, !emaSeries_length. lia.
Qed.

Lemma signal_length closes : length (signal (macdSeries closes)) = length closes.
Proof.
  unfold macdSeries; cbn [signal].
  rewrite !length_zip_with, !emaSeries_length, length_map, length_zip_with,
    !emaSeries_length. lia.
Qed.

(** An in-range read of an EMA series, split at the seed index. *)
Lemma emaSeries_lookup_cases values period i :
  (1 <= period)%nat -> (i < length values)%nat ->
  ((i < period - 1)%nat /\ emaSeries values period !! i = Some None)
  \/ ((period - 1 <= i)%nat /\ exists e, emaSeries values period !! i = Some (Some e)).
Proof.
  intros Hp Hi. destruct (Nat.le_gt_cases (period - 1) i) as [Hge|Hlt].
  - right. split; [assumption|]. rewrite emaSeries_lookup_from by assumption. eauto.
  - left. split; [assumption|]. apply emaSeries_lookup_before; assumption.
Qed.

Lemma macd_lookup_defined closes i :
  (25 <= i)%nat -> (i < length closes)%nat ->
  exists m, macd (macdSeries closes) !! i = Some (Some m).
Proof.
  intros H25 Hi. unfold macdSeries; cbn [macd]. rewrite lookup_zip_with.
  destruct (emaSeries_lookup_cases closes MACD_FAST i) as [[? _]|[_ [f ->]]];
    [unfold MACD_FAST; lia|assumption|unfold MACD_FAST in *; lia|].
  destruct (emaSeries_lookup_cases closes MACD_SLOW i) as [[? _]|[_ [s ->]]];
    [unfold MACD_SLOW; lia|assumption|unfold MACD_SLOW in *; lia|].
  simpl. eauto.
Qed.

Lemma macd_lookup_undefined closes i :
  (i < 25)%nat -> (i < length closes)%nat ->
  macd (macdSeries closes) !! i = Some None.
Proof.
  intros H25 Hi. unfold macdSeries; cbn [macd]. rewrite lookup_zip_with.
  destruct (emaSeries_lookup_cases closes MACD_SLOW i) as [[_ ->]|[? _]];
    [unfold MACD_SLOW; lia|assumption| |unfold MACD_SLOW in *; lia].
  destruct (emaSeries_lookup_cases closes MACD_FAST i) as [[_ ->]|[_ [f ->]]];
    [unfold MACD_FAST; lia|assumption| |]; reflexivity.
Qed.

Lemma macd_lookup_outside closes i :
  (length closes <= i)%nat -> macd (macdSeries closes) !! i = None.
Proof.
  intros Hi. apply lookup_ge_None_2. rewrite macd_length. exact Hi.
Qed.

(** The MACD line holds a value exactly from index [MACD_SLOW - 1]. *)
Lemma macd_defined_iff closes i :
  is_Some (at_ (macd (macdSeries closes)) i)
  <-> (25 <= i)%nat /\ (i < length closes)%nat.
Proof.
  unfold at_. split.
  - intros [m Hm].
    destruct (Nat.le_gt_cases (length closes) i) as [Hout|Hin].
    { rewrite macd_lookup_outside in Hm by assumption. discriminate. }
    split; [|assumption].
    destruct (Nat.le_gt_cases 25 i) as [|Hlt]; [assumption|].
    rewrite macd_lookup_undefined in Hm by assumption. discriminate.
  - intros [H1 H2]. destruct (macd_lookup_defined closes i H1 H2) as [m ->].
    simpl. eauto.
Qed.

(** The signal array of the source holds a value wherever the MACD line
    does: the zeros standing in for the undefined MACD entries have seeded
    the signal EMA at index [MACD_SIGNAL - 1] already. *)
Lemma signal_lookup_defined closes i :
  (25 <= i)%nat -> (i < length closes)%nat ->
  exists s, signal (macdSeries closes) !! i = Some (Some s).
Proof.
  intros H25 Hi.
  destruct (macd_lookup_defined closes i H25 Hi) as [m Hm].
  unfold macdSeries in *; cbn [macd signal] in *.
  rewrite lookup_zip_with, Hm. cbn [mbind option_bind].
  match goal with |- context [emaSeries ?v MACD_SIGNAL !! i] =>
    destruct (emaSeries_lookup_cases v MACD_SIGNAL i) as [[? _]|[_ [s ->]]] end.
  - unfold MACD_SIGNAL; lia.
  - rewrite length_map, length_zip_with, !emaSeries_length. lia.
  - unfold MACD_SIGNAL in *; lia.
  - simpl. eauto.
Qed.

Lemma signal_defined_iff closes i :
  is_Some (at_ (signal (macdSeries closes)) i)
  <-> (25 <= i)%nat /\ (i < length closes)%nat.
Proof.
  unfold at_. split.
  - intros [s Hs]. apply macd_defined_iff. unfold at_.
    unfold macdSeries in *; cbn [macd signal] in *.
    rewrite lookup_zip_with in Hs.
    destruct (zip_with sub_defined _ _ !! i) as [[m|]|]; simpl in *; eauto;
      try discriminate.
    destruct (emaSeries _ _ !! i); discriminate.
  - intros [H1 H2]. destruct (signal_lookup_defined closes i H1 H2) as [s ->].
    simpl. eauto.
Qed.

Lemma hist_defined_iff closes i :
  is_Some (at_ (hist (macdSeries closes)) i)
  <-> (25 <= i)%nat /\ (i < length closes)%nat.
Proof.
  split.
  - intros [h Hh]. apply macd_defined_iff. unfold at_ in *.
    unfold macdSeries in *; cbn [macd hist] in *.
    rewrite lookup_zip_with in Hh.
    destruct (zip_with sub_defined _ _ !! i) as [[m|]|]; simpl in *; eauto;
      try discriminate.
    destruct (zip_with _ _ _ !! i); discriminate.
  - intros [H1 H2]. unfold at_.
    destruct (macd_lookup_defined closes i H1 H2) as [m Hm].
    destruct (signal_lookup_defined closes i H1 H2) as [s Hs].
    change (hist (macdSeries closes))
      with (zip_with sub_defined (macd (macdSeries closes)) (signal (macdSeries closes))).
    rewrite lookup_zip_with, Hm, Hs. simpl. eauto.
Qed.

(** The histogram is MACD minus signal wherever both hold a value. *)
Lemma hist_lookup closes i m s :
  at_ (macd (macdSeries closes)) i = Some m ->
  at_ (signal (macdSeries closes)) i = Some s ->
  at_ (hist (macdSeries closes)) i = Some (m - s).
Proof.
  unfold at_. intros Hm Hs.
  change (hist (macdSeries closes))
    with (zip_with sub_defined (macd (macdSeries closes)) (signal (macdSeries closes))).
  rewrite lookup_zip_with.
  destruct (macd (macdSeries closes) !! i) as [[m'|]|]; try discriminate.
  destruct (signal (macdSeries closes) !! i) as [[s'|]|]; try discriminate.
  simpl in *. congruence.
Qed.

End MacdFacts.

(** ** The signal line of the source against the specified one *)

Section SignalFacts.
Import Num Indicator SignalSpec Analyzer Samples.
Local Open Scope Q_scope.

(** The first value of the source's signal line, on any history reaching
    index 25: one EMA step away from zero, [0.2 * macd[25]]. *)
Lemma signal_first_value closes :
  (26 <= length closes)%nat ->
  exists m s,
    macd (macdSeries closes) !! 25%nat = Some (Some m)
    /\ signal (macdSeries closes) !! 25%nat = Some (Some s)
    /\ s == m * (2 # 10).
Proof.
  intros Hlen.
  destruct (macd_lookup_defined closes 25) as [m Hm]; [lia..|].
  set (macdVals := map toNumber (macd (macdSeries closes))).
  assert (Hzero : forall i, (i < 25)%nat -> macdVals !! i = Some 0).
  { intros i Hi. subst macdVals. rewrite list_lookup_fmap.
    rewrite macd_lookup_undefined by lia. reflexivity. }
  assert (Hm' : macdVals !! 25%nat = Some m).
  { subst macdVals. rewrite list_lookup_fmap, Hm. reflexivity. }
  assert (Hvlen : length macdVals = length closes).
  { subst macdVals. rewrite length_map. apply macd_length. }
  assert (Hseed : Forall (fun x => x == 0) (take 9 macdVals)).
  { apply Forall_lookup. intros i x Hx.
    apply lookup_take_Some in Hx. destruct Hx as [Hx Hi].
    rewrite Hzero in Hx by lia. injection Hx as <-. reflexivity. }
  assert (Hrun : Forall (fun x => x == 0) (take 16 (drop 9 macdVals))).
  { apply Forall_lookup. intros i x Hx.
    apply lookup_take_Some in Hx. destruct Hx as [Hx Hi].
    rewrite lookup_drop, Hzero in Hx by lia. injection Hx as <-. reflexivity. }
  exists m. eexists. split; [exact Hm|]. split.
  - unfold macdSeries in *; cbn [macd signal] in *. fold macdVals.
    rewrite lookup_zip_with, Hm. cbn [mbind option_bind].
    rewrite (emaSeries_lookup_from macdVals MACD_SIGNAL 25)
      by (unfold MACD_SIGNAL; lia).
    reflexivity.
  - unfold MACD_SIGNAL. change (25 + 1 - 9)%nat with (S 16).
    rewrite (take_S_r _ 16 m) by (rewrite lookup_drop; exact Hm').
    rewrite emaFrom_snoc, emaFrom_const with (v := 0); [| |exact Hrun].
    + unfold ofNat. cbn. field.
    + rewrite sumQ_foldr, (foldr_const _ 0) by exact Hseed. unfold ofNat. cbn. field.
Qed.

(** C1 (the source departs from it). On the 37-bar history [1, 2, ..., 37]
    the MACD line is 7 from index 25 on.  The specified signal line is
    undefined before index 33 and is seeded there with the average of the
    first nine defined MACD values, 7.  The source's signal line already
    holds 7/5 at index 25 (one EMA step from a seed of zeros) and holds
    11836867/1953125 at index 33. *)
Theorem macdSeries_signal_seeded_with_zeros :
  let m := macdSeries (ramp 37) in
  Qred <$> at_ (macd m) 24 = None
  /\ Qred <$> at_ (macd m) 25 = Some 7
  /\ Qred <$> at_ (signalOverDefined (macd m) MACD_SIGNAL) 25 = None
  /\ Qred <$> at_ (signal m) 25 = Some (7 # 5)
  /\ Qred <$> at_ (signalOverDefined (macd m) MACD_SIGNAL) 33
       = Some (Qred (mean (take 9 (definedRegion (macd m)))))
  /\ Qred <$> at_ (signalOverDefined (macd m) MACD_SIGNAL) 33 = Some 7
  /\ Qred <$> at_ (signal m) 33 = Some (11836867 # 1953125).
Proof. vm_compute. repeat split; reflexivity. Qed.

(** C2 (the source departs from it). On every history long enough for the
    analyzer (at least 37 bars) the source's signal and histogram arrays
    hold values at the indices 25 to 32, below the threshold
    [MACD_SLOW + MACD_SIGNAL - 2 = 33]. *)
Theorem macdSeries_signal_defined_below_threshold (closes : list Q) (i : nat) :
  (MACD_SLOW + MACD_SIGNAL + 2 <= length closes)%nat ->
  (MACD_SLOW - 1 <= i)%nat -> (i < MACD_SLOW + MACD_SIGNAL - 2)%nat ->
  is_Some (at_ (signal (macdSeries closes)) i)
  /\ is_Some (at_ (hist (macdSeries closes)) i).
Proof.
  unfold MACD_SLOW, MACD_SIGNAL. intros Hlen Hlo Hhi. split.
  - apply signal_defined_iff. lia.
  - apply hist_defined_iff. lia.
Qed.

Lemma macdSeries_signal_defined_below_threshold_witness :
  is_Some (at_ (signal (macdSeries (ramp 37))) 25)
  /\ is_Some (at_ (hist (macdSeries (ramp 37))) 25).
Proof.
  apply (macdSeries_signal_defined_below_threshold (ramp 37) 25);
    vm_compute; lia.
Defined.

End SignalFacts.

(** ** [analyzeTicker] *)

Section AnalyzerFacts.
Import Num Indicator Analyzer Samples.
Local Open Scope Q_scope.

(** Too short a history: [return null]. *)
Lemma analyzeTicker_insufficient sym bars :
  (length bars < MACD_SLOW + MACD_SIGNAL + 2)%nat ->
  analyzeTicker sym (Some bars) = None.
Proof.
  intros H. unfold analyzeTicker. rewrite length_map.
  destruct (Nat.ltb_spec (length bars) (MACD_SLOW + MACD_SIGNAL + 2)); [reflexivity|lia].
Qed.

Lemma analyzeTicker_no_data sym : analyzeTicker sym None = None.
Proof. reflexivity. Qed.












End AnalyzerFacts.

(** ** The alert gate *)

Section AlertGateFacts.
Import Num AlertGate AlertCycle.

(** [diffMinutes >= 15] in milliseconds. *)
Lemma cooldown_elapsed (d : Z) :
  Qle_bool ALERT_COOLDOWN_MINUTES (inject_Z d / 60000) = true <-> (cooldownMs <= d)%Z.
Proof.
  rewrite Qle_bool_iff. unfold Qle, ALERT_COOLDOWN_MINUTES, cooldownMs. simpl. lia.
Qed.

Lemma cooldown_pending (d : Z) :
  Qlt_bool (inject_Z d / 60000) ALERT_COOLDOWN_MINUTES = true <-> (d < cooldownMs)%Z.
Proof.
  rewrite Qlt_bool_iff. unfold Qlt, ALERT_COOLDOWN_MINUTES, cooldownMs. simpl. lia.
Qed.

Lemma resetDailyCounts_lastAlertAt today st :
  lastAlertAt (resetDailyCounts today st) = lastAlertAt st.
Proof. unfold resetDailyCounts. destruct (decide _); reflexivity. Qed.

Lemma resetDailyCounts_same today st :
  today = lastDailyReset st -> resetDailyCounts today st = st.
Proof. intros H. unfold resetDailyCounts. destruct (decide _); [reflexivity|contradiction]. Qed.

Lemma resetDailyCounts_rollover today st :
  today <> lastDailyReset st ->
  resetDailyCounts today st
  = {| lastAlertAt := lastAlertAt st; dailyAlerts := ∅; lastDailyReset := today |}.
Proof. intros H. unfold resetDailyCounts. destruct (decide _); [contradiction|reflexivity]. Qed.

Lemma canAlertWith_state quota cd today now t st :
  snd (canAlertWith quota cd today now t st) = resetDailyCounts today st.
Proof.
  unfold canAlertWith. destruct (_ <=? _)%nat; [reflexivity|].
  destruct (lastAlertAt _ !! t) as [last|]; [|reflexivity].
  destruct (last =? 0)%Z; reflexivity.
Qed.

(** When the gate allows, for any quota. *)
Lemma canAlertWith_allow quota today now t st :
  stampsNonzero st t ->
  fst (canAlertWith quota ALERT_COOLDOWN_MINUTES today now t st) = true
  <-> (countToday (resetDailyCounts today st) t < quota)%nat
      /\ (lastAlertAt st !! t = None
          \/ exists last, lastAlertAt st !! t = Some last /\ (cooldownMs <= now - last)%Z).
Proof.
  intros Hnz. unfold canAlertWith.
  rewrite resetDailyCounts_lastAlertAt.
  destruct (Nat.leb_spec quota (countToday (resetDailyCounts today st) t)) as [Hq|Hq].
  { cbn. split; [discriminate|]. intros [H _]. lia. }
  destruct (lastAlertAt st !! t) as [last|] eqn:Hlast.
  - destruct (Z.eqb_spec last 0) as [->|_].
    { exfalso. exact (Hnz 0%Z Hlast eq_refl). }
    cbn [fst]. rewrite cooldown_elapsed. split.
    + intros H. split; [assumption|]. right. eauto.
    + intros [_ [H|(l & Hl & H)]]; [discriminate|]. congruence.
  - cbn. split; [|reflexivity]. intros _. split; [assumption|]. left. reflexivity.
Qed.

Lemma countToday_recordAlert now t st :
  countToday (recordAlert now t st) t = S (countToday st t).
Proof.
  unfold countToday at 1. unfold recordAlert. cbn.
  rewrite lookup_insert_eq. cbn. lia.
Qed.

Lemma stampsNonzero_recordAlert now t st :
  now <> 0%Z -> stampsNonzero (recordAlert now t st) t.
Proof.
  intros Hnow last. unfold recordAlert. cbn. rewrite lookup_insert_eq. congruence.
Qed.






End AlertGateFacts.

(** ** Day rollover and the cooldown *)

Section RolloverFacts.
Import Num AlertGate AlertCycle.
Import MomentumScanner (Scanner, alertHistory, alertCounter, lastReset,
                        resetDailyCounters, canSendAlert).

Lemma resetDailyCounters_alertHistory today sc :
  alertHistory (resetDailyCounters today sc) = alertHistory sc.
Proof. unfold resetDailyCounters. destruct (decide _); reflexivity. Qed.

Lemma canSendAlert_state today now t sc :
  snd (canSendAlert today now t sc) = resetDailyCounters today sc.
Proof.
  unfold canSendAlert. destruct (_ <=? _)%nat; [reflexivity|].
  destruct (alertHistory _ !! t) as [last|]; [|reflexivity].
  destruct (Qlt_bool _ _); reflexivity.
Qed.

(** C10. The rollover inside [canAlert] and [canSendAlert] empties the
    daily counters and leaves the last-alert timestamps as they were; a
    ticker alerted less than the cooldown ago is therefore denied right
    after the day change although its daily count is zero again. *)
Theorem rollover_keeps_cooldown (today : string) (now : Z) (t : string)
    (st : AlertState) (sc : Scanner) (last : Z) :
  today <> lastDailyReset st -> today <> lastReset sc ->
  lastAlertAt st !! t = Some last -> alertHistory sc !! t = Some last ->
  last <> 0%Z -> (now - last < 15 * 60 * 1000)%Z ->
  (let st' := snd (canAlert today now t st) in
   dailyAlerts st' = ∅ /\ countToday st' t = 0%nat
   /\ lastAlertAt st' = lastAlertAt st
   /\ fst (canAlert today now t st) = false)
  /\ (let sc' := snd (canSendAlert today now t sc) in
      alertCounter sc' = ∅
      /\ alertHistory sc' = alertHistory sc
      /\ fst (canSendAlert today now t sc) = false).
Proof.
  intros Hday Hday' Hlast Hlast' Hnz Hcool. split.
  - unfold canAlert. rewrite canAlertWith_state.
    rewrite resetDailyCounts_rollover by assumption. cbn [dailyAlerts lastAlertAt].
    split; [reflexivity|]. split; [unfold countToday; cbn; rewrite lookup_empty; reflexivity|].
    split; [reflexivity|].
    destruct (fst (canAlertWith _ _ today now t st)) eqn:E; [|reflexivity].
    apply canAlertWith_allow in E.
    + destruct E as [_ [E|(l & Hl & E)]]; [congruence|].
      unfold cooldownMs in E. assert (l = last) by congruence. subst l. lia.
    + intros l Hl. congruence.
  - rewrite canSendAlert_state. unfold canSendAlert, resetDailyCounters.
    destruct (decide (today = lastReset sc)); [contradiction|].
    cbn [alertCounter alertHistory]. split; [reflexivity|]. split; [reflexivity|].
    rewrite lookup_empty. cbn. rewrite Hlast'.
    destruct (Qlt_bool (inject_Z (now - last) / 60000) MomentumScanner.ALERT_COOLDOWN_MINUTES) eqn:E;
      [reflexivity|].
    exfalso. assert (H: Qlt_bool (inject_Z (now - last) / 60000) MomentumScanner.ALERT_COOLDOWN_MINUTES = true).
    { apply cooldown_pending. unfold cooldownMs. lia. }
    congruence.
Qed.

Lemma rollover_keeps_cooldown_witness :
  fst (canAlert "Mon Nov 02 2026" 1793577700000 "AAPL"
         (AlertGate.recordAlert 1793577500000 "AAPL" (initial "Sun Nov 01 2026"))) = false
  /\ fst (canSendAlert "Mon Nov 02 2026" 1793577700000 "AAPL"
            (MomentumScanner.recordAlert 1793577500000 "AAPL"
               {| alertHistory := ∅; alertCounter := ∅;
                  lastReset := "Sun Nov 01 2026" |})) = false.
Proof.
  pose proof (rollover_keeps_cooldown "Mon Nov 02 2026" 1793577700000 "AAPL"
                (AlertGate.recordAlert 1793577500000 "AAPL" (initial "Sun Nov 01 2026"))
                (MomentumScanner.recordAlert 1793577500000 "AAPL"
                   {| alertHistory := ∅; alertCounter := ∅;
                      lastReset := "Sun Nov 01 2026" |})
                1793577500000) as H.
  assert (Hday : "Mon Nov 02 2026" <> "Sun Nov 01 2026") by discriminate.
  assert (Hpast : 1793577500000%Z <> 0%Z) by lia.
  assert (Hcool : (1793577700000 - 1793577500000 < 15 * 60 * 1000)%Z) by lia.
  specialize (H Hday Hday (lookup_insert_eq _ _ _) (lookup_insert_eq _ _ _) Hpast Hcool).
  destruct H as [(_ & _ & _ & H1) (_ & _ & H2)]. split; assumption.
Defined.

(** The cooldown boundary: one millisecond short is denied, the full
    cooldown is allowed. *)
Example canAlert_cooldown_boundary :
  let st := AlertGate.recordAlert 1793500000000 "AAPL" (initial "Sun Nov 01 2026") in
  fst (canAlert "Sun Nov 01 2026" (1793500000000 + 900000 - 1) "AAPL" st) = false
  /\ fst (canAlert "Sun Nov 01 2026" (1793500000000 + 900000) "AAPL" st) = true.
Proof. vm_compute. split; reflexivity. Qed.

End RolloverFacts.

(** ** The scan pass: which symbols are notified *)

Section ScanFacts.
Import Num Indicator Analyzer AlertGate Scan Samples.
Local Open Scope Q_scope.





End ScanFacts.

Section ScanWitness.
Import Num Indicator Analyzer AlertGate Scan Samples.


End ScanWitness.

(** ** Who may start a pass *)

Section SchedulerFacts.
Import Scheduler.

Lemma beginPass_frame W l :
  scanning (beginPass W l) = scanning l
  /\ timers (beginPass W l) = timers l
  /\ starting (beginPass W l) = starting l.
Proof. destruct W; cbn; auto. Qed.

Lemma beginPass_inFlight W l :
  W <> [] -> inFlight (beginPass W l) = inFlight l ++ [W].
Proof. destruct W; [contradiction|reflexivity]. Qed.

Lemma step_startedOnce W l e l' :
  startedOnce l -> step W l e = Some l' -> startedOnce l'.
Proof.
  unfold startedOnce. intros [H1 H2] Hs. destruct e; cbn in Hs.
  - destruct (scanning l) eqn:E.
    + injection Hs as <-. rewrite E. split; [assumption|discriminate].
    + injection Hs as <-. cbn. specialize (H2 eq_refl). split; [lia|discriminate].
  - destruct (starting l) as [|n] eqn:E; [discriminate|]. injection Hs as <-.
    destruct (beginPass_frame W
                {| scanning := scanning l; timers := S (timers l);
                   starting := n; inFlight := inFlight l |}) as (-> & -> & ->).
    cbn. split; [lia|]. intros Hf. specialize (H2 Hf). lia.
  - destruct (timers l) eqn:E; [discriminate|]. injection Hs as <-.
    destruct (beginPass_frame W l) as (-> & -> & ->). rewrite E. auto.
  - injection Hs as <-. destruct (beginPass_frame W l) as (-> & -> & ->). auto.
  - destruct (inFlight l !! j) as [[|t [|t' rest]]|]; try discriminate;
      injection Hs as <-; cbn; auto.
Qed.

Lemma run_startedOnce W es : forall l l',
  startedOnce l -> run W l es = Some l' -> startedOnce l'.
Proof.
  induction es as [|e es IH]; intros l l' Hl Hr; cbn in Hr.
  - injection Hr as <-. exact Hl.
  - destruct (step W l e) as [l1|] eqn:E; [|discriminate].
    eapply IH; [|exact Hr]. eapply step_startedOnce; eassumption.
Qed.

(** C3 as stated fails: once the initial pass has begun, a manual
    scan-now begins a second pass next to it. *)
Lemma scan_passes_overlap : ~ atMostOnePass ["AAPL"; "TSLA"; "NVDA"]%string.
Proof.
  intros H. specialize (H [Ready; ChannelFetched; ScanNow] _ eq_refl).
  cbn in H. lia.
Qed.

(** C3, amended. The [scanning] flag guards [startLoop] only: a repeated
    [startLoop] is a no-op while the flag is set, so at most one periodic
    timer is ever installed.  The flag is not consulted when a pass begins:
    with a non-empty watchlist a manual scan-now always begins a further
    pass, and so does every tick of the installed timer, whatever passes
    are in flight. *)
Theorem scanning_flag_guards_startLoop_only
    (WATCHLIST : list string) (es : list event) (l : Loop) :
  WATCHLIST <> [] -> run WATCHLIST initial es = Some l ->
  (timers l <= 1)%nat
  /\ (scanning l = true -> step WATCHLIST l Ready = Some l)
  /\ (exists l', step WATCHLIST l ScanNow = Some l'
                 /\ inFlight l' = inFlight l ++ [WATCHLIST])
  /\ (timers l = 1%nat ->
      exists l', step WATCHLIST l Tick = Some l'
                 /\ inFlight l' = inFlight l ++ [WATCHLIST]).
Proof.
  intros HW Hrun.
  assert (Hinv: startedOnce l).
  { eapply run_startedOnce; [|exact Hrun]. split; cbn; [lia|reflexivity]. }
  destruct Hinv as [H1 _]. split; [lia|]. split; [|split].
  - intros Hs. cbn. rewrite Hs. reflexivity.
  - eexists. split; [reflexivity|]. apply beginPass_inFlight, HW.
  - intros Ht. cbn. rewrite Ht. eexists. split; [reflexivity|].
    apply beginPass_inFlight, HW.
Qed.

Lemma scanning_flag_guards_startLoop_only_witness :
  exists l l', run ["AAPL"; "TSLA"; "NVDA"]%string initial [Ready; ChannelFetched] = Some l
    /\ step ["AAPL"; "TSLA"; "NVDA"]%string l Tick = Some l'
    /\ inFlight l' = inFlight l ++ [["AAPL"; "TSLA"; "NVDA"]%string]
    /\ length (inFlight l') = 2%nat.
Proof.
  eexists.
  destruct (scanning_flag_guards_startLoop_only
              ["AAPL"; "TSLA"; "NVDA"]%string [Ready; ChannelFetched] _
              ltac:(discriminate) eq_refl) as (_ & _ & _ & Htick).
  destruct (Htick eq_refl) as (l' & Hstep & Hfl).
  exists l'. split; [reflexivity|]. split; [exact Hstep|]. split; [exact Hfl|].
  rewrite Hfl. reflexivity.
Defined.

End SchedulerFacts.

(** ** The backoff limiter *)

Section BackoffFacts.
Import Backoff.
Local Open Scope Q_scope.

Lemma markRateLimited_delay r :
  backoffDelay (markRateLimited r) = Qmin (backoffDelay r * (15 # 10)) backoffCap.
Proof. reflexivity. Qed.

(** A throttle report never lowers a delay that is within the cap. *)
Lemma markRateLimited_le r :
  0 <= backoffDelay r -> backoffDelay r <= backoffCap ->
  backoffDelay r <= backoffDelay (markRateLimited r).
Proof.
  intros H0 Hcap. rewrite markRateLimited_delay. apply Q.min_glb; [lra|exact Hcap].
Qed.

Lemma markRateLimited_cap r : backoffDelay (markRateLimited r) <= backoffCap.
Proof. rewrite markRateLimited_delay. apply Q.le_min_r. Qed.

Lemma markRateLimited_lt r :
  0 < backoffDelay r -> backoffDelay r < backoffCap ->
  backoffDelay r < backoffDelay (markRateLimited r).
Proof.
  intros H0 Hcap. rewrite markRateLimited_delay. apply Q.min_glb_lt; [lra|exact Hcap].
Qed.

Lemma markRateLimited_range r : delayInRange r -> delayInRange (markRateLimited r).
Proof.
  unfold delayInRange, initialBackoff. intros [Hlo Hhi].
  split; [|apply markRateLimited_cap].
  eapply Qle_trans; [exact Hlo|]. apply markRateLimited_le; [lra|exact Hhi].
Qed.

(** The stretches of a [wait()] change [lastRequest] and [rateLimited] only. *)
Lemma waitPace_frame t1 t2 r :
  backoffDelay (snd (waitPace t1 t2 r)) = backoffDelay r
  /\ minDelay (snd (waitPace t1 t2 r)) = minDelay r
  /\ rateLimited (snd (waitPace t1 t2 r)) = rateLimited r.
Proof.
  unfold waitPace. destruct (lastRequest r) as [t|]; [|auto].
  destruct (t =? 0)%Z; [auto|]. destruct (t1 - t <? minDelay r)%Z; auto.
Qed.

Lemma waitCall_frame t1 t2 r :
  backoffDelay (snd (waitCall t1 t2 r)) = backoffDelay r
  /\ minDelay (snd (waitCall t1 t2 r)) = minDelay r
  /\ rateLimited (snd (waitCall t1 t2 r)) = rateLimited r.
Proof.
  pose proof (waitPace_frame t1 t2 r) as (H1 & H2 & H3).
  unfold waitCall. destruct (rateLimited r) eqn:E; cbn [snd];
    repeat split; first [assumption|reflexivity].
Qed.

Lemma waitResume_frame at_ t1 t2 r :
  backoffDelay (snd (waitResume at_ t1 t2 r)) = backoffDelay r
  /\ minDelay (snd (waitResume at_ t1 t2 r)) = minDelay r.
Proof.
  destruct at_; cbn [waitResume snd]; [|auto].
  destruct (waitPace_frame t1 t2 (clearRateLimited r)) as (H1 & H2 & _).
  rewrite H1, H2. auto.
Qed.

(** Only a report changes the delay upwards, only a reset downwards. *)
Lemma turn_delay r t :
  t <> MarkRateLimited -> t <> Reset -> backoffDelay (turn r t) = backoffDelay r.
Proof.
  intros Hm Hr. destruct t; cbn [turn]; try congruence.
  - apply waitCall_frame.
  - apply waitResume_frame.
Qed.

Lemma turn_minDelay r t : minDelay (turn r t) = minDelay r.
Proof.
  destruct t; cbn [turn]; [apply waitCall_frame|apply waitResume_frame| |]; reflexivity.
Qed.

Lemma turns_minDelay ts : forall r, minDelay (turns r ts) = minDelay r.
Proof.
  unfold turns. induction ts as [|t ts IH]; intros r; cbn; [reflexivity|].
  rewrite IH. apply turn_minDelay.
Qed.

Lemma turn_delayInRange r t : delayInRange r -> delayInRange (turn r t).
Proof.
  intros Hr. destruct t; cbn [turn].
  - unfold delayInRange. rewrite (proj1 (waitCall_frame _ _ _)). exact Hr.
  - unfold delayInRange. rewrite (proj1 (waitResume_frame _ _ _ _)). exact Hr.
  - apply markRateLimited_range, Hr.
  - unfold delayInRange, initialBackoff, backoffCap. cbn. split; lra.
Qed.


Lemma create_delayInRange : delayInRange create.
Proof. unfold delayInRange, create, initialBackoff, backoffCap. cbn. split; lra. Qed.

(** Without a [reset], the delay never goes down. *)
Lemma turns_monotone ts : forall r,
  delayInRange r -> forallb (fun t => negb (isReset t)) ts = true ->
  backoffDelay r <= backoffDelay (turns r ts).
Proof.
  unfold turns. induction ts as [|t ts IH]; intros r Hr Hts; cbn; [lra|].
  cbn in Hts. apply andb_true_iff in Hts. destruct Hts as [Ht Hts].
  eapply Qle_trans; [|apply IH; [apply turn_delayInRange, Hr|exact Hts]].
  destruct t; cbn [turn]; [| | |discriminate].
  - rewrite (proj1 (waitCall_frame _ _ _)). lra.
  - rewrite (proj1 (waitResume_frame _ _ _ _)). lra.
  - destruct Hr as [Hlo Hhi]. unfold initialBackoff in Hlo.
    apply markRateLimited_le; [lra|exact Hhi].
Qed.

(** The flag stays set until a [wait()] comes back from its backoff sleep. *)
Lemma turn_keeps_flag r t :
  clearsFlag t = false -> rateLimited r = true -> rateLimited (turn r t) = true.
Proof.
  intros Hc Hf. destruct t as [t1 t2|at_ t1 t2| |]; cbn [turn].
  - rewrite (proj2 (proj2 (waitCall_frame t1 t2 r))). exact Hf.
  - destruct at_; [discriminate|]. exact Hf.
  - reflexivity.
  - exact Hf.
Qed.

Lemma turns_keep_flag ts : forall r,
  forallb (fun t => negb (clearsFlag t)) ts = true ->
  rateLimited r = true -> rateLimited (turns r ts) = true.
Proof.
  unfold turns. induction ts as [|t ts IH]; intros r Hts Hf; cbn; [exact Hf|].
  cbn in Hts. apply andb_true_iff in Hts. destruct Hts as [Ht Hts].
  apply IH; [exact Hts|]. apply turn_keeps_flag; [|exact Hf].
  destruct (clearsFlag t); [discriminate|reflexivity].
Qed.


(** C8. For a limiter in any state it can reach: a throttle report sets the
    delay to [min(1.5 * previous, 30000)], which is never below the previous
    delay, never above the cap, and strictly above the previous delay as long
    as that was below the cap.  A [wait()] called while the flag of the
    report is still set asks the timer for the stored delay first, which is
    at least the delay before the report; the flag stays set through every
    turn of the event loop except the return of a [wait()] from its backoff
    sleep (and the delay does not go down without a [reset()]).  No stretch
    of a [wait()] changes the delay; [reset] sets it to 5000; and after a
    report no sequence of turns without a [reset] brings it back to 5000. *)
Theorem backoff_grows_until_cap (r : RateLimiter) :
  delayInRange r ->
  let r' := markRateLimited r in
  backoffDelay r' == Qmin ((15 # 10) * backoffDelay r) 30000
  /\ backoffDelay r <= backoffDelay r'
  /\ backoffDelay r' <= 30000
  /\ (backoffDelay r < 30000 -> backoffDelay r < backoffDelay r')
  /\ (forall (between : list Turn) (t1 t2 : Z),
        forallb (fun t => negb (clearsFlag t) && negb (isReset t)) between = true ->
        fst (waitCall t1 t2 (turns r' between))
        = Sleep (backoffDelay (turns r' between)) InBackoff
        /\ backoffDelay r' <= backoffDelay (turns r' between))
  /\ (forall t, t <> MarkRateLimited -> t <> Reset ->
        backoffDelay (turn r t) = backoffDelay r)
  /\ backoffDelay (reset r) = 5000
  /\ (forall ts, forallb (fun t => negb (isReset t)) ts = true ->
        5000 < backoffDelay (turns r' ts)).
Proof.
  intros Hr r'. subst r'. pose proof Hr as [Hlo Hhi].
  unfold initialBackoff, backoffCap in Hlo, Hhi.
  assert (Hle : backoffDelay r <= backoffDelay (markRateLimited r))
    by (apply markRateLimited_le; [lra|exact Hhi]).
  assert (Hlt : 5000 < backoffDelay (markRateLimited r)).
  { rewrite markRateLimited_delay. apply Q.min_glb_lt; unfold backoffCap; lra. }
  split.
  { rewrite markRateLimited_delay. unfold backoffCap.
    apply Q.min_compat; [ring|reflexivity]. }
  split; [exact Hle|].
  split; [apply markRateLimited_cap|].
  split; [intros Hb; apply markRateLimited_lt; [lra|exact Hb]|].
  split.
  { intros between t1 t2 Hb.
    assert (Hc : forallb (fun t => negb (clearsFlag t)) between = true
                 /\ forallb (fun t => negb (isReset t)) between = true).
    { clear -Hb. induction between as [|t ts IH]; [auto|].
      cbn in Hb. apply andb_true_iff in Hb as [Ht Hts].
      apply andb_true_iff in Ht as [Ht1 Ht2]. destruct (IH Hts) as [IH1 IH2].
      cbn. rewrite Ht1, Ht2, IH1, IH2. auto. }
    destruct Hc as [Hc1 Hc2]. split.
    - unfold waitCall.
      rewrite (turns_keep_flag between (markRateLimited r) Hc1 eq_refl). reflexivity.
    - apply turns_monotone; [apply markRateLimited_range, Hr|exact Hc2]. }
  split; [intros t Hm Hreset; apply turn_delay; assumption|].
  split; [reflexivity|].
  intros ts Hts.
  eapply Qlt_le_trans; [exact Hlt|].
  apply turns_monotone; [apply markRateLimited_range, Hr|exact Hts].
Qed.

Lemma backoff_grows_until_cap_witness :
  backoffDelay create < backoffDelay (markRateLimited create)
  /\ backoffDelay (markRateLimited create) == 7500
  /\ fst (waitCall (LostReport.start + 2300) (LostReport.start + 2300)
            (turns (markRateLimited create)
               [WaitCall (LostReport.start + 1000) (LostReport.start + 1000)]))
     = Sleep (backoffDelay
                (turns (markRateLimited create)
                   [WaitCall (LostReport.start + 1000) (LostReport.start + 1000)]))
             InBackoff.
Proof.
  destruct (backoff_grows_until_cap create create_delayInRange)
    as (Heq & _ & _ & Hlt & Hwait & _).
  split; [|split].
  - apply Hlt. reflexivity.
  - rewrite Heq. reflexivity.
  - apply (proj1 (Hwait [WaitCall (LostReport.start + 1000) (LostReport.start + 1000)]
                    (LostReport.start + 2300)%Z (LostReport.start + 2300)%Z eq_refl)).
Defined.

(** A throttle report that is lost.  While the first scan's [wait()] is in
    its backoff sleep for the first report (7500 ms), the second scan
    reports a throttle as well: the delay grows to 11250 and the flag is set
    again.  Then the sleeping [wait()] comes back, clears the flag and
    returns.  The next [wait()], called by the reporting scan after its
    2000 ms pause, finds no flag: it sleeps 300 ms of pacing only, less than
    the delay even before the report. *)
Lemma throttle_report_lost :
  rateLimited LostReport.sleeping = true
  /\ backoffDelay LostReport.sleeping == 7500
  /\ backoffDelay LostReport.afterwards == 11250
  /\ rateLimited LostReport.afterwards = false
  /\ fst (wait (LostReport.start + 10500) (LostReport.start + 10800) LostReport.afterwards)
     = [300]
  /\ ~ (backoffDelay LostReport.sleeping
        <= suspended (fst (wait (LostReport.start + 10500) (LostReport.start + 10800)
                             LostReport.afterwards))).
Proof.
  split; [reflexivity|]. split; [reflexivity|]. split; [reflexivity|].
  split; [reflexivity|]. split; [reflexivity|].
  vm_compute. intros H. apply H. reflexivity.
Qed.

(** Six throttle reports in a row: the delay reaches the cap at the fifth and
    stays there. *)
Example backoff_sequence :
  map (fun n => Qred (backoffDelay (Samples.throttled n))) (seq 0 7)
  = [5000; 7500; 11250; 16875; 50625 # 2; 30000; 30000].
Proof. vm_compute. reflexivity. Qed.

End BackoffFacts.

(** ** The momentum predicate *)

Section MomentumFacts.
Import Num MomentumScanner.
Local Open Scope Q_scope.

(** C9. [checkMomentum] on a sample depends on the sample alone (it is a
    function of it, with no state to read or write) and reports the reason
    of the first failing check in the order price too high (above 1000),
    price too low (below 0.01), volume too low (below 500000), move too small
    (absolute change below 5), relative volume too low (below 1.3); it
    accepts exactly when no check fails. *)
Theorem checkMomentum_first_failing_check (d : StockData) :
  let high := price d > 1000 in
  let low := price d < 1 # 100 in
  let thin := volume d < 500000 in
  let flat := Qabs (change_pct d) < 5 in
  let quiet := rel_volume d < 13 # 10 in
  (checkMomentum (Some d) = (false, "Price too high"%string) <-> high)
  /\ (checkMomentum (Some d) = (false, "Price too low"%string) <-> ~ high /\ low)
  /\ (checkMomentum (Some d) = (false, "Volume too low"%string)
      <-> ~ high /\ ~ low /\ thin)
  /\ (checkMomentum (Some d) = (false, "Move too small"%string)
      <-> ~ high /\ ~ low /\ ~ thin /\ flat)
  /\ (checkMomentum (Some d) = (false, "RelVol too low"%string)
      <-> ~ high /\ ~ low /\ ~ thin /\ ~ flat /\ quiet)
  /\ (fst (checkMomentum (Some d)) = true
      <-> ~ high /\ ~ low /\ ~ thin /\ ~ flat /\ ~ quiet)
  /\ checkMomentum (Some d)
     = match firstFailing checks d with
       | Some reason => (false, reason)
       | None => (true, "Momentum detected!"%string)
       end.
Proof.
  intros high low thin flat quiet. subst high low thin flat quiet.
  unfold checkMomentum, checks, firstFailing, MAX_PRICE, MIN_PRICE, MIN_VOLUME,
    MIN_PRICE_CHANGE, MIN_REL_VOLUME.
  rewrite <- !Qlt_bool_iff.
  destruct (Qlt_bool 1000 (price d)), (Qlt_bool (price d) (1 # 100)),
           (Qlt_bool (volume d) 500000), (Qlt_bool (Qabs (change_pct d)) 5),
           (Qlt_bool (rel_volume d) (13 # 10)); cbn [fst];
    repeat split; try discriminate; try reflexivity; try tauto;
    intros; intuition discriminate.
Qed.

Lemma checkMomentum_first_failing_check_witness :
  checkMomentum (Some Samples.pricey) = (false, "Price too high"%string).
Proof.
  apply (proj2 (proj1 (checkMomentum_first_failing_check Samples.pricey))).
  reflexivity.
Defined.

Example checkMomentum_accepts :
  checkMomentum (Some {| ticker := "SOFI"; price := 12; change_pct := -(13 # 2);
                         volume := 2000000; rel_volume := 21 # 10;
                         timestamp := 1793500000000 |})
  = (true, "Momentum detected!"%string).
Proof. reflexivity. Qed.

End MomentumFacts.

(** * Further properties of the source *)

(** ** [sma] and [ema] *)

Section TechnicalFacts.
Import Num Indicator Technical.
Local Open Scope Q_scope.

Lemma ema_fold_Some k xs : forall s,
  fold_left (fun (emaPrev : option Q) (x : Q) =>
               Some (x * k + toNumber emaPrev * (1 - k))) xs (Some s)
  = Some (emaFrom k s xs).
Proof.
  induction xs as [|x xs IH]; intros s; cbn; [reflexivity|]. apply IH.
Qed.

Lemma sma_exact values period :
  length values = period -> sma values period = Some (sumQ values / ofNat period).
Proof.
  intros H. unfold sma. rewrite H, Nat.ltb_irrefl, Nat.sub_diag. reflexivity.
Qed.

(** The value [ema] returns on a series at least [period] long. *)
Lemma ema_value (values : list Q) (period : nat) :
  (period <= length values)%nat ->
  ema values period
  = Some (emaFrom (2 / (ofNat period + 1)) (sumQ (take period values) / ofNat period)
                  (drop period values)).
Proof.
  intros Hlen. unfold ema.
  destruct (Nat.ltb_spec (length values) period) as [|_]; [lia|].
  rewrite sma_exact by (rewrite length_take; lia).
  apply ema_fold_Some.
Qed.

Lemma ema_short (values : list Q) (period : nat) :
  (length values < period)%nat -> ema values period = None.
Proof.
  intros H. unfold ema.
  destruct (Nat.ltb_spec (length values) period); [reflexivity|lia].
Qed.

(** [ema] returns the last entry of [emaSeries]: [null] on a series shorter
    than the period, the final running value otherwise. *)
Theorem ema_last_of_emaSeries (values : list Q) (period : nat) :
  (1 <= period)%nat ->
  ema values period = mjoin (last (emaSeries values period)).
Proof.
  intros Hp. rewrite last_lookup, emaSeries_length.
  destruct (Nat.le_gt_cases period (length values)) as [Hlen|Hshort].
  - rewrite ema_value by exact Hlen.
    rewrite emaSeries_lookup_from by lia. cbn [mjoin option_join]. do 2 f_equal.
    rewrite take_ge; [reflexivity|]. rewrite length_drop. lia.
  - rewrite ema_short by exact Hshort.
    destruct (length values) as [|n] eqn:E.
    + apply length_zero_iff_nil in E. subst values.
      rewrite emaSeries_short by (cbn; lia). reflexivity.
    + cbn [pred]. rewrite emaSeries_lookup_before by lia. reflexivity.
Qed.

Lemma ema_last_of_emaSeries_witness :
  ema [3; 3; 3; 6] 3 = mjoin (last (emaSeries [3; 3; 3; 6] 3)).
Proof. apply ema_last_of_emaSeries. lia. Defined.

(** [sma] looks at the last [period] values only, and is [null] exactly on a
    series shorter than the period. *)
Theorem sma_last_window (older window : list Q) (period : nat) :
  (1 <= period)%nat -> length window = period ->
  sma (older ++ window) period = sma window period
  /\ is_Some (sma window period)
  /\ (forall short, (length short < period)%nat -> sma short period = None).
Proof.
  intros _ Hw. split; [|split].
  - rewrite (sma_exact window) by exact Hw. unfold sma.
    rewrite length_app, Hw.
    destruct (Nat.ltb_spec (length older + period) period) as [|_]; [lia|].
    replace (length older + period - period)%nat with (length older) by lia.
    rewrite drop_app_length. reflexivity.
  - rewrite sma_exact by exact Hw. eauto.
  - intros short Hs. unfold sma.
    destruct (Nat.ltb_spec (length short) period); [reflexivity|lia].
Qed.

Lemma sma_last_window_witness :
  sma ([10; 20] ++ [1; 2; 3]) 3 = sma [1; 2; 3] 3.
Proof. apply (sma_last_window [10; 20] [1; 2; 3] 3); [lia|reflexivity]. Defined.

End TechnicalFacts.

(** ** Local extrema and divergence *)

Section DivergenceFacts.
Import Num Indicator Divergence.
Local Open Scope Q_scope.

(** The inner loop, flag by flag. *)
Lemma windowStep_fold_fst values i js : forall flags,
  fst (fold_left (windowStep values i) js flags) = true
  <-> fst flags = true
      /\ forall j c vj, j ∈ js -> j <> i ->
           values !! i = Some c -> values !! j = Some vj -> vj < c.
Proof.
  induction js as [|j js IH]; intros flags; cbn [fold_left].
  - split; [intros H; split; [exact H|]|intros [H _]; exact H].
    intros j c vj Hin. apply elem_of_nil in Hin. contradiction.
  - rewrite IH. unfold windowStep at 1.
    destruct (Nat.eqb_spec j i) as [->|Hne].
    + split; intros [Hf Hall]; (split; [exact Hf|]); intros j' c vj Hin Hj' Hc Hv.
      * apply elem_of_cons in Hin. destruct Hin as [->|Hin]; [contradiction|]. eauto.
      * apply (Hall j'); [apply elem_of_cons; right|..]; first [assumption|reflexivity].
    + destruct (values !! i) as [c|] eqn:Ec; [destruct (values !! j) as [vj|] eqn:Ej|].
      * destruct (Qle_bool c vj) eqn:Ecmp; cbn [fst].
        -- split; [intros [H _]; discriminate|]. intros [_ Hall]. exfalso.
           apply Qle_bool_iff in Ecmp.
           assert (vj < c).
           { apply (Hall j c vj); [apply elem_of_cons; left; reflexivity|..]; first [assumption|reflexivity]. }
           apply (Qlt_not_le _ _ H Ecmp).
        -- split; intros [Hf Hall]; (split; [exact Hf|]); intros j' c' vj' Hin Hj' Hc Hv.
           ++ apply elem_of_cons in Hin. destruct Hin as [->|Hin]; [|eauto].
              assert (c' = c) by congruence. assert (vj' = vj) by congruence. subst.
              apply Qnot_le_lt. intros Hle. apply Qle_bool_iff in Hle. congruence.
           ++ apply (Hall j'); [apply elem_of_cons; right|..]; first [assumption|reflexivity].
      * split; intros [Hf Hall]; (split; [exact Hf|]); intros j' c' vj' Hin Hj' Hc Hv.
        -- apply elem_of_cons in Hin. destruct Hin as [->|Hin]; [congruence|eauto].
        -- apply (Hall j'); [apply elem_of_cons; right|..]; first [assumption|reflexivity].
      * split; intros [Hf Hall]; (split; [exact Hf|]); intros j' c' vj' Hin Hj' Hc Hv;
          discriminate.
Qed.

Lemma windowStep_fold_snd values i js : forall flags,
  snd (fold_left (windowStep values i) js flags) = true
  <-> snd flags = true
      /\ forall j c vj, j ∈ js -> j <> i ->
           values !! i = Some c -> values !! j = Some vj -> c < vj.
Proof.
  induction js as [|j js IH]; intros flags; cbn [fold_left].
  - split; [intros H; split; [exact H|]|intros [H _]; exact H].
    intros j c vj Hin. apply elem_of_nil in Hin. contradiction.
  - rewrite IH. unfold windowStep at 1.
    destruct (Nat.eqb_spec j i) as [->|Hne].
    + split; intros [Hf Hall]; (split; [exact Hf|]); intros j' c vj Hin Hj' Hc Hv.
      * apply elem_of_cons in Hin. destruct Hin as [->|Hin]; [contradiction|]. eauto.
      * apply (Hall j'); [apply elem_of_cons; right|..]; first [assumption|reflexivity].
    + destruct (values !! i) as [c|] eqn:Ec; [destruct (values !! j) as [vj|] eqn:Ej|].
      * destruct (Qle_bool vj c) eqn:Ecmp; cbn [snd].
        -- split; [intros [H _]; discriminate|]. intros [_ Hall]. exfalso.
           apply Qle_bool_iff in Ecmp.
           assert (c < vj).
           { apply (Hall j c vj); [apply elem_of_cons; left; reflexivity|..]; first [assumption|reflexivity]. }
           apply (Qlt_not_le _ _ H Ecmp).
        -- split; intros [Hf Hall]; (split; [exact Hf|]); intros j' c' vj' Hin Hj' Hc Hv.
           ++ apply elem_of_cons in Hin. destruct Hin as [->|Hin]; [|eauto].
              assert (c' = c) by congruence. assert (vj' = vj) by congruence. subst.
              apply Qnot_le_lt. intros Hle. apply Qle_bool_iff in Hle. congruence.
           ++ apply (Hall j'); [apply elem_of_cons; right|..]; first [assumption|reflexivity].
      * split; intros [Hf Hall]; (split; [exact Hf|]); intros j' c' vj' Hin Hj' Hc Hv.
        -- apply elem_of_cons in Hin. destruct Hin as [->|Hin]; [congruence|eauto].
        -- apply (Hall j'); [apply elem_of_cons; right|..]; first [assumption|reflexivity].
      * split; intros [Hf Hall]; (split; [exact Hf|]); intros j' c' vj' Hin Hj' Hc Hv;
          discriminate.
Qed.

Lemma center_range (values : list Q) lookback i :
  i ∈ seq lookback (length values - lookback - lookback)
  <-> (lookback <= i)%nat /\ (i + lookback < length values)%nat.
Proof. rewrite elem_of_seq. lia. Qed.

Lemma window_range lookback i j :
  (lookback <= i)%nat ->
  j ∈ seq (i - lookback) (lookback + lookback + 1)
  <-> (i - lookback <= j)%nat /\ (j <= i + lookback)%nat.
Proof. intros H. rewrite elem_of_seq. lia. Qed.

Lemma highs_spec values lookback i :
  i ∈ fst (findLocalExtrema values lookback) <-> localHigh values lookback i.
Proof.
  unfold findLocalExtrema, localHigh. cbn [fst].
  rewrite list_elem_of_filter, center_range. unfold windowFlags.
  rewrite windowStep_fold_fst. cbn [fst]. split.
  - intros [[_ Hall] [H1 H2]]. split; [exact H1|]. split; [exact H2|].
    destruct (lookup_lt_is_Some_2 values i) as [c Hc]; [lia|].
    exists c. split; [exact Hc|]. intros j vj Hlo Hhi Hne Hv.
    apply (Hall j c vj); try assumption. apply window_range; [exact H1|lia].
  - intros (H1 & H2 & c & Hc & Hall). split; [|split; assumption].
    split; [reflexivity|]. intros j c' vj Hin Hne Hc' Hv.
    apply window_range in Hin; [|exact H1].
    assert (c' = c) by congruence. subst c'. apply (Hall j vj); tauto.
Qed.

Lemma lows_spec values lookback i :
  i ∈ snd (findLocalExtrema values lookback) <-> localLow values lookback i.
Proof.
  unfold findLocalExtrema, localLow. cbn [snd].
  rewrite list_elem_of_filter, center_range. unfold windowFlags.
  rewrite windowStep_fold_snd. cbn [snd]. split.
  - intros [[_ Hall] [H1 H2]]. split; [exact H1|]. split; [exact H2|].
    destruct (lookup_lt_is_Some_2 values i) as [c Hc]; [lia|].
    exists c. split; [exact Hc|]. intros j vj Hlo Hhi Hne Hv.
    apply (Hall j c vj); try assumption. apply window_range; [exact H1|lia].
  - intros (H1 & H2 & c & Hc & Hall). split; [|split; assumption].
    split; [reflexivity|]. intros j c' vj Hin Hne Hc' Hv.
    apply window_range in Hin; [|exact H1].
    assert (c' = c) by congruence. subst c'. apply (Hall j vj); tauto.
Qed.

(** The indices [findLocalExtrema] returns as highs are exactly the interior
    indices whose value is strictly above every other value within
    [lookback] on both sides; the lows are exactly those strictly below. *)
Theorem findLocalExtrema_exact (values : list Q) (lookback i : nat) :
  (i ∈ fst (findLocalExtrema values lookback) <-> localHigh values lookback i)
  /\ (i ∈ snd (findLocalExtrema values lookback) <-> localLow values lookback i).
Proof. split; [apply highs_spec|apply lows_spec]. Qed.

Lemma filter_seq_sorted (P : nat -> Prop) `{!forall x, Decision (P x)} n : forall a,
  StronglySorted lt (filter P (seq a n)).
Proof.
  induction n as [|n IH]; intros a; cbn [seq]; [constructor|].
  rewrite filter_cons. destruct (decide (P a)); [|apply IH].
  constructor; [apply IH|]. apply Forall_forall. intros x Hx.
  apply list_elem_of_filter in Hx. destruct Hx as [_ Hx].
  apply elem_of_seq in Hx. lia.
Qed.

Lemma localHigh_apart values lookback i i' :
  localHigh values lookback i -> localHigh values lookback i' ->
  (i < i')%nat -> (i + lookback < i')%nat.
Proof.
  intros (H1 & H2 & c & Hc & Hall) (H1' & H2' & c' & Hc' & Hall') Hlt.
  destruct (Nat.le_gt_cases i' (i + lookback)) as [Hnear|]; [|assumption].
  exfalso.
  assert (A : c' < c) by (apply (Hall i' c'); [lia|lia|lia|exact Hc']).
  assert (B : c < c') by (apply (Hall' i c); [lia|lia|lia|exact Hc]).
  exact (Qlt_irrefl _ (Qlt_trans _ _ _ A B)).
Qed.

Lemma localLow_apart values lookback i i' :
  localLow values lookback i -> localLow values lookback i' ->
  (i < i')%nat -> (i + lookback < i')%nat.
Proof.
  intros (H1 & H2 & c & Hc & Hall) (H1' & H2' & c' & Hc' & Hall') Hlt.
  destruct (Nat.le_gt_cases i' (i + lookback)) as [Hnear|]; [|assumption].
  exfalso.
  assert (A : c < c') by (apply (Hall i' c'); [lia|lia|lia|exact Hc']).
  assert (B : c' < c) by (apply (Hall' i c); [lia|lia|lia|exact Hc]).
  exact (Qlt_irrefl _ (Qlt_trans _ _ _ A B)).
Qed.

(** With a lookback of at least one, the highs and the lows come out in
    increasing index order, two highs (and two lows) are more than
    [lookback] apart, and no index is both a high and a low. *)
Theorem extrema_sorted_and_apart (values : list Q) (lookback : nat) :
  (1 <= lookback)%nat ->
  let '(highs, lows) := findLocalExtrema values lookback in
  StronglySorted lt highs /\ StronglySorted lt lows
  /\ (forall i i', i ∈ highs -> i' ∈ highs -> (i < i')%nat -> (i + lookback < i')%nat)
  /\ (forall i i', i ∈ lows -> i' ∈ lows -> (i < i')%nat -> (i + lookback < i')%nat)
  /\ (forall i, i ∈ highs -> i ∉ lows).
Proof.
  intros Hlb.
  pose proof (highs_spec values lookback) as Hh.
  pose proof (lows_spec values lookback) as Hl.
  assert (Hs1 : StronglySorted lt (fst (findLocalExtrema values lookback)))
    by apply filter_seq_sorted.
  assert (Hs2 : StronglySorted lt (snd (findLocalExtrema values lookback)))
    by apply filter_seq_sorted.
  destruct (findLocalExtrema values lookback) as [highs lows]. cbn [fst snd] in *.
  split; [exact Hs1|]. split; [exact Hs2|]. split; [|split].
  - intros i i' Hi Hi'. apply (localHigh_apart values lookback); [apply Hh, Hi|apply Hh, Hi'].
  - intros i i' Hi Hi'. apply (localLow_apart values lookback); [apply Hl, Hi|apply Hl, Hi'].
  - intros i Hi Hi'. apply Hh in Hi. apply Hl in Hi'.
    destruct Hi as (H1 & H2 & c & Hc & Hall). destruct Hi' as (_ & _ & c' & Hc' & Hall').
    assert (c' = c) by congruence. subst c'.
    destruct (lookup_lt_is_Some_2 values (S i)) as [v Hv]; [lia|].
    assert (A : v < c) by (apply (Hall (S i) v); [lia|lia|lia|exact Hv]).
    assert (B : c < v) by (apply (Hall' (S i) v); [lia|lia|lia|exact Hv]).
    exact (Qlt_irrefl _ (Qlt_trans _ _ _ A B)).
Qed.

Lemma extrema_sorted_and_apart_witness :
  StronglySorted lt (fst (findLocalExtrema [1; 3; 1; 4; 1] 1)).
Proof.
  pose proof (extrema_sorted_and_apart [1; 3; 1; 4; 1] 1 (le_n 1)) as H.
  destruct (findLocalExtrema [1; 3; 1; 4; 1] 1) as [highs lows].
  exact (proj1 H).
Defined.

Lemma lastTwo_inv (l : list nat) i1 i2 :
  lastTwo l = Some (i1, i2) -> exists older, l = older ++ [i1; i2].
Proof.
  unfold lastTwo. destruct (rev l) as [|b [|a rest]] eqn:E; try discriminate.
  intros H. injection H as <- <-. exists (rev rest).
  rewrite <- (rev_involutive l), E. cbn. rewrite <- app_assoc. reflexivity.
Qed.


(** The last two of a sorted list: both members, in order, nothing after. *)
Lemma lastTwo_sorted (l : list nat) i1 i2 :
  StronglySorted lt l -> lastTwo l = Some (i1, i2) ->
  i1 ∈ l /\ i2 ∈ l /\ (i1 < i2)%nat /\ (forall j, j ∈ l -> (j <= i2)%nat).
Proof.
  intros Hs H. destruct (lastTwo_inv l i1 i2 H) as [older ->].
  split; [apply elem_of_app; right; apply elem_of_cons; left; reflexivity|].
  split; [apply elem_of_app; right; apply elem_of_cons; right;
          apply elem_of_cons; left; reflexivity|].
  split.
  - apply StronglySorted_app_1_r in Hs. inversion Hs as [|? ? _ Hall]; subst.
    inversion Hall; subst. assumption.
  - intros j Hj. apply elem_of_app in Hj. destruct Hj as [Hj|Hj].
    + assert (j < i2)%nat; [|lia].
      eapply (StronglySorted_app_1_elem_of lt older [i1; i2]); [exact Hs|exact Hj|].
      apply elem_of_cons; right; apply elem_of_cons; left; reflexivity.
    + apply StronglySorted_app_1_r in Hs. inversion Hs as [|? ? _ Hall]; subst.
      inversion Hall; subst.
      apply elem_of_cons in Hj. destruct Hj as [->|Hj]; [lia|].
      apply elem_of_cons in Hj. destruct Hj as [->|Hj]; [lia|].
      apply elem_of_nil in Hj. contradiction.
Qed.

Lemma ltAt_true values a b :
  ltAt values a b = true <-> exists x y, values !! a = Some x /\ values !! b = Some y /\ x < y.
Proof.
  unfold ltAt. destruct (values !! a) as [x|], (values !! b) as [y|];
    try (split; [discriminate|intros (? & ? & ? & ? & _); discriminate]).
  rewrite Qlt_bool_iff. split; [eauto|].
  intros (x' & y' & Hx & Hy & H). injection Hx as <-. injection Hy as <-. exact H.
Qed.

Lemma ltDefined_true (m : list (option Q)) a b :
  ltDefined m a b = true
  <-> exists x y, m !! a = Some (Some x) /\ m !! b = Some (Some y) /\ x < y.
Proof.
  unfold ltDefined. destruct (m !! a) as [[x|]|], (m !! b) as [[y|]|]; cbn;
    try (split; [discriminate|intros (? & ? & ? & ? & _); discriminate]).
  rewrite Qlt_bool_iff. split; [eauto|].
  intros (x' & y' & Hx & Hy & H). injection Hx as <-. injection Hy as <-. exact H.
Qed.

(** On a sorted list, [lastTwo] picks the last member and the last one
    before it, and finds them whenever they exist. *)
Lemma lastTwo_latest (l : list nat) i1 i2 :
  StronglySorted lt l ->
  lastTwo l = Some (i1, i2) <-> DivergenceSpec.latestTwo (fun j => j ∈ l) i1 i2.
Proof.
  intros Hs.
  assert (Hfwd : forall a b, lastTwo l = Some (a, b) ->
                   DivergenceSpec.latestTwo (fun j => j ∈ l) a b).
  { intros a b H. destruct (lastTwo_sorted l a b Hs H) as (Ha & Hb & Hlt & _).
    split; [exact Ha|]. split; [exact Hb|]. split; [exact Hlt|].
    destruct (lastTwo_inv l a b H) as [older ->]. intros j Hj.
    apply elem_of_app in Hj as [Hj|Hj].
    - left. assert (j < a)%nat; [|lia].
      eapply (StronglySorted_app_1_elem_of lt older [a; b]); [exact Hs|exact Hj|].
      apply elem_of_cons. left. reflexivity.
    - apply elem_of_cons in Hj as [->|Hj]; [left; lia|].
      apply elem_of_cons in Hj as [->|Hj]; [right; reflexivity|].
      apply elem_of_nil in Hj. contradiction. }
  split; [apply Hfwd|].
  intros (H1 & H2 & Hlt & Hmax).
  destruct (lastTwo l) as [[a b]|] eqn:E.
  - destruct (Hfwd a b eq_refl) as (Ha & Hb & Hab & Hmax').
    assert (b = i2).
    { destruct (Hmax b Hb) as [H|H]; [|exact H].
      destruct (Hmax' i2 H2) as [H'|H']; [lia|congruence]. }
    subst b.
    assert (a = i1).
    { destruct (Hmax a Ha) as [H|H]; [|lia].
      destruct (Hmax' i1 H1) as [H'|H']; lia. }
    subst a. reflexivity.
  - exfalso. unfold lastTwo in E.
    destruct (rev l) as [|b [|a rest]] eqn:Er; [| |discriminate].
    + apply (f_equal (@rev nat)) in Er. rewrite rev_involutive in Er. subst l.
      inversion H1.
    + apply (f_equal (@rev nat)) in Er. rewrite rev_involutive in Er. subst l.
      cbn in H1, H2. apply list_elem_of_singleton in H1, H2. lia.
Qed.

(** [checkDivergence] reports a bearish divergence exactly when the last two
    local highs of the closes (lookback 6), [i1] before [i2], show a higher
    close and a lower, defined MACD at [i2]; it reports a bullish divergence
    exactly when that is not so and the last two local lows show a lower
    close and a higher, defined MACD at [i2].  The two extrema compared are
    more than six bars apart. *)
Theorem checkDivergence_exact (closePrices : list Q) (m : MacdObj) :
  (checkDivergence closePrices m = Some BearishDiv
   <-> exists i1 i2, DivergenceSpec.latestTwo (localHigh closePrices 6) i1 i2
                     /\ DivergenceSpec.bearishAt closePrices m i1 i2)
  /\ (checkDivergence closePrices m = Some BullishDiv
      <-> ~ (exists i1 i2, DivergenceSpec.latestTwo (localHigh closePrices 6) i1 i2
                           /\ DivergenceSpec.bearishAt closePrices m i1 i2)
          /\ exists i1 i2, DivergenceSpec.latestTwo (localLow closePrices 6) i1 i2
                           /\ DivergenceSpec.bullishAt closePrices m i1 i2)
  /\ (forall i1 i2,
        DivergenceSpec.latestTwo (localHigh closePrices 6) i1 i2
        \/ DivergenceSpec.latestTwo (localLow closePrices 6) i1 i2 ->
        (i1 + 6 < i2)%nat).
Proof.
  pose proof (highs_spec closePrices 6) as Hh.
  pose proof (lows_spec closePrices 6) as Hl.
  assert (Hs1 : StronglySorted lt (fst (findLocalExtrema closePrices 6)))
    by apply filter_seq_sorted.
  assert (Hs2 : StronglySorted lt (snd (findLocalExtrema closePrices 6)))
    by apply filter_seq_sorted.
  unfold checkDivergence.
  destruct (findLocalExtrema closePrices 6) as [highs lows]. cbn [fst snd] in *.
  assert (Hlatest : forall (l : list nat) (P : nat -> Prop) i1 i2,
            (forall j, j ∈ l <-> P j) ->
            DivergenceSpec.latestTwo (fun j => j ∈ l) i1 i2
            <-> DivergenceSpec.latestTwo P i1 i2).
  { intros l P i1 i2 HP. unfold DivergenceSpec.latestTwo. rewrite !HP.
    split; intros (A & B & C & D); repeat split; try assumption;
      intros j Hj; apply D, HP, Hj. }
  set (bearish := match lastTwo highs with
                  | Some (i1, i2) => ltAt closePrices i1 i2 && ltDefined (macd m) i2 i1
                  | None => false
                  end).
  assert (Hb : bearish = true
               <-> exists i1 i2, DivergenceSpec.latestTwo (localHigh closePrices 6) i1 i2
                                 /\ DivergenceSpec.bearishAt closePrices m i1 i2).
  { subst bearish. split.
    - destruct (lastTwo highs) as [[i1 i2]|] eqn:E; [|discriminate].
      intros B. apply andb_true_iff in B as [B1 B2].
      apply ltAt_true in B1 as (p1 & p2 & Hp1 & Hp2 & Hp).
      apply ltDefined_true in B2 as (m2 & m1 & Hm2 & Hm1 & Hm).
      exists i1, i2. split.
      + apply (Hlatest highs _ _ _ Hh), lastTwo_latest; assumption.
      + exists p1, p2, m1, m2. tauto.
    - intros (i1 & i2 & Hlt & p1 & p2 & m1 & m2 & Hp1 & Hp2 & Hp & Hm1 & Hm2 & Hm).
      apply (Hlatest highs _ _ _ Hh), (lastTwo_latest highs i1 i2 Hs1) in Hlt.
      rewrite Hlt. apply andb_true_iff. split.
      + apply ltAt_true. eauto.
      + apply ltDefined_true. eauto 6. }
  set (bullish := match lastTwo lows with
                  | Some (i1, i2) => ltAt closePrices i2 i1 && ltDefined (macd m) i1 i2
                  | None => false
                  end).
  assert (Hu : bullish = true
               <-> exists i1 i2, DivergenceSpec.latestTwo (localLow closePrices 6) i1 i2
                                 /\ DivergenceSpec.bullishAt closePrices m i1 i2).
  { subst bullish. split.
    - destruct (lastTwo lows) as [[i1 i2]|] eqn:E; [|discriminate].
      intros B. apply andb_true_iff in B as [B1 B2].
      apply ltAt_true in B1 as (p2 & p1 & Hp2 & Hp1 & Hp).
      apply ltDefined_true in B2 as (m1 & m2 & Hm1 & Hm2 & Hm).
      exists i1, i2. split.
      + apply (Hlatest lows _ _ _ Hl), lastTwo_latest; assumption.
      + exists p1, p2, m1, m2. tauto.
    - intros (i1 & i2 & Hlt & p1 & p2 & m1 & m2 & Hp1 & Hp2 & Hp & Hm1 & Hm2 & Hm).
      apply (Hlatest lows _ _ _ Hl), (lastTwo_latest lows i1 i2 Hs2) in Hlt.
      rewrite Hlt. apply andb_true_iff. split.
      + apply ltAt_true. eauto.
      + apply ltDefined_true. eauto 6. }
  assert (Hres : (if bearish then Some BearishDiv
                  else match lastTwo lows with
                       | Some (i1, i2) =>
                           if ltAt closePrices i2 i1 && ltDefined (macd m) i1 i2
                           then Some BullishDiv else None
                       | None => None
                       end)
                 = if bearish then Some BearishDiv
                   else if bullish then Some BullishDiv else None).
  { subst bullish. destruct bearish; [reflexivity|].
    destruct (lastTwo lows) as [[i1 i2]|]; reflexivity. }
  rewrite Hres. clear Hres. split; [|split].
  - rewrite <- Hb. destruct bearish; [tauto|].
    destruct bullish; split; intros H; discriminate H.
  - rewrite <- Hb, <- Hu. destruct bearish.
    + split; [intros H; discriminate H|]. intros [H _]. exfalso. apply H. reflexivity.
    + destruct bullish.
      * split; [|reflexivity]. intros _. split; [intros H; discriminate H|reflexivity].
      * split; [intros H; discriminate H|]. intros [_ H]. discriminate H.
  - intros i1 i2 [(H1 & H2 & Hlt & _)|(H1 & H2 & Hlt & _)].
    + apply (localHigh_apart closePrices 6); assumption.
    + apply (localLow_apart closePrices 6); assumption.
Qed.

Lemma checkDivergence_exact_witness :
  exists i1 i2,
    DivergenceSpec.latestTwo (localHigh Series.doubleTop 6) i1 i2
    /\ DivergenceSpec.bearishAt Series.doubleTop (macdSeries Series.doubleTop) i1 i2.
Proof.
  apply (proj1 (proj1 (checkDivergence_exact Series.doubleTop
                         (macdSeries Series.doubleTop)))).
  vm_compute. reflexivity.
Defined.

(** Fewer than twenty bars hold at most one local high and one local low
    (two of either need [6 + 7 + 6 + 1] bars), so no divergence is reported. *)
Theorem checkDivergence_needs_twenty_bars (closePrices : list Q) (m : MacdObj) :
  (length closePrices < 20)%nat ->
  checkDivergence closePrices m = None
  /\ (length (fst (findLocalExtrema closePrices 6)) <= 1)%nat
  /\ (length (snd (findLocalExtrema closePrices 6)) <= 1)%nat.
Proof.
  intros Hlen.
  pose proof (highs_spec closePrices 6) as Hh.
  pose proof (lows_spec closePrices 6) as Hl.
  assert (Hs1 : StronglySorted lt (fst (findLocalExtrema closePrices 6)))
    by apply filter_seq_sorted.
  assert (Hs2 : StronglySorted lt (snd (findLocalExtrema closePrices 6)))
    by apply filter_seq_sorted.
  unfold checkDivergence.
  destruct (findLocalExtrema closePrices 6) as [highs lows]. cbn [fst snd] in *.
  assert (N1 : lastTwo highs = None).
  { destruct (lastTwo highs) as [[i1 i2]|] eqn:E; [exfalso|reflexivity].
    destruct (lastTwo_sorted highs i1 i2 Hs1 E) as (Hi1 & Hi2 & Hlt & _).
    apply Hh in Hi1. apply Hh in Hi2.
    pose proof (localHigh_apart closePrices 6 i1 i2 Hi1 Hi2 Hlt).
    destruct Hi1 as (? & _). destruct Hi2 as (_ & ? & _). lia. }
  assert (N2 : lastTwo lows = None).
  { destruct (lastTwo lows) as [[i1 i2]|] eqn:E; [exfalso|reflexivity].
    destruct (lastTwo_sorted lows i1 i2 Hs2 E) as (Hi1 & Hi2 & Hlt & _).
    apply Hl in Hi1. apply Hl in Hi2.
    pose proof (localLow_apart closePrices 6 i1 i2 Hi1 Hi2 Hlt).
    destruct Hi1 as (? & _). destruct Hi2 as (_ & ? & _). lia. }
  rewrite N1, N2. split; [reflexivity|].
  assert (Hshort : forall l : list nat, lastTwo l = None -> (length l <= 1)%nat).
  { intros l. unfold lastTwo. intros Hn.
    rewrite <- length_rev. destruct (rev l) as [|b [|a rest]]; cbn; try lia. discriminate. }
  split; apply Hshort; assumption.
Qed.

Lemma checkDivergence_needs_twenty_bars_witness :
  checkDivergence (Samples.ramp 19) (macdSeries (Samples.ramp 19)) = None.
Proof.
  apply (checkDivergence_needs_twenty_bars (Samples.ramp 19)). vm_compute. lia.
Defined.

Lemma no_extrema (values : list Q) (lookback : nat) :
  (forall i, ~ localHigh values lookback i) ->
  (forall i, ~ localLow values lookback i) ->
  findLocalExtrema values lookback = ([], []).
Proof.
  intros Hh Hl.
  pose proof (highs_spec values lookback) as Hh'.
  pose proof (lows_spec values lookback) as Hl'.
  destruct (findLocalExtrema values lookback) as [highs lows]. cbn [fst snd] in *.
  f_equal; apply elem_of_nil_inv; intros i Hi.
  - apply (Hh i), Hh', Hi.
  - apply (Hl i), Hl', Hi.
Qed.

(** A price series that never falls, or never rises, has no local high and
    no local low (for a lookback of at least one), and so shows no
    divergence. *)
Theorem monotone_no_extrema (values : list Q) (lookback : nat) (m : MacdObj) :
  (1 <= lookback)%nat ->
  Series.nondecreasing values \/ Series.nonincreasing values ->
  findLocalExtrema values lookback = ([], [])
  /\ checkDivergence values m = None.
Proof.
  intros Hlb Hmono.
  assert (Hnone : forall lb, (1 <= lb)%nat -> findLocalExtrema values lb = ([], [])).
  { intros lb Hlb'. apply no_extrema; intros i (H1 & H2 & c & Hc & Hall).
    - destruct (lookup_lt_is_Some_2 values (S i)) as [y Hy]; [lia|].
      destruct (lookup_lt_is_Some_2 values (i - 1)) as [x Hx]; [lia|].
      assert (A : y < c) by (apply (Hall (S i) y); [lia|lia|lia|exact Hy]).
      assert (B : x < c) by (apply (Hall (i - 1)%nat x); [lia|lia|lia|exact Hx]).
      destruct Hmono as [Hup|Hdown].
      + pose proof (Hup i c y Hc Hy). lra.
      + replace i with (S (i - 1)) in Hc by lia.
        pose proof (Hdown (i - 1)%nat x c Hx Hc). lra.
    - destruct (lookup_lt_is_Some_2 values (S i)) as [y Hy]; [lia|].
      destruct (lookup_lt_is_Some_2 values (i - 1)) as [x Hx]; [lia|].
      assert (A : c < y) by (apply (Hall (S i) y); [lia|lia|lia|exact Hy]).
      assert (B : c < x) by (apply (Hall (i - 1)%nat x); [lia|lia|lia|exact Hx]).
      destruct Hmono as [Hup|Hdown].
      + replace i with (S (i - 1)) in Hc by lia.
        pose proof (Hup (i - 1)%nat x c Hx Hc). lra.
      + pose proof (Hdown i c y Hc Hy). lra. }
  split; [apply Hnone, Hlb|].
  unfold checkDivergence. rewrite Hnone by lia. reflexivity.
Qed.

Lemma monotone_no_extrema_witness :
  checkDivergence (replicate 40 50) (macdSeries (replicate 40 50)) = None.
Proof.
  apply (monotone_no_extrema (replicate 40 50) 6 (macdSeries (replicate 40 50)));
    [lia|].
  left. intros i x y Hx Hy.
  apply lookup_replicate in Hx. apply lookup_replicate in Hy.
  destruct Hx as [-> _]. destruct Hy as [-> _]. apply Qle_refl.
Defined.

End DivergenceFacts.

(** ** The token bucket *)

Section TokenBucketFacts.
Import Num TokenBucket.
Local Open Scope Q_scope.

Lemma rate_pos r : wellFormed r -> 0 < refillRate r.
Proof. intros (H1 & H2 & _). rewrite H2. apply Qlt_shift_div_l; lra. Qed.

(** A refill happens exactly when the clock is ahead of the last refill. *)
Lemma refill_fires r now :
  wellFormed r ->
  Qlt_bool 0 (inject_Z (now - lastRefill r) / 1000 * refillRate r) = true
  <-> (lastRefill r < now)%Z.
Proof.
  intros Hwf. pose proof (rate_pos r Hwf) as Hr. rewrite Qlt_bool_iff.
  assert (E : inject_Z (now - lastRefill r) / 1000 == inject_Z (now - lastRefill r) * (1 # 1000))
    by reflexivity.
  split.
  - intros H. destruct (Z.lt_ge_cases (lastRefill r) now) as [|Hge]; [assumption|].
    exfalso. assert (inject_Z (now - lastRefill r) <= 0).
    { unfold Qle. cbn. lia. }
    assert (0 <= - inject_Z (now - lastRefill r) * (1 # 1000) * refillRate r).
    { apply Qmult_le_0_compat; [|lra]. lra. }
    rewrite E in H. lra.
  - intros H. assert (0 < inject_Z (now - lastRefill r)).
    { unfold Qlt. cbn. lia. }
    rewrite E. apply Qmult_lt_0_compat; [|exact Hr]. lra.
Qed.

Lemma refill_later r now :
  wellFormed r -> (lastRefill r < now)%Z ->
  _refill now r
  = {| maxPerMinute := maxPerMinute r;
       tokens := Qmin (maxPerMinute r) (tokens r + inflow r (lastRefill r) now);
       refillRate := refillRate r; lastRefill := now |}.
Proof.
  intros Hwf Hlt. unfold _refill. rewrite (proj2 (refill_fires r now Hwf) Hlt).
  reflexivity.
Qed.

Lemma refill_not_later r now :
  wellFormed r -> (now <= lastRefill r)%Z -> _refill now r = r.
Proof.
  intros Hwf Hle. unfold _refill.
  destruct (Qlt_bool 0 _) eqn:E; [|reflexivity].
  apply (refill_fires r now Hwf) in E. lia.
Qed.

Lemma inflow_nonneg r a b : wellFormed r -> (a <= b)%Z -> 0 <= inflow r a b.
Proof.
  intros Hwf Hab. pose proof (rate_pos r Hwf). unfold inflow.
  assert (0 <= inject_Z (b - a)) by (unfold Qle; cbn; lia).
  apply Qmult_le_0_compat; [|lra].
  apply Qle_shift_div_l; lra.
Qed.

Lemma inflow_split r a b c : inflow r a b + inflow r b c == inflow r a c.
Proof.
  unfold inflow. replace (c - a)%Z with ((b - a) + (c - b))%Z by lia.
  rewrite inject_Z_plus. field.
Qed.

Lemma refill_wellFormed r now : wellFormed r -> wellFormed (_refill now r).
Proof.
  intros Hwf. destruct (Z.lt_ge_cases (lastRefill r) now) as [Hlt|Hge].
  - rewrite refill_later by assumption.
    pose proof (inflow_nonneg r (lastRefill r) now Hwf ltac:(lia)) as Hin.
    destruct Hwf as (H1 & H2 & H3 & H4). unfold wellFormed. cbn.
    split; [exact H1|]. split; [exact H2|]. split.
    + apply Q.min_glb; lra.
    + apply Q.le_min_l.
  - rewrite refill_not_later by assumption. exact Hwf.
Qed.

Lemma refill_keeps_bucket_aux (r : RateLimiter) (now : Z) :
  wellFormed r ->
  wellFormed (_refill now r)
  /\ tokens r <= tokens (_refill now r)
  /\ tokens (_refill now r) <= tokens r + inflow r (lastRefill r) (lastRefill (_refill now r))
  /\ (lastRefill r <= lastRefill (_refill now r))%Z.
Proof.
  intros Hwf. split; [apply refill_wellFormed, Hwf|].
  destruct (Z.lt_ge_cases (lastRefill r) now) as [Hlt|Hge].
  - rewrite refill_later by assumption. cbn.
    pose proof (inflow_nonneg r (lastRefill r) now Hwf ltac:(lia)) as Hin.
    destruct Hwf as (H1 & H2 & H3 & H4).
    split; [apply Q.min_glb; lra|]. split; [apply Q.le_min_r|]. lia.
  - rewrite refill_not_later by assumption.
    split; [lra|]. split; [|lia].
    unfold inflow. rewrite Z.sub_diag. change (inject_Z 0) with 0.
    setoid_replace (0 / 1000 * refillRate r) with 0 using relation Qeq by field. lra.
Qed.



Lemma waitForToken_nil r :
  waitForToken [] r = if Qlt_bool (tokens r) 1 then None else Some (r, []).
Proof. reflexivity. Qed.

Lemma waitForToken_cons now clock r :
  waitForToken (now :: clock) r
  = if Qlt_bool (tokens r) 1 then waitForToken clock (_refill now r)
    else Some (r, now :: clock).
Proof. reflexivity. Qed.

Lemma refill_frame r now :
  maxPerMinute (_refill now r) = maxPerMinute r
  /\ refillRate (_refill now r) = refillRate r.
Proof. unfold _refill. destruct (Qlt_bool 0 _); cbn; auto. Qed.

Lemma inflow_same_rate r r' a b : refillRate r' = refillRate r -> inflow r' a b = inflow r a b.
Proof. unfold inflow. intros ->. reflexivity. Qed.

Lemma inflow_backwards r a b : wellFormed r -> (b <= a)%Z -> inflow r a b <= 0.
Proof.
  intros Hwf Hba. pose proof (inflow_nonneg r b a Hwf Hba) as H.
  pose proof (inflow_split r a b a) as E.
  assert (Z0 : inflow r a a == 0).
  { unfold inflow. rewrite Z.sub_diag. change (inject_Z 0) with 0. field. }
  lra.
Qed.

(** What the waiting loop hands back. *)
Lemma waitForToken_result clock : forall r r' rest,
  wellFormed r -> waitForToken clock r = Some (r', rest) ->
  wellFormed r' /\ 1 <= tokens r'
  /\ (lastRefill r <= lastRefill r')%Z
  /\ tokens r' <= tokens r + inflow r (lastRefill r) (lastRefill r')
  /\ refillRate r' = refillRate r /\ maxPerMinute r' = maxPerMinute r.
Proof.
  induction clock as [|now clock IH]; intros r r' rest Hwf Hw.
  - rewrite waitForToken_nil in Hw.
    destruct (Qlt_bool (tokens r) 1) eqn:E; [discriminate|].
    injection Hw as <- <-. apply Qlt_bool_false_iff in E.
    pose proof (inflow_nonneg r (lastRefill r) (lastRefill r) Hwf ltac:(lia)).
    split; [exact Hwf|]. repeat split; try lia; try lra.
  - rewrite waitForToken_cons in Hw.
    destruct (Qlt_bool (tokens r) 1) eqn:E.
    + destruct (refill_keeps_bucket_aux r now Hwf) as (Hwf1 & _ & Hup & Hmono).
      destruct (refill_frame r now) as [Fm Fr].
      destruct (IH _ _ _ Hwf1 Hw) as (A & B & C & D & F & G).
      rewrite (inflow_same_rate r _ _ _ Fr) in D.
      pose proof (inflow_split r (lastRefill r) (lastRefill (_refill now r)) (lastRefill r')).
      split; [exact A|]. repeat split; try assumption; try lia; try lra; congruence.
    + injection Hw as <- <-. apply Qlt_bool_false_iff in E.
      pose proof (inflow_nonneg r (lastRefill r) (lastRefill r) Hwf ltac:(lia)).
      split; [exact Hwf|]. repeat split; try lia; try lra.
Qed.

Lemma consume_result clock r r' rest :
  wellFormed r -> consume clock r = Some (r', rest) ->
  wellFormed r'
  /\ tokens r' + 1 <= tokens r + inflow r (lastRefill r) (lastRefill r')
  /\ (lastRefill r <= lastRefill r')%Z
  /\ refillRate r' = refillRate r /\ maxPerMinute r' = maxPerMinute r.
Proof.
  intros Hwf Hc. unfold consume in Hc. destruct clock as [|now clock]; [discriminate|].
  destruct (waitForToken clock (_refill now r)) as [[r1 rest1]|] eqn:Hw; [|discriminate].
  injection Hc as <- <-.
  destruct (refill_keeps_bucket_aux r now Hwf) as (Hwf1 & _ & Hup & Hmono).
  destruct (refill_frame r now) as [Fm Fr].
  destruct (waitForToken_result _ _ _ _ Hwf1 Hw) as (A & B & C & D & F & G).
  rewrite (inflow_same_rate r _ _ _ Fr) in D.
  pose proof (inflow_split r (lastRefill r) (lastRefill (_refill now r)) (lastRefill r1)).
  destruct A as (A1 & A2 & A3 & A4).
  unfold wellFormed, debit. cbn.
  repeat split; try assumption; try lia; try lra; congruence.
Qed.

Lemma consumeN_result n : forall clock r r' rest,
  wellFormed r -> consumeN n clock r = Some (r', rest) ->
  wellFormed r'
  /\ ofNat n + tokens r' <= tokens r + inflow r (lastRefill r) (lastRefill r')
  /\ (lastRefill r <= lastRefill r')%Z.
Proof.
  induction n as [|n IH]; intros clock r r' rest Hwf Hc; cbn in Hc.
  - injection Hc as <- <-.
    pose proof (inflow_nonneg r (lastRefill r) (lastRefill r) Hwf ltac:(lia)).
    split; [exact Hwf|]. split; [|lia]. unfold ofNat. change (inject_Z (Z.of_nat 0)) with 0. lra.
  - destruct (consume clock r) as [[r1 rest1]|] eqn:E; [|discriminate].
    destruct (consume_result _ _ _ _ Hwf E) as (A & B & C & F & G).
    destruct (IH _ _ _ _ A Hc) as (A' & B' & C').
    rewrite (inflow_same_rate r _ _ _ F) in B'.
    pose proof (inflow_split r (lastRefill r) (lastRefill r1) (lastRefill r')).
    split; [exact A'|]. split; [|lia].
    unfold ofNat. rewrite Nat2Z.inj_succ, <- Z.add_1_r, inject_Z_plus.
    change (inject_Z 1) with 1. fold (ofNat n). lra.
Qed.

(** The throughput guarantee: [n] requests that got through a bucket of
    capacity [C] took at least the time needed for [n - C] tokens to flow in;
    between two refill instants [T] milliseconds apart at most
    [C + C * T / 60000] requests pass.  Every request leaves between 0 and
    [C - 1] tokens. *)
Theorem consume_rate_bound (n : nat) (clock rest : list Z) (r r' : RateLimiter) :
  wellFormed r -> consumeN n clock r = Some (r', rest) ->
  wellFormed r'
  /\ (lastRefill r <= lastRefill r')%Z
  /\ ofNat n <= tokens r + inflow r (lastRefill r) (lastRefill r')
  /\ ofNat n <= maxPerMinute r
                + maxPerMinute r * (inject_Z (lastRefill r' - lastRefill r) / 60000)
  /\ ((1 <= n)%nat -> tokens r' <= maxPerMinute r - 1).
Proof.
  intros Hwf Hc.
  destruct (consumeN_result n clock r r' rest Hwf Hc) as (A & B & C).
  pose proof A as (A1 & A2 & A3 & A4). pose proof Hwf as (W1 & W2 & W3 & W4).
  split; [exact A|]. split; [exact C|]. split; [lra|]. split.
  - assert (E : inflow r (lastRefill r) (lastRefill r')
               == maxPerMinute r * (inject_Z (lastRefill r' - lastRefill r) / 60000)).
    { unfold inflow. rewrite W2. field. }
    lra.
  - intros Hn. destruct n as [|n]; [lia|]. cbn in Hc.
    destruct (consume clock r) as [[r1 rest1]|] eqn:E; [|discriminate].
    clear A B C A1 A2 A3 A4.
    revert r1 rest1 E Hc. generalize clock, r, Hwf. clear.
    induction n as [|n IH]; intros clock r Hwf r1 rest1 E Hc; cbn in Hc.
    + injection Hc as <- <-. unfold consume in E.
      destruct clock as [|now clock]; [discriminate|].
      destruct (waitForToken clock (_refill now r)) as [[r2 rest2]|] eqn:Hw; [|discriminate].
      injection E as <- <-.
      destruct (refill_keeps_bucket_aux r now Hwf) as (Hwf1 & _).
      destruct (refill_frame r now) as [Fm Fr].
      destruct (waitForToken_result _ _ _ _ Hwf1 Hw) as ((_ & _ & _ & A4) & _ & _ & _ & _ & G).
      cbn. rewrite G, Fm in A4. lra.
    + destruct (consume rest1 r1) as [[r2 rest2]|] eqn:E2; [|discriminate].
      destruct (consume_result _ _ _ _ Hwf E) as (A & _ & _ & _ & G).
      rewrite <- G. eapply (IH rest1 r1 A); eassumption.
Qed.

Lemma consume_rate_bound_witness :
  ofNat 2 <= tokens (create 40 0)
             + inflow (create 40 0) 0 (lastRefill (debit (debit (create 40 0)))).
Proof.
  assert (Hwf : wellFormed (create 40 0)).
  { unfold wellFormed, create. cbn. repeat split; first [lra|reflexivity]. }
  destruct (consume_rate_bound 2 [0; 0]%Z [] (create 40 0) (debit (debit (create 40 0)))
              Hwf eq_refl) as (_ & _ & H & _).
  exact H.
Defined.

End TokenBucketFacts.

(** ** The alert gate across a scan pass *)

Section GateInvariants.
Import Num Indicator Analyzer AlertGate AlertCycle Scan.

Lemma countToday_reset today st t :
  (countToday (resetDailyCounts today st) t <= countToday st t)%nat.
Proof.
  unfold resetDailyCounts. destruct (decide _); [lia|].
  unfold countToday. cbn. rewrite lookup_empty. cbn. lia.
Qed.

Lemma countToday_recordAlert_ne now t t' st :
  t <> t' -> countToday (recordAlert now t st) t' = countToday st t'.
Proof.
  intros Hne. unfold countToday at 1. unfold recordAlert. cbn.
  rewrite lookup_insert_ne by exact Hne. reflexivity.
Qed.

(** A gate that allows has room under the quota. *)
Lemma canAlert_allow_room today now t st :
  fst (canAlert today now t st) = true ->
  (countToday (snd (canAlert today now t st)) t < MAX_ALERTS_PER_DAY)%nat.
Proof.
  unfold canAlert, canAlertWith.
  destruct (Nat.leb_spec MAX_ALERTS_PER_DAY (countToday (resetDailyCounts today st) t)) as [|Hlt];
    [cbn; discriminate|].
  destruct (lastAlertAt _ !! t) as [last|]; [|cbn; intros _; exact Hlt].
  destruct (last =? 0)%Z; cbn; intros _; exact Hlt.
Qed.

End GateInvariants.

(** ** Recording an alert, then asking again *)

Section GateRoundTrip.
Import Num AlertGate AlertCycle.

Lemma canAlert_other_ticker today now t t' t0 st :
  t' <> t ->
  fst (canAlert today now t' (recordAlert t0 t st)) = fst (canAlert today now t' st).
Proof.
  intros Hne. unfold canAlert, canAlertWith.
  assert (Hc : countToday (resetDailyCounts today (recordAlert t0 t st)) t'
               = countToday (resetDailyCounts today st) t').
  { unfold resetDailyCounts. cbn [lastDailyReset recordAlert].
    destruct (decide (today = lastDailyReset st)).
    - apply countToday_recordAlert_ne. congruence.
    - reflexivity. }
  assert (Hl : lastAlertAt (resetDailyCounts today (recordAlert t0 t st)) !! t'
               = lastAlertAt (resetDailyCounts today st) !! t').
  { rewrite !resetDailyCounts_lastAlertAt. cbn. apply lookup_insert_ne. congruence. }
  rewrite Hc, Hl.
  destruct (_ <=? _)%nat; [reflexivity|].
  destruct (lastAlertAt (resetDailyCounts today st) !! t') as [last|]; [|reflexivity].
  destruct (last =? 0)%Z; reflexivity.
Qed.

(** After [recordAlert] at [t0] (a real clock reading), the same ticker is
    denied until the clock shows [t0] plus 15 minutes, on any day; on the
    same day it is allowed from then on while the quota has room; and the
    answers for every other ticker are what they were. *)
Theorem recordAlert_starts_cooldown
    (st : AlertState) (t : string) (t0 now : Z) (today : string) :
  t0 <> 0%Z ->
  (fst (canAlert today now t (recordAlert t0 t st)) = true -> (t0 + 900000 <= now)%Z)
  /\ (today = lastDailyReset st -> (countToday st t + 1 < MAX_ALERTS_PER_DAY)%nat ->
      (t0 + 900000 <= now)%Z ->
      fst (canAlert today now t (recordAlert t0 t st)) = true)
  /\ (forall t', t' <> t ->
      fst (canAlert today now t' (recordAlert t0 t st)) = fst (canAlert today now t' st)).
Proof.
  intros Ht0.
  assert (Hnz : stampsNonzero (recordAlert t0 t st) t)
    by (apply stampsNonzero_recordAlert; exact Ht0).
  assert (Hlast : lastAlertAt (recordAlert t0 t st) !! t = Some t0)
    by (cbn; apply lookup_insert_eq).
  split; [|split].
  - intros Hok. unfold canAlert in Hok. apply canAlertWith_allow in Hok; [|exact Hnz].
    destruct Hok as [_ [Hn|(last & Hl & Hc)]]; [congruence|].
    assert (last = t0) by congruence. subst last. unfold cooldownMs in Hc. lia.
  - intros Hday Hroom Hc. unfold canAlert. apply canAlertWith_allow; [exact Hnz|].
    rewrite resetDailyCounts_same by exact Hday. split.
    + rewrite countToday_recordAlert. unfold MAX_ALERTS_PER_DAY in *. lia.
    + right. exists t0. split; [exact Hlast|]. unfold cooldownMs. lia.
  - intros t' Hne. apply canAlert_other_ticker. exact Hne.
Qed.

Lemma recordAlert_starts_cooldown_witness :
  fst (canAlert "Sun Nov 01 2026" 1793500900000 "AAPL"
         (recordAlert 1793500000000 "AAPL" (initial "Sun Nov 01 2026"))) = true.
Proof.
  apply (proj1 (proj2 (recordAlert_starts_cooldown (initial "Sun Nov 01 2026") "AAPL"
                         1793500000000 1793500900000 "Sun Nov 01 2026"
                         ltac:(lia)))).
  - reflexivity.
  - unfold countToday, initial. cbn. rewrite lookup_empty. cbn.
    unfold MAX_ALERTS_PER_DAY. lia.
  - lia.
Defined.

(** The quota is per calendar day: on the stored day a ticker at the quota
    is denied whatever the clock says; on the first call of another day the
    count plays no part and only the cooldown decides. *)
Theorem day_rollover_lifts_quota (st : AlertState) (t today : string) (now : Z) :
  stampsNonzero st t ->
  (today = lastDailyReset st -> (MAX_ALERTS_PER_DAY <= countToday st t)%nat ->
   fst (canAlert today now t st) = false)
  /\ (today <> lastDailyReset st ->
      (fst (canAlert today now t st) = true
       <-> lastAlertAt st !! t = None
           \/ exists last, lastAlertAt st !! t = Some last /\ (last + 900000 <= now)%Z)).
Proof.
  intros Hnz. split.
  - intros Hday Hq. destruct (fst (canAlert today now t st)) eqn:E; [|reflexivity].
    unfold canAlert in E. apply canAlertWith_allow in E; [|exact Hnz].
    rewrite resetDailyCounts_same in E by exact Hday. lia.
  - intros Hday. unfold canAlert. rewrite canAlertWith_allow by exact Hnz.
    rewrite resetDailyCounts_rollover by exact Hday.
    unfold countToday. cbn. rewrite lookup_empty. cbn. unfold cooldownMs.
    split.
    + intros [_ [H|(last & Hl & Hc)]]; [left; exact H|right; exists last; split; [exact Hl|lia]].
    + intros H. split; [unfold MAX_ALERTS_PER_DAY; lia|].
      destruct H as [H|(last & Hl & Hc)]; [left; exact H|right; exists last; split; [exact Hl|lia]].
Qed.

Lemma day_rollover_lifts_quota_witness :
  fst (canAlert "Mon Nov 02 2026" 1793586400000 "AAPL"
         {| lastAlertAt := ∅; dailyAlerts := {["AAPL" := 20%nat]};
            lastDailyReset := "Sun Nov 01 2026" |}) = true.
Proof.
  apply (proj2 (day_rollover_lifts_quota
                  {| lastAlertAt := ∅; dailyAlerts := {["AAPL" := 20%nat]};
                     lastDailyReset := "Sun Nov 01 2026" |}
                  "AAPL" "Mon Nov 02 2026" 1793586400000
                  ltac:(intros last H; cbn in H; rewrite lookup_empty in H; discriminate H))).
  - discriminate.
  - left. apply lookup_empty.
Defined.

End GateRoundTrip.

(** ** More on the momentum predicate *)

Section MomentumMore.
Import Num MomentumScanner.
Local Open Scope Q_scope.

Lemma Qlt_bool_compat x x' y y' : x == x' -> y == y' -> Qlt_bool x y = Qlt_bool x' y'.
Proof.
  intros Hx Hy. unfold Qlt_bool. f_equal. apply Qleb_comp; assumption.
Qed.

Lemma checkMomentum_accept_iff d :
  fst (checkMomentum (Some d)) = true
  <-> price d <= MAX_PRICE /\ MIN_PRICE <= price d /\ MIN_VOLUME <= volume d
      /\ MIN_PRICE_CHANGE <= Qabs (change_pct d) /\ MIN_REL_VOLUME <= rel_volume d.
Proof.
  unfold checkMomentum. rewrite <- !Qlt_bool_false_iff.
  destruct (Qlt_bool MAX_PRICE (price d)), (Qlt_bool (price d) MIN_PRICE),
           (Qlt_bool (volume d) MIN_VOLUME),
           (Qlt_bool (Qabs (change_pct d)) MIN_PRICE_CHANGE),
           (Qlt_bool (rel_volume d) MIN_REL_VOLUME); cbn;
    split; try discriminate; try tauto; intros; intuition discriminate.
Qed.

(** The verdict does not depend on the direction of the move: a sample and
    the same sample with the opposite percent change get the same answer and
    the same reason.  An accepted sample stays accepted when its volume or
    its relative volume goes up. *)
Theorem checkMomentum_direction_blind (d : StockData) :
  checkMomentum (Some {| ticker := ticker d; price := price d;
                         change_pct := - change_pct d; volume := volume d;
                         rel_volume := rel_volume d; timestamp := timestamp d |})
  = checkMomentum (Some d)
  /\ (forall v rv, volume d <= v -> rel_volume d <= rv ->
        fst (checkMomentum (Some d)) = true ->
        fst (checkMomentum (Some {| ticker := ticker d; price := price d;
                                    change_pct := change_pct d; volume := v;
                                    rel_volume := rv; timestamp := timestamp d |})) = true).
Proof.
  split.
  - unfold checkMomentum. cbn [price volume change_pct rel_volume].
    rewrite (Qlt_bool_compat (Qabs (- change_pct d)) (Qabs (change_pct d))
               MIN_PRICE_CHANGE MIN_PRICE_CHANGE); [reflexivity| |reflexivity].
    apply Qabs_opp.
  - intros v rv Hv Hrv. rewrite !checkMomentum_accept_iff. cbn.
    intros (H1 & H2 & H3 & H4 & H5). repeat split; try assumption.
    + eapply Qle_trans; eassumption.
    + eapply Qle_trans; eassumption.
Qed.

Lemma checkMomentum_direction_blind_witness :
  fst (checkMomentum (Some {| ticker := "SOFI"; price := 12; change_pct := 13 # 2;
                              volume := 3000000; rel_volume := 3;
                              timestamp := 1793500000000 |})) = true.
Proof.
  apply (proj2 (checkMomentum_direction_blind
                  {| ticker := "SOFI"; price := 12; change_pct := 13 # 2;
                     volume := 2000000; rel_volume := 21 # 10;
                     timestamp := 1793500000000 |}) 3000000 3).
  - cbn. lra.
  - cbn. lra.
  - reflexivity.
Defined.

End MomentumMore.

(** ** One ticker of a momentum batch *)

Section ScanOneFacts.
Import Num MomentumScanner MomentumBot.

Lemma counted_reset today sc t :
  (counted (resetDailyCounters today sc) t <= counted sc t)%nat.
Proof.
  unfold resetDailyCounters, counted. destruct (decide _); [lia|].
  cbn. rewrite lookup_empty. cbn. lia.
Qed.

Lemma canSendAlert_room today now t sc :
  fst (canSendAlert today now t sc) = true ->
  (counted (resetDailyCounters today sc) t < MAX_ALERTS_PER_STOCK)%nat.
Proof.
  unfold canSendAlert, counted.
  destruct (Nat.leb_spec MAX_ALERTS_PER_STOCK
              (default 0%nat (alertCounter (resetDailyCounters today sc) !! t))) as [|Hlt];
    [cbn; discriminate|]. intros _. exact Hlt.
Qed.

Lemma counted_recordAlert now t sc : counted (recordAlert now t sc) t = S (counted sc t).
Proof. unfold counted, recordAlert. cbn. rewrite lookup_insert_eq. cbn. lia. Qed.

Lemma counted_recordAlert_ne now t t' sc :
  t <> t' -> counted (recordAlert now t sc) t' = counted sc t'.
Proof.
  intros Hne. unfold counted, recordAlert. cbn. rewrite lookup_insert_ne by exact Hne.
  reflexivity.
Qed.

End ScanOneFacts.

(** ** More on the backoff limiter *)

Section BackoffMore.
Import Backoff.
Local Open Scope Q_scope.

Lemma mark_grows r b :
  b <= backoffDelay r -> b * (15 # 10) <= backoffCap ->
  b * (15 # 10) <= backoffDelay (markRateLimited r).
Proof.
  intros Hb Hc. rewrite markRateLimited_delay. apply Q.min_glb; [lra|exact Hc].
Qed.

Lemma mark_at_cap r :
  backoffCap <= backoffDelay r * (15 # 10) ->
  backoffDelay (markRateLimited r) == backoffCap.
Proof.
  intros H. rewrite markRateLimited_delay. apply Q.min_r. exact H.
Qed.

(** Five throttle reports in a row take the delay to the 30-second cap from
    wherever it stood, and further reports keep it there. *)
Theorem backoff_reaches_cap_in_five (r : RateLimiter) (n : nat) :
  delayInRange r -> (5 <= n)%nat ->
  backoffDelay (Nat.iter n markRateLimited r) == 30000.
Proof.
  intros [Hlo Hhi] Hn. unfold initialBackoff in Hlo.
  replace n with ((n - 5) + 5)%nat by lia. generalize (n - 5)%nat. clear n Hn.
  intros k. induction k as [|k IH].
  - cbn [Nat.add Nat.iter].
    assert (H1 : 7500 <= backoffDelay (markRateLimited r)).
    { eapply Qle_trans; [|apply (mark_grows r 5000); [exact Hlo|unfold backoffCap; lra]]. lra. }
    assert (H2 : 11250 <= backoffDelay (markRateLimited (markRateLimited r))).
    { eapply Qle_trans; [|apply (mark_grows _ 7500); [exact H1|unfold backoffCap; lra]]. lra. }
    assert (H3 : 16875 <= backoffDelay (markRateLimited (markRateLimited (markRateLimited r)))).
    { eapply Qle_trans; [|apply (mark_grows _ 11250); [exact H2|unfold backoffCap; lra]]. lra. }
    assert (H4 : 25312 <= backoffDelay (markRateLimited (markRateLimited
                                 (markRateLimited (markRateLimited r))))).
    { eapply Qle_trans; [|apply (mark_grows _ 16875); [exact H3|unfold backoffCap; lra]]. lra. }
    apply mark_at_cap. unfold backoffCap. lra.
  - cbn [Nat.add Nat.iter]. apply mark_at_cap.
    cbn [Nat.add] in IH. rewrite IH. unfold backoffCap. lra.
Qed.

Lemma backoff_reaches_cap_in_five_witness :
  backoffDelay (Nat.iter 6 markRateLimited create) == 30000.
Proof.
  apply (backoff_reaches_cap_in_five create 6 create_delayInRange). lia.
Defined.

End BackoffMore.

(** ** [fetchCloseSeries]: the bars in date order *)

Section FetcherSortFacts.
Import Indicator Analyzer Fetcher.

Lemma insertByDate_perm b l : insertByDate b l ≡ₚ b :: l.
Proof.
  induction l as [|c l IH]; cbn; [reflexivity|].
  destruct (date b <=? date c)%Z; [reflexivity|].
  rewrite IH. apply Permutation_swap.
Qed.

Lemma sortByDate_perm l : sortByDate l ≡ₚ l.
Proof.
  induction l as [|b l IH]; cbn; [reflexivity|].
  rewrite insertByDate_perm, IH. reflexivity.
Qed.

Lemma insertByDate_sorted b l :
  StronglySorted byDate l -> StronglySorted byDate (insertByDate b l).
Proof.
  induction 1 as [|c l Hs IH Hall]; cbn.
  - constructor; constructor.
  - destruct (Z.leb_spec (date b) (date c)) as [Hle|Hgt].
    + constructor; [constructor; assumption|].
      constructor; [exact Hle|].
      eapply Forall_impl; [exact Hall|]. intros x Hx. unfold byDate in *. lia.
    + constructor; [exact IH|].
      rewrite insertByDate_perm. constructor; [unfold byDate; lia|exact Hall].
Qed.

Lemma sortByDate_sorted l : StronglySorted byDate (sortByDate l).
Proof.
  induction l as [|b l IH]; cbn; [constructor|]. apply insertByDate_sorted, IH.
Qed.

Lemma sortByDate_id l : StronglySorted byDate l -> sortByDate l = l.
Proof.
  induction 1 as [|b l Hs IH Hall]; cbn; [reflexivity|].
  unfold sortByDate in IH. rewrite IH.
  destruct l as [|c l]; [reflexivity|]. cbn.
  inversion Hall as [|? ? Hbc _]; subst. unfold byDate in Hbc.
  destruct (Z.leb_spec (date b) (date c)); [reflexivity|lia].
Qed.

(** Whatever order the rows arrive in, [fetchCloseSeries] hands back every
    one of them once, oldest first, with the closes in the same order; rows
    already in date order are left as they are.  No rows, or an error, give
    [null], and so does a later [analyzeTicker] on fewer than 37 rows. *)
Theorem fetchCloseSeries_oldest_first (h : Historical) :
  (forall closes raw, fetchCloseSeries h = Some (closes, raw) ->
     exists result, h = Rows (Some result) /\ result <> []
       /\ raw ≡ₚ result
       /\ StronglySorted byDate raw
       /\ closes = map close raw
       /\ length closes = length result
       /\ (StronglySorted byDate result -> raw = result))
  /\ (fetchCloseSeries h = None <-> h = Failed \/ h = Rows None \/ h = Rows (Some []))
  /\ (forall sym result, h = Rows (Some result) ->
        (length result < MACD_SLOW + MACD_SIGNAL + 2)%nat ->
        analyzeTicker sym (snd <$> fetchCloseSeries h) = None).
Proof.
  split; [|split].
  - intros closes raw H. destruct h as [[[|b result]|]|]; try discriminate.
    cbn in H. injection H as <- <-.
    exists (b :: result). split; [reflexivity|]. split; [discriminate|].
    split; [apply (sortByDate_perm (b :: result))|].
    split; [apply (sortByDate_sorted (b :: result))|].
    split; [reflexivity|]. split.
    + rewrite length_map. apply Permutation_length, (sortByDate_perm (b :: result)).
    + intros Hs. apply (sortByDate_id (b :: result) Hs).
  - destruct h as [[[|b result]|]|]; cbn; split; try discriminate; try tauto;
      try (intros [H|[H|H]]; discriminate); auto.
  - intros sym result -> Hlen. destruct result as [|b result]; [reflexivity|].
    cbn [fetchCloseSeries fmap option_fmap option_map snd].
    apply analyzeTicker_insufficient.
    rewrite (Permutation_length (sortByDate_perm (b :: result))). exact Hlen.
Qed.

Lemma fetchCloseSeries_oldest_first_witness :
  exists closes raw,
    fetchCloseSeries (Rows (Some [{| date := 3; close := 30 |};
                                  {| date := 1; close := 10 |};
                                  {| date := 2; close := 20 |}])) = Some (closes, raw)
    /\ StronglySorted byDate raw /\ closes = map close raw.
Proof.
  eexists _, _. split; [reflexivity|].
  destruct (proj1 (fetchCloseSeries_oldest_first
                     (Rows (Some [{| date := 3; close := 30 |};
                                  {| date := 1; close := 10 |};
                                  {| date := 2; close := 20 |}]))) _ _ eq_refl)
    as (result & _ & _ & _ & Hs & Hc & _).
  split; [exact Hs|exact Hc].
Defined.

End FetcherSortFacts.

(** ** The watchlist commands *)

Section WatchlistFacts.
Import Watchlist.

Lemma includes_true symbol arr : includes symbol arr = true <-> symbol ∈ arr.
Proof. unfold includes. destruct (decide (symbol ∈ arr)); split; auto; discriminate. Qed.

Lemma includes_false symbol arr : includes symbol arr = false <-> symbol ∉ arr.
Proof.
  unfold includes. destruct (decide (symbol ∈ arr)); split; auto; try discriminate.
  intros; contradiction.
Qed.

Lemma resume_subset symbol waiting x : x ∈ resume symbol waiting -> x ∈ waiting.
Proof.
  induction waiting as [|y rest IH]; cbn; [auto|].
  destruct (decide (y = symbol)).
  - intros H. right. exact H.
  - intros H. apply elem_of_cons in H as [->|H]; [left|right; auto].
Qed.

Lemma WATCHLIST_push symbol s : WATCHLIST (push symbol s) = WATCHLIST s ++ [symbol].
Proof. unfold push, WATCHLIST. destruct (aliased s) eqn:E; cbn; rewrite ?E; reflexivity. Qed.

Lemma pending_push symbol s : pending (push symbol s) = pending s.
Proof. unfold push. destruct (aliased s); reflexivity. Qed.

Lemma filter_other_id (symbol : string) (l : list string) :
  symbol ∉ l -> filter (fun x => x <> symbol) l = l.
Proof.
  induction l as [|y l IH]; [reflexivity|]. intros H.
  apply not_elem_of_cons in H as [Hne Hl].
  rewrite filter_cons_True by congruence. rewrite IH by exact Hl. reflexivity.
Qed.

Lemma addFetched_idle symbol fetchable s :
  pending s = [] -> addFetched symbol fetchable s = (None, s).
Proof.
  intros Hp. unfold addFetched. rewrite Hp.
  replace (includes symbol []) with false; [reflexivity|].
  symmetry. apply includes_false, not_elem_of_nil.
Qed.

Lemma handle_consistent s c :
  consistent s -> consistent (handle s c) /\ csv (handle s c) = csv s.
Proof.
  intros Hs. pose proof Hs as [Hal Hsub]. destruct c as [symbol|symbol fetchable|symbol]; cbn [handle].
  - unfold addStart, CSV_TICKERS.
    destruct (csv s) as [|c0 cs] eqn:Ecsv.
    + cbn [andb]. destruct (includes symbol (WATCHLIST s)) eqn:Ew; cbn [snd].
      * split; [exact Hs|first [reflexivity|assumption]].
      * split; [|reflexivity]. split; cbn.
        -- intros Ha. destruct (Hal Ha) as [_ Hne]. congruence.
        -- intros Hne. congruence.
    + cbn [andb]. destruct (includes symbol (c0 :: cs)) eqn:Ec; cbn [negb snd].
      * destruct (includes symbol (WATCHLIST s)) eqn:Ew; cbn [snd].
        -- split; [exact Hs|first [reflexivity|assumption]].
        -- split; [|reflexivity]. apply includes_true in Ec. apply includes_false in Ew.
           split; cbn.
           ++ intros Ha. exfalso. apply Ew. unfold WATCHLIST. rewrite Ha, Ecsv. exact Ec.
           ++ intros _ x Hx. unfold WATCHLIST in Hx. cbn in Hx.
              apply elem_of_app in Hx as [Hx|Hx].
              ** apply Hsub; [congruence|].
                 apply elem_of_app. left. unfold WATCHLIST. rewrite Ecsv. exact Hx.
              ** apply elem_of_cons in Hx as [->|Hx]; [exact Ec|].
                 apply Hsub; [congruence|].
                 apply elem_of_app. right. exact Hx.
      * split; [exact Hs|first [reflexivity|assumption]].
  - unfold addFetched. destruct (includes symbol (pending s)) eqn:Ep; cbn [snd];
      [|split; [exact Hs|first [reflexivity|assumption]]].
    apply includes_true in Ep.
    assert (Hna : aliased s = false).
    { destruct (aliased s) eqn:Ea; [|reflexivity].
      destruct (Hal eq_refl) as [Hp _]. rewrite Hp in Ep. inversion Ep. }
    assert (Hsub' : csv s <> [] -> forall x,
               x ∈ own s ++ resume symbol (pending s) -> x ∈ csv s).
    { intros Hne x Hx. apply Hsub; [exact Hne|]. unfold WATCHLIST. rewrite Hna.
      apply elem_of_app in Hx as [Hx|Hx]; apply elem_of_app; [left; exact Hx|].
      right. eapply resume_subset, Hx. }
    destruct fetchable; cbn [snd].
    + unfold push. cbn. rewrite Hna. cbn. split; [|reflexivity]. split; cbn.
      * discriminate.
      * intros Hne x Hx. unfold WATCHLIST in Hx. cbn in Hx.
        rewrite <- app_assoc in Hx. apply elem_of_app in Hx as [Hx|Hx].
        -- apply Hsub'; [exact Hne|]. apply elem_of_app. left. exact Hx.
        -- apply elem_of_cons in Hx as [->|Hx].
           ++ apply Hsub; [exact Hne|]. apply elem_of_app. right. exact Ep.
           ++ apply Hsub'; [exact Hne|]. apply elem_of_app. right. exact Hx.
    + split; [|reflexivity]. split; cbn.
      * rewrite Hna. discriminate.
      * intros Hne x Hx. unfold WATCHLIST in Hx. cbn in Hx. rewrite Hna in Hx.
        apply Hsub'; assumption.
  - unfold removeTicker. destruct (includes symbol (WATCHLIST s)); cbn [negb snd];
      [|split; [exact Hs|first [reflexivity|assumption]]].
    split; [|reflexivity]. split; cbn.
    + discriminate.
    + intros Hne x Hx. unfold WATCHLIST in Hx. cbn in Hx.
      apply Hsub; [exact Hne|].
      apply elem_of_app in Hx as [Hx|Hx]; apply elem_of_app; [left|right; exact Hx].
      apply list_elem_of_filter in Hx as [_ Hx]. exact Hx.
Qed.

Lemma loadWatchlist_consistent csvTickers json :
  consistent (loadWatchlist csvTickers json) /\ csv (loadWatchlist csvTickers json) = csvTickers.
Proof.
  destruct csvTickers as [|c cs]; cbn; (split; [|reflexivity]); split; cbn.
  - discriminate.
  - intros H. congruence.
  - intros _. split; [reflexivity|discriminate].
  - intros _ x Hx. rewrite app_nil_r in Hx. exact Hx.
Qed.

Lemma handleAll_consistent s cs :
  consistent s -> consistent (handleAll s cs) /\ csv (handleAll s cs) = csv s.
Proof.
  revert s. induction cs as [|c cs IH]; intros s Hs; cbn; [split; [exact Hs|reflexivity]|].
  destruct (handle_consistent s c Hs) as [Hc Heq].
  destruct (IH _ Hc) as [Hc' Heq']. split; [exact Hc'|]. unfold handleAll in Heq'. congruence.
Qed.

(** Whatever commands arrive and however their handlers interleave, the
    list read from tickers.csv stays what it was at start-up; when it is not
    empty the watchlist only ever holds tickers of it; and as long as no
    ticker has been removed (the watchlist is still the CSV array itself)
    every [add-ticker] is turned down before its test fetch. *)
Theorem csv_tickers_bound_watchlist (csvTickers json : list string) (cmds : list Command) :
  CSV_TICKERS (handleAll (loadWatchlist csvTickers json) cmds) = csvTickers
  /\ (csvTickers <> [] -> forall x,
        x ∈ WATCHLIST (handleAll (loadWatchlist csvTickers json) cmds) -> x ∈ csvTickers)
  /\ (aliased (handleAll (loadWatchlist csvTickers json) cmds) = true ->
      WATCHLIST (handleAll (loadWatchlist csvTickers json) cmds) = csvTickers
      /\ forall symbol,
           fst (addStart symbol (handleAll (loadWatchlist csvTickers json) cmds))
           = Some (if includes symbol csvTickers then AlreadyWatching else NotInCsv)).
Proof.
  destruct (loadWatchlist_consistent csvTickers json) as [H0 E0].
  destruct (handleAll_consistent _ cmds H0) as [[Hal Hsub] Ecsv].
  rewrite E0 in Ecsv. set (s := handleAll (loadWatchlist csvTickers json) cmds) in *.
  split; [exact Ecsv|]. split.
  - intros Hne x Hx. rewrite <- Ecsv. apply Hsub; [congruence|].
    apply elem_of_app. left. exact Hx.
  - intros Ha. destruct (Hal Ha) as [_ Hne].
    assert (Hw : WATCHLIST s = csvTickers) by (unfold WATCHLIST; rewrite Ha; exact Ecsv).
    split; [exact Hw|]. intros symbol. unfold addStart, CSV_TICKERS. rewrite Hw, Ecsv.
    rewrite Ecsv in Hne. destruct csvTickers as [|c cs]; [congruence|].
    cbn [andb]. destruct (includes symbol (c :: cs)); reflexivity.
Qed.

(** An [add-ticker] that runs from start to end with no other handler
    waiting on its fetch never puts a ticker on the watchlist twice: the
    list grows by at most the symbol, at its end, and only when the symbol
    was not on it. *)
Theorem addTicker_keeps_NoDup (symbol : string) (fetchable : bool) (s : Lists) :
  pending s = [] -> NoDup (WATCHLIST s) ->
  NoDup (WATCHLIST (addTicker symbol fetchable s))
  /\ pending (addTicker symbol fetchable s) = []
  /\ (WATCHLIST (addTicker symbol fetchable s) = WATCHLIST s
      \/ (symbol ∉ WATCHLIST s) /\ fetchable = true
         /\ WATCHLIST (addTicker symbol fetchable s) = WATCHLIST s ++ [symbol]).
Proof.
  intros Hp Hnd. unfold addTicker. cbn [handle]. unfold addStart.
  destruct ((match CSV_TICKERS s with [] => false | _ => true end)
            && negb (includes symbol (CSV_TICKERS s))) eqn:Ecsv; cbn [snd].
  - rewrite (addFetched_idle _ _ _ Hp). auto.
  - destruct (includes symbol (WATCHLIST s)) eqn:Ew; cbn [snd].
    + rewrite (addFetched_idle _ _ _ Hp). auto.
    + apply includes_false in Ew. unfold addFetched. cbn [pending]. rewrite Hp.
      replace (includes symbol [symbol]) with true
        by (symmetry; apply includes_true; left).
      cbn [resume]. destruct (decide (symbol = symbol)) as [_|Hne]; [|congruence].
      destruct fetchable; cbn [snd].
      * rewrite WATCHLIST_push, pending_push. unfold WATCHLIST at 1 3 5. cbn.
        fold (WATCHLIST s). split; [|split; [reflexivity|right; auto]].
        apply NoDup_app. split; [exact Hnd|]. split; [|apply NoDup_singleton].
        intros x Hx Hx'. apply list_elem_of_singleton in Hx'. subst. contradiction.
      * unfold WATCHLIST at 1 3. cbn. fold (WATCHLIST s). auto.
Qed.

Lemma addTicker_keeps_NoDup_witness :
  NoDup (WATCHLIST (addTicker "MSFT" true (loadWatchlist [] ["AAPL"; "TSLA"; "NVDA"]))).
Proof.
  apply (addTicker_keeps_NoDup "MSFT" true (loadWatchlist [] ["AAPL"; "TSLA"; "NVDA"]) eq_refl).
  cbn. repeat (constructor; [rewrite ?elem_of_cons, elem_of_nil;
                               intros H; repeat destruct H as [H|H]; discriminate || exact H|]).
  constructor.
Defined.

(** Two [add-ticker] commands for one symbol whose test fetches overlap both
    pass the check and both push: the symbol is on the watchlist twice.  One
    [remove-ticker] then takes out both copies and leaves the list as it was
    before the two commands, with the CSV list untouched. *)
Theorem overlapping_adds_duplicate (symbol : string) (s : Lists) :
  fst (addStart symbol s) = None ->
  WATCHLIST (handleAll s [AddStart symbol; AddStart symbol;
                          AddFetched symbol true; AddFetched symbol true])
  = WATCHLIST s ++ [symbol; symbol]
  /\ removeTicker symbol
       (handleAll s [AddStart symbol; AddStart symbol;
                     AddFetched symbol true; AddFetched symbol true])
     = (Removed,
        {| csv := csv (handleAll s [AddStart symbol; AddStart symbol;
                                    AddFetched symbol true; AddFetched symbol true]);
           own := WATCHLIST s; aliased := false; pending := pending s |}).
Proof.
  intros Hstart.
  assert (Hnot : symbol ∉ WATCHLIST s).
  { unfold addStart in Hstart.
    destruct ((match CSV_TICKERS s with [] => false | _ => true end)
              && negb (includes symbol (CSV_TICKERS s))); [discriminate|].
    destruct (includes symbol (WATCHLIST s)) eqn:Ew; [discriminate|].
    apply includes_false. exact Ew. }
  assert (Hs1 : snd (addStart symbol s)
                = {| csv := csv s; own := own s; aliased := aliased s;
                     pending := symbol :: pending s |}).
  { unfold addStart in *.
    destruct ((match CSV_TICKERS s with [] => false | _ => true end)
              && negb (includes symbol (CSV_TICKERS s))); [discriminate|].
    destruct (includes symbol (WATCHLIST s)); [discriminate|]. reflexivity. }
  set (s1 := {| csv := csv s; own := own s; aliased := aliased s;
                pending := symbol :: pending s |}) in *.
  assert (Hs2 : snd (addStart symbol s1)
                = {| csv := csv s; own := own s; aliased := aliased s;
                     pending := symbol :: symbol :: pending s |}).
  { unfold addStart in *. unfold CSV_TICKERS, WATCHLIST in *. cbn [csv own aliased s1].
    destruct ((match csv s with [] => false | _ => true end)
              && negb (includes symbol (csv s))); [discriminate|].
    destruct (includes symbol (if aliased s then csv s else own s)); [discriminate|].
    reflexivity. }
  set (s2 := {| csv := csv s; own := own s; aliased := aliased s;
                pending := symbol :: symbol :: pending s |}) in *.
  assert (Hin : forall rest, includes symbol (symbol :: rest) = true)
    by (intros rest; apply includes_true; left).
  assert (Hres : forall rest, resume symbol (symbol :: rest) = rest).
  { intros rest. cbn. destruct (decide (symbol = symbol)); congruence. }
  assert (Hfinal : handleAll s [AddStart symbol; AddStart symbol;
                                AddFetched symbol true; AddFetched symbol true]
                   = push symbol (push symbol {| csv := csv s; own := own s;
                                                 aliased := aliased s;
                                                 pending := pending s |})).
  { unfold handleAll. cbn [fold_left handle]. rewrite Hs1, Hs2.
    unfold addFetched at 2. cbn [pending s2]. rewrite Hin, Hres. cbn [snd csv own aliased].
    unfold addFetched. rewrite pending_push. cbn [pending]. rewrite Hin, Hres. cbn [snd].
    unfold push. cbn [csv own aliased pending]. destruct (aliased s); cbn; rewrite ?Hres; reflexivity. }
  rewrite Hfinal.
  assert (Hw : WATCHLIST (push symbol (push symbol {| csv := csv s; own := own s;
                                                      aliased := aliased s;
                                                      pending := pending s |}))
               = WATCHLIST s ++ [symbol; symbol]).
  { rewrite !WATCHLIST_push. rewrite <- app_assoc. reflexivity. }
  split; [exact Hw|].
  unfold removeTicker. rewrite Hw.
  replace (includes symbol (WATCHLIST s ++ [symbol; symbol])) with true
    by (symmetry; apply includes_true, elem_of_app; right; left).
  cbn [negb]. f_equal. rewrite !pending_push. cbn [pending]. f_equal.
  rewrite filter_app, (filter_other_id _ _ Hnot).
  rewrite filter_cons_False by (intros H; apply H; reflexivity).
  rewrite filter_cons_False by (intros H; apply H; reflexivity).
  rewrite filter_nil. apply app_nil_r.
Qed.

Lemma overlapping_adds_duplicate_witness :
  WATCHLIST (handleAll (loadWatchlist [] ["AAPL"; "TSLA"; "NVDA"])
               [AddStart "MSFT"; AddStart "MSFT";
                AddFetched "MSFT" true; AddFetched "MSFT" true])
  = ["AAPL"; "TSLA"; "NVDA"; "MSFT"; "MSFT"].
Proof.
  apply (proj1 (overlapping_adds_duplicate "MSFT"
                  (loadWatchlist [] ["AAPL"; "TSLA"; "NVDA"]) eq_refl)).
Defined.

End WatchlistFacts.

(** ** The momentum bot's watchlist commands *)

Section MomentumWatchlistFacts.
Import MomentumWatchlist.

Lemma momentum_handle_valid (known : list string) s c :
  Forall (fun x => x ∈ known \/ validFormat x = true) (WATCHLIST s ++ pending s) ->
  Forall (fun x => x ∈ known \/ validFormat x = true)
         (WATCHLIST (handle s c) ++ pending (handle s c)).
Proof.
  intros H. destruct c as [symbol|symbol found|symbol]; cbn [handle].
  - unfold addStart. destruct (validFormat symbol) eqn:Ev; cbn [negb snd]; [|exact H].
    destruct (Watchlist.includes symbol (WATCHLIST s)); cbn [snd]; [exact H|].
    cbn [WATCHLIST pending]. apply Forall_app in H as [Hw Hp].
    apply Forall_app. split; [exact Hw|]. constructor; [right; exact Ev|exact Hp].
  - unfold addFetched. destruct (Watchlist.includes symbol (pending s)) eqn:Ep;
      cbn [snd]; [|exact H].
    apply includes_true in Ep. apply Forall_app in H as [Hw Hp].
    assert (Hsym : symbol ∈ known \/ validFormat symbol = true).
    { rewrite Forall_forall in Hp. apply Hp, Ep. }
    assert (Hres : Forall (fun x => x ∈ known \/ validFormat x = true)
                          (Watchlist.resume symbol (pending s))).
    { rewrite Forall_forall in *. intros x Hx. apply Hp. eapply resume_subset, Hx. }
    destruct found; cbn [snd WATCHLIST pending].
    + apply Forall_app. split; [|exact Hres].
      apply Forall_app. split; [exact Hw|]. constructor; [exact Hsym|constructor].
    + apply Forall_app. split; assumption.
  - unfold removeTicker. destruct (Watchlist.includes symbol (WATCHLIST s));
      cbn [negb snd]; [|exact H].
    cbn [WATCHLIST pending]. apply Forall_app in H as [Hw Hp].
    apply Forall_app. split; [|exact Hp].
    rewrite Forall_forall in *. intros x Hx. apply Hw.
    apply list_elem_of_filter in Hx as [_ Hx]. exact Hx.
Qed.

Lemma validFormat_spec (x : string) :
  validFormat x = true ->
  (1 <= String.length x <= 8)%nat
  /\ Forall (fun c => tickerChar c = true) (String.list_ascii_of_string x).
Proof.
  unfold validFormat. rewrite !andb_true_iff. intros [[H1 H2] H3].
  apply Nat.leb_le in H1. apply Nat.leb_le in H2. split; [lia|].
  rewrite forallb_forall in H3. rewrite Forall_forall. intros c Hc.
  apply H3. apply list_elem_of_In. exact Hc.
Qed.

(** However the commands and their fetches interleave, a ticker on the
    momentum bot's watchlist was either loaded at start-up or passed the
    format check: one to eight characters, each a capital letter, a digit, a
    dot or a hyphen.  When the file was missing or unreadable the defaults
    pass it too, so then every ticker on the list is of that form. *)
Theorem momentum_watchlist_well_formed (f : File) (cmds : list Command) :
  Forall (fun x => x ∈ loadWatchlist f
                   \/ (1 <= String.length x <= 8)%nat
                      /\ Forall (fun c => tickerChar c = true) (String.list_ascii_of_string x))
         (WATCHLIST (handleAll (started f) cmds))
  /\ (f = Missing \/ f = Unparsable ->
      Forall (fun x => validFormat x = true) (WATCHLIST (handleAll (started f) cmds))).
Proof.
  assert (Hall : forall s, Forall (fun x => x ∈ loadWatchlist f \/ validFormat x = true)
                                  (WATCHLIST s ++ pending s) ->
                 Forall (fun x => x ∈ loadWatchlist f \/ validFormat x = true)
                        (WATCHLIST (handleAll s cmds) ++ pending (handleAll s cmds))).
  { induction cmds as [|c cs IH]; intros s Hs; [exact Hs|].
    cbn. apply IH. apply momentum_handle_valid, Hs. }
  specialize (Hall (started f)). cbn [started WATCHLIST pending] in Hall.
  rewrite app_nil_r in Hall.
  assert (H0 : Forall (fun x => x ∈ loadWatchlist f \/ validFormat x = true) (loadWatchlist f)).
  { rewrite Forall_forall. intros x Hx. left. exact Hx. }
  apply Hall, Forall_app in H0 as [Hw _]. split.
  - eapply Forall_impl; [exact Hw|]. intros x [Hx|Hx]; [left; exact Hx|right].
    apply validFormat_spec, Hx.
  - intros Hf. eapply Forall_impl; [exact Hw|]. intros x [Hx|Hx]; [|exact Hx].
    assert (Hd : Forall (fun x => validFormat x = true) (loadWatchlist f)).
    { destruct Hf as [-> | ->]; cbn; repeat constructor. }
    rewrite Forall_forall in Hd. apply Hd, Hx.
Qed.

End MomentumWatchlistFacts.

(** ** Overlapping scan passes of the MACD bot *)

Section PassesFacts.
Import Num Analyzer AlertGate Scan Passes.

Lemma filter_resume (t sym : string) (l : list string) :
  sym ∈ l ->
  (length (filter (fun x => x = t) (Watchlist.resume sym l))
   + (if decide (sym = t) then 1 else 0)
   = length (filter (fun x => x = t) l))%nat.
Proof.
  induction l as [|x l IH]; intros Hin; [inversion Hin|].
  cbn [Watchlist.resume]. destruct (decide (x = sym)) as [->|Hne].
  - destruct (decide (sym = t)) as [->|Hst].
    + rewrite filter_cons_True by reflexivity. cbn. lia.
    + rewrite filter_cons_False by exact Hst. lia.
  - apply elem_of_cons in Hin as [->|Hin]; [congruence|].
    specialize (IH Hin). destruct (decide (x = t)) as [->|Hxt].
    + rewrite !filter_cons_True by reflexivity. cbn [length]. lia.
    + rewrite !filter_cons_False by exact Hxt. exact IH.
Qed.

(** What the first half of a turn does to the alert state: nothing, or the
    day rollover of [canAlert]; and it suspends at the send only when
    [canAlert] said yes. *)
Lemma scanBeforeSend_state sym fetched today checkedAt st :
  (snd (scanBeforeSend sym fetched today checkedAt st) = st
   \/ snd (scanBeforeSend sym fetched today checkedAt st) = resetDailyCounts today st)
  /\ (forall res, fst (scanBeforeSend sym fetched today checkedAt st) = Sending res ->
        fst (canAlert today checkedAt sym st) = true
        /\ snd (scanBeforeSend sym fetched today checkedAt st)
           = resetDailyCounts today st).
Proof.
  unfold scanBeforeSend.
  pose proof (canAlertWith_state MAX_ALERTS_PER_DAY ALERT_COOLDOWN_MINUTES
                today checkedAt sym st) as Hs. fold canAlert in Hs.
  destruct (analyzeTicker sym fetched) as [res|]; [|split; [auto|discriminate]].
  destruct (cross res) as [c|]; [|split; [auto|discriminate]].
  destruct (canAlert today checkedAt sym st) as [ok st1]. cbn [snd fst] in *. subst st1.
  destruct ok; cbn [negb]; [|split; [auto|discriminate]].
  destruct c; [|split; [auto|discriminate]].
  destruct (negb (js_gt (histNow res) (histPrev res))); [split; [auto|discriminate]|].
  destruct (negb (Qlt_bool (prevPrice res) (price res))); [split; [auto|discriminate]|].
  split; [auto|]. intros _ _. auto.
Qed.

Lemma inFlight_cons t sym st l :
  inFlight t {| gate := st; sending := sym :: l |}
  = ((if decide (sym = t) then 1 else 0) + inFlight t {| gate := st; sending := l |})%nat.
Proof.
  unfold inFlight. cbn [sending]. destruct (decide (sym = t)) as [->|Hne].
  - rewrite filter_cons_True by reflexivity. reflexivity.
  - rewrite filter_cons_False by exact Hne. reflexivity.
Qed.

(** One turn keeps count plus awaited sends under the quota plus the width. *)
Lemma turn_bound m t b x :
  (countToday (gate b) t + inFlight t b < MAX_ALERTS_PER_DAY + m)%nat ->
  (inFlight t (turn b x) <= m)%nat ->
  (countToday (gate (turn b x)) t + inFlight t (turn b x) < MAX_ALERTS_PER_DAY + m)%nat.
Proof.
  intros Hinv Hw. destruct x as [sym fetched today checkedAt|sym delivered recordedAt];
    cbn [turn] in *.
  - destruct (scanBeforeSend_state sym fetched today checkedAt (gate b)) as [Hst Hsend].
    assert (Hcount : (countToday (snd (scanBeforeSend sym fetched today checkedAt (gate b))) t
                      <= countToday (gate b) t)%nat).
    { destruct Hst as [-> | ->]; [lia|apply countToday_reset]. }
    destruct (scanBeforeSend sym fetched today checkedAt (gate b)) as [[o|res] st1];
      cbn [fst snd gate] in *.
    + unfold inFlight in *. cbn [sending] in *. lia.
    + destruct (Hsend res eq_refl) as [Hok Hst1].
      rewrite inFlight_cons in *. destruct (decide (sym = t)) as [->|Hne].
      * pose proof (canAlert_allow_room today checkedAt t (gate b) Hok) as Hroom.
        unfold canAlert in Hroom. rewrite canAlertWith_state in Hroom.
        rewrite <- Hst1 in Hroom. lia.
      * unfold inFlight in *. cbn [sending] in *. lia.
  - destruct (Watchlist.includes sym (sending b)) eqn:Hin; [|exact Hinv].
    apply includes_true in Hin.
    pose proof (filter_resume t sym (sending b) Hin) as Hres.
    unfold inFlight in *. cbn [sending gate] in *.
    unfold scanAfterSend. destruct delivered.
    + destruct (decide (sym = t)) as [->|Hne].
      * rewrite countToday_recordAlert. lia.
      * rewrite countToday_recordAlert_ne by exact Hne. lia.
    + destruct (decide (sym = t)); lia.
Qed.

(** With at most [m] notifications for a ticker awaiting their
    [channel.send] at any moment (at most [m] passes in flight), the
    ticker's count for the day plus the notifications still awaited stays
    below [MAX_ALERTS_PER_DAY + m], however the turns of the passes
    interleave.  So a pass that runs alone ([m = 1]) never takes a count
    above 20, and [m] overlapping passes can take it to [19 + m] at most. *)
Theorem passes_keep_quota_up_to_width (m : nat) (t : string) (b : Bot) (ts : list Turn) :
  (countToday (gate b) t + inFlight t b < MAX_ALERTS_PER_DAY + m)%nat ->
  width m t b ts ->
  (countToday (gate (turns b ts)) t + inFlight t (turns b ts)
   < MAX_ALERTS_PER_DAY + m)%nat.
Proof.
  revert b. induction ts as [|x ts IH]; intros b Hinv Hw; [exact Hinv|].
  cbn [turns fold_left]. apply IH.
  - apply turn_bound; [exact Hinv|]. apply (Hw 1%nat).
  - intros k. apply (Hw (S k)).
Qed.

Lemma passes_keep_quota_up_to_width_witness :
  (countToday (gate (turns (idle Samples.freshGate)
                       [BeforeSend "AAPL" (Some (Samples.barsOf Samples.reversalUp))
                                   "Sun Nov 01 2026" 1793500000000;
                        AfterSend "AAPL" true 1793500000100])) "AAPL"
   + inFlight "AAPL" (turns (idle Samples.freshGate)
                        [BeforeSend "AAPL" (Some (Samples.barsOf Samples.reversalUp))
                                    "Sun Nov 01 2026" 1793500000000;
                         AfterSend "AAPL" true 1793500000100])
   < MAX_ALERTS_PER_DAY + 1)%nat.
Proof.
  apply (passes_keep_quota_up_to_width 1 "AAPL" (idle Samples.freshGate)).
  - vm_compute. lia.
  - intros [|[|[|k]]]; vm_compute; lia.
Defined.

Lemma canAlert_later today c1 c2 sym st :
  (c1 <= c2)%Z -> fst (canAlert today c1 sym st) = true ->
  fst (canAlert today c2 sym st) = true.
Proof.
  intros Hc. unfold canAlert, canAlertWith.
  destruct (MAX_ALERTS_PER_DAY <=? countToday (resetDailyCounts today st) sym)%nat;
    [auto|].
  destruct (lastAlertAt (resetDailyCounts today st) !! sym) as [last|]; [|auto].
  destruct (last =? 0)%Z; [auto|]. cbn [fst].
  rewrite !Qle_bool_iff. intros H. eapply Qle_trans; [exact H|].
  unfold Qdiv. apply Qmult_le_compat_r; [|discriminate].
  rewrite <- Zle_Qle. lia.
Qed.

Lemma resetDailyCounts_idem today st :
  resetDailyCounts today (resetDailyCounts today st) = resetDailyCounts today st.
Proof.
  destruct (decide (today = lastDailyReset st)) as [He|Hne].
  - assert (H0 : resetDailyCounts today st = st).
    { unfold resetDailyCounts. rewrite decide_True by exact He. reflexivity. }
    rewrite !H0. reflexivity.
  - assert (H1 : resetDailyCounts today st
                 = {| lastAlertAt := lastAlertAt st; dailyAlerts := ∅;
                      lastDailyReset := today |}).
    { unfold resetDailyCounts. rewrite decide_False by exact Hne. reflexivity. }
    rewrite H1. unfold resetDailyCounts. cbn [lastDailyReset].
    rewrite decide_True by reflexivity. reflexivity.
Qed.

(** Between passes, a ticker's last-alert time and count change only when a
    notification for it is delivered: through every interleaving of turns
    none of which is the resumption of a delivered send for [t], the
    last-alert time of [t] stays what it was and its count does not grow;
    in particular a [channel.send] that throws records nothing, and no
    cooldown starts.  And a turn that is let through to the send would be
    let through again while the send is awaited: a second pass that reaches
    the same symbol meanwhile (its clock reading no earlier) also sends, and
    both record, which raises the count by two. *)
Theorem alert_recorded_only_when_delivered (t : string) (b : Bot) (ts : list Turn) :
  forallb (fun x => negb (delivers t x)) ts = true ->
  lastAlertAt (gate (turns b ts)) !! t = lastAlertAt (gate b) !! t
  /\ (countToday (gate (turns b ts)) t <= countToday (gate b) t)%nat
  /\ (forall fetched today c1 c2 res st1 r1 r2,
        scanBeforeSend t fetched today c1 (gate b) = (Sending res, st1) ->
        (c1 <= c2)%Z ->
        scanBeforeSend t fetched today c2 st1 = (Sending res, st1)
        /\ countToday (scanAfterSend t true r2 (scanAfterSend t true r1 st1)) t
           = (countToday st1 t + 2)%nat).
Proof.
  intros Hts. split; [|split].
  - revert b. induction ts as [|x ts IH]; intros b; [reflexivity|].
    cbn in Hts. apply andb_true_iff in Hts as [Hx Hts].
    cbn [turns fold_left]. fold (turns (turn b x) ts). rewrite (IH Hts).
    destruct x as [sym fetched today checkedAt|sym delivered recordedAt]; cbn [turn].
    + destruct (scanBeforeSend_state sym fetched today checkedAt (gate b)) as [Hst _].
      destruct (scanBeforeSend sym fetched today checkedAt (gate b)) as [[o|res] st1];
        cbn [snd gate] in *;
        (destruct Hst as [-> | ->]; [reflexivity|];
         rewrite resetDailyCounts_lastAlertAt; reflexivity).
    + destruct (Watchlist.includes sym (sending b)); [|reflexivity].
      cbn [gate]. unfold scanAfterSend. destruct delivered; [|reflexivity].
      cbn [delivers] in Hx. destruct (decide (sym = t)) as [->|Hne]; [discriminate|].
      unfold recordAlert. cbn [lastAlertAt]. apply lookup_insert_ne. exact Hne.
  - revert b. induction ts as [|x ts IH]; intros b; [reflexivity|].
    cbn in Hts. apply andb_true_iff in Hts as [Hx Hts].
    cbn [turns fold_left]. fold (turns (turn b x) ts).
    etransitivity; [apply (IH Hts)|].
    destruct x as [sym fetched today checkedAt|sym delivered recordedAt]; cbn [turn].
    + destruct (scanBeforeSend_state sym fetched today checkedAt (gate b)) as [Hst _].
      destruct (scanBeforeSend sym fetched today checkedAt (gate b)) as [[o|res] st1];
        cbn [snd gate] in *;
        (destruct Hst as [-> | ->]; [reflexivity|apply countToday_reset]).
    + destruct (Watchlist.includes sym (sending b)); [|reflexivity].
      cbn [gate]. unfold scanAfterSend. destruct delivered; [|reflexivity].
      cbn [delivers] in Hx. destruct (decide (sym = t)) as [->|Hne]; [discriminate|].
      rewrite countToday_recordAlert_ne by exact Hne. reflexivity.
  - intros fetched today c1 c2 res st1 r1 r2 Hfirst Hc.
    destruct (scanBeforeSend_state t fetched today c1 (gate b)) as [_ Hsend].
    rewrite Hfirst in Hsend. cbn [fst snd] in Hsend.
    destruct (Hsend res eq_refl) as [Hok ->]. split.
    + assert (Hok2 : canAlert today c2 t (resetDailyCounts today (gate b))
                     = (true, resetDailyCounts today (gate b))).
      { pose proof (canAlertWith_state MAX_ALERTS_PER_DAY ALERT_COOLDOWN_MINUTES
                      today c2 t (resetDailyCounts today (gate b))) as Hs.
        fold canAlert in Hs. rewrite resetDailyCounts_idem in Hs.
        assert (Hf : fst (canAlert today c2 t (resetDailyCounts today (gate b))) = true).
        { apply (canAlert_later today c1 c2); [exact Hc|].
          unfold canAlert, canAlertWith in *. rewrite resetDailyCounts_idem. exact Hok. }
        destruct (canAlert today c2 t (resetDailyCounts today (gate b))) as [ok st2].
        cbn [fst snd] in *. subst. reflexivity. }
      unfold scanBeforeSend in *.
      destruct (analyzeTicker t fetched) as [res0|]; [|discriminate].
      destruct (cross res0) as [c|]; [|discriminate].
      rewrite Hok2. cbn [negb].
      destruct (canAlert today c1 t (gate b)) as [ok st0].
      destruct ok; cbn [negb] in Hfirst; [|discriminate].
      destruct c; [|discriminate].
      destruct (negb (js_gt (histNow res0) (histPrev res0))); [discriminate|].
      destruct (negb (Qlt_bool (prevPrice res0) (price res0))); [discriminate|].
      injection Hfirst as -> _. reflexivity.
    + unfold scanAfterSend. rewrite !countToday_recordAlert. lia.
Qed.

Lemma alert_recorded_only_when_delivered_witness :
  lastAlertAt (gate (turns (idle Samples.freshGate)
                       [BeforeSend "AAPL" (Some (Samples.barsOf Samples.reversalUp))
                                   "Sun Nov 01 2026" 1793500000000;
                        AfterSend "AAPL" false 1793500000100])) !! "AAPL"
  = lastAlertAt (gate (idle Samples.freshGate)) !! "AAPL".
Proof.
  apply (alert_recorded_only_when_delivered "AAPL" (idle Samples.freshGate)
           [BeforeSend "AAPL" (Some (Samples.barsOf Samples.reversalUp))
                       "Sun Nov 01 2026" 1793500000000;
            AfterSend "AAPL" false 1793500000100] eq_refl).
Defined.

(** Two passes that overlap at a ticker with 19 alerts today: both are let
    through, both record, and the count is 21. *)
Example two_passes_exceed_quota :
  let st := {| lastAlertAt := ∅; dailyAlerts := {["AAPL" := 19%nat]};
               lastDailyReset := "Sun Nov 01 2026" |} in
  let bars := Some (Samples.barsOf Samples.reversalUp) in
  countToday (gate (turns (idle st)
                      [BeforeSend "AAPL" bars "Sun Nov 01 2026" 1793500000000;
                       BeforeSend "AAPL" bars "Sun Nov 01 2026" 1793500000050;
                       AfterSend "AAPL" true 1793500000100;
                       AfterSend "AAPL" true 1793500000150])) "AAPL" = 21%nat.
Proof. vm_compute. reflexivity. Qed.

End PassesFacts.

(** ** Overlapping scans of the momentum bot *)

Section MomentumPassesFacts.
Import Num MomentumScanner MomentumBot MomentumPasses.

(** What the first half of a turn does to the scanner. *)
Lemma momentum_before_state ticker data today checkedAt sc :
  (snd (scanBeforeSend ticker data today checkedAt sc) = sc
   /\ (forall n, fst (scanBeforeSend ticker data today checkedAt sc) <> Sending n)
   /\ (data = None \/ exists d, data = Some d /\ fst (checkMomentum (Some d)) = false))
  \/ (snd (scanBeforeSend ticker data today checkedAt sc) = resetDailyCounters today sc
      /\ (forall n, fst (scanBeforeSend ticker data today checkedAt sc) <> Sending n)
      /\ fst (canSendAlert today checkedAt ticker sc) = false
      /\ exists d, data = Some d /\ fst (checkMomentum (Some d)) = true)
  \/ (exists d, data = Some d /\ fst (checkMomentum (Some d)) = true
      /\ fst (canSendAlert today checkedAt ticker sc) = true
      /\ scanBeforeSend ticker data today checkedAt sc
         = (Sending (S (counted (resetDailyCounters today sc) ticker)),
            resetDailyCounters today sc)).
Proof.
  unfold scanBeforeSend. destruct data as [d|];
    [|left; split; [reflexivity|split; [discriminate|auto]]].
  destruct (checkMomentum (Some d)) as [isMomentum reason] eqn:Ec.
  destruct isMomentum.
  - pose proof (canSendAlert_state today checkedAt ticker sc) as Hs.
    destruct (canSendAlert today checkedAt ticker sc) as [ok sc1].
    cbn [fst snd] in *. subst sc1. destruct ok.
    + right. right. exists d. rewrite Ec. repeat split.
      unfold getAlertNumber, counted. f_equal. f_equal. lia.
    + right. left. split; [reflexivity|]. split; [discriminate|].
      split; [reflexivity|]. exists d. rewrite Ec. auto.
  - left. split; [reflexivity|]. split; [discriminate|].
    right. exists d. rewrite Ec. auto.
Qed.

Lemma momentum_inFlight_cons t ticker sc l :
  inFlight t {| scanner := sc; sending := ticker :: l |}
  = ((if decide (ticker = t) then 1 else 0)
     + inFlight t {| scanner := sc; sending := l |})%nat.
Proof.
  unfold inFlight. cbn [sending]. destruct (decide (ticker = t)) as [->|Hne].
  - rewrite filter_cons_True by reflexivity. reflexivity.
  - rewrite filter_cons_False by exact Hne. reflexivity.
Qed.

Lemma momentum_turn_bound m t b x :
  (counted (scanner b) t + inFlight t b < MAX_ALERTS_PER_STOCK + m)%nat ->
  (inFlight t (turn b x) <= m)%nat ->
  (counted (scanner (turn b x)) t + inFlight t (turn b x) < MAX_ALERTS_PER_STOCK + m)%nat.
Proof.
  intros Hinv Hw. destruct x as [ticker data today checkedAt|ticker delivered recordedAt];
    cbn [turn] in *.
  - destruct (momentum_before_state ticker data today checkedAt (scanner b))
      as [(Hst & Hno & _)|[(Hst & Hno & _ & _)|(d & _ & _ & Hok & Heq)]].
    + destruct (scanBeforeSend ticker data today checkedAt (scanner b)) as [[|reason|n] sc1];
        cbn [fst snd scanner] in *; subst sc1;
        [exact Hinv|exact Hinv|exfalso; apply (Hno n); reflexivity].
    + pose proof (counted_reset today (scanner b) t) as Hc.
      destruct (scanBeforeSend ticker data today checkedAt (scanner b)) as [[|reason|n] sc1];
        cbn [fst snd scanner] in *; subst sc1;
        [unfold inFlight in *; cbn [sending] in *; lia
        |unfold inFlight in *; cbn [sending] in *; lia
        |exfalso; apply (Hno n); reflexivity].
    + rewrite Heq in *. cbn [scanner] in *.
      pose proof (counted_reset today (scanner b) t) as Hc.
      rewrite momentum_inFlight_cons in *. destruct (decide (ticker = t)) as [->|Hne].
      * pose proof (canSendAlert_room today checkedAt t (scanner b) Hok) as Hroom.
        unfold inFlight in *. cbn [sending] in *. lia.
      * unfold inFlight in *. cbn [sending] in *. lia.
  - destruct (Watchlist.includes ticker (sending b)) eqn:Hin; [|exact Hinv].
    apply includes_true in Hin.
    pose proof (filter_resume t ticker (sending b) Hin) as Hres.
    unfold inFlight in *. cbn [sending scanner] in *.
    unfold scanAfterSend. destruct delivered.
    + destruct (decide (ticker = t)) as [->|Hne].
      * rewrite counted_recordAlert. lia.
      * rewrite counted_recordAlert_ne by exact Hne. lia.
    + destruct (decide (ticker = t)); lia.
Qed.

(** With at most [m] alerts for a ticker awaiting their [channel.send] at
    any moment (at most [m] scans in flight on the scanner), the ticker's
    count plus the alerts still awaited stays below
    [MAX_ALERTS_PER_STOCK + m], however the turns interleave: a scan that
    runs alone keeps the cap of 20, [m] overlapping scans can reach
    [19 + m]. *)
Theorem scans_keep_quota_up_to_width (m : nat) (t : string) (b : Bot) (ts : list Turn) :
  (counted (scanner b) t + inFlight t b < MAX_ALERTS_PER_STOCK + m)%nat ->
  width m t b ts ->
  (counted (scanner (turns b ts)) t + inFlight t (turns b ts)
   < MAX_ALERTS_PER_STOCK + m)%nat.
Proof.
  revert b. induction ts as [|x ts IH]; intros b Hinv Hw; [exact Hinv|].
  cbn [turns fold_left]. apply IH.
  - apply momentum_turn_bound; [exact Hinv|]. apply (Hw 1%nat).
  - intros k. apply (Hw (S k)).
Qed.

Lemma scans_keep_quota_up_to_width_witness :
  (counted (scanner (turns (idle Quotes.freshScanner)
                       [BeforeSend "SOFI" (Some Quotes.lively)
                                   "Sun Nov 01 2026" 1793500001300;
                        AfterSend "SOFI" true 1793500001500])) "SOFI"
   + inFlight "SOFI" (turns (idle Quotes.freshScanner)
                        [BeforeSend "SOFI" (Some Quotes.lively)
                                    "Sun Nov 01 2026" 1793500001300;
                         AfterSend "SOFI" true 1793500001500])
   < MAX_ALERTS_PER_STOCK + 1)%nat.
Proof.
  apply (scans_keep_quota_up_to_width 1 "SOFI" (idle Quotes.freshScanner)).
  - vm_compute. lia.
  - intros [|[|[|k]]]; vm_compute; lia.
Defined.

Lemma resetDailyCounters_idem today sc :
  resetDailyCounters today (resetDailyCounters today sc) = resetDailyCounters today sc.
Proof.
  destruct (decide (today = lastReset sc)) as [He|Hne].
  - assert (H0 : resetDailyCounters today sc = sc).
    { unfold resetDailyCounters. rewrite decide_True by exact He. reflexivity. }
    rewrite !H0. reflexivity.
  - assert (H1 : resetDailyCounters today sc
                 = {| alertHistory := alertHistory sc; alertCounter := ∅;
                      lastReset := today |}).
    { unfold resetDailyCounters. rewrite decide_False by exact Hne. reflexivity. }
    rewrite H1. unfold resetDailyCounters. cbn [lastReset].
    rewrite decide_True by reflexivity. reflexivity.
Qed.

Lemma canSendAlert_later today c1 c2 t sc :
  (c1 <= c2)%Z -> fst (canSendAlert today c1 t sc) = true ->
  fst (canSendAlert today c2 t sc) = true.
Proof.
  intros Hc. unfold canSendAlert.
  destruct (MAX_ALERTS_PER_STOCK
            <=? default 0%nat (alertCounter (resetDailyCounters today sc) !! t))%nat;
    [auto|].
  destruct (alertHistory (resetDailyCounters today sc) !! t) as [last|]; [|auto].
  destruct (Qlt_bool (inject_Z (c1 - last) / 60000) ALERT_COOLDOWN_MINUTES) eqn:E1;
    [cbn; discriminate|]. intros _.
  destruct (Qlt_bool (inject_Z (c2 - last) / 60000) ALERT_COOLDOWN_MINUTES) eqn:E2;
    [|reflexivity].
  exfalso. apply Qlt_bool_iff in E2.
  assert (E1' : ~ (inject_Z (c1 - last) / 60000 < ALERT_COOLDOWN_MINUTES)%Q).
  { intros H. apply Qlt_bool_iff in H. congruence. }
  apply E1'. eapply Qle_lt_trans; [|exact E2].
  unfold Qdiv. apply Qmult_le_compat_r; [|discriminate].
  rewrite <- Zle_Qle. lia.
Qed.

(** An alert is handed to the channel only for a sample that passed
    [checkMomentum] and a ticker [canSendAlert] allowed, and the number in
    its title ("Alert #n") is one more than the ticker's count at that
    moment, before the send is awaited.  A rejected sample, or no data,
    leaves the scanner exactly as it was: the gate is not consulted, so not
    even the day rollover happens.  When the send resolves with no other
    turn in between, the recorded count is the number shown.  But a second
    scan that reaches the ticker while the send is awaited (its clock
    reading no earlier) is let through too and shows the same number; with
    both recorded the count is one above the number both alerts carry. *)
Theorem alert_number_read_before_send
    (ticker : string) (data : option StockData) (today : string) (checkedAt : Z)
    (sc : Scanner) (n : nat) :
  fst (scanBeforeSend ticker data today checkedAt sc) = Sending n ->
  (exists d, data = Some d /\ fst (checkMomentum (Some d)) = true)
  /\ fst (canSendAlert today checkedAt ticker sc) = true
  /\ n = S (counted (snd (scanBeforeSend ticker data today checkedAt sc)) ticker)
  /\ (forall recordedAt,
        counted (scanAfterSend ticker true recordedAt
                   (snd (scanBeforeSend ticker data today checkedAt sc))) ticker = n)
  /\ (forall c2 r1 r2, (checkedAt <= c2)%Z ->
        let sc1 := snd (scanBeforeSend ticker data today checkedAt sc) in
        scanBeforeSend ticker data today c2 sc1 = (Sending n, sc1)
        /\ counted (scanAfterSend ticker true r2 (scanAfterSend ticker true r1 sc1)) ticker
           = S n)
  /\ (forall other,
        (other = None \/ exists d, other = Some d /\ fst (checkMomentum (Some d)) = false) ->
        scanBeforeSend ticker other today checkedAt sc
        = (fst (scanBeforeSend ticker other today checkedAt sc), sc)).
Proof.
  intros Hn.
  destruct (momentum_before_state ticker data today checkedAt sc)
    as [(_ & Hno & _)|[(_ & Hno & _ & _)|(d & Hd & Hm & Hok & Heq)]];
    [exfalso; apply (Hno n Hn)|exfalso; apply (Hno n Hn)|].
  rewrite Heq in *. cbn [fst snd] in *. injection Hn as <-.
  split; [eauto|]. split; [exact Hok|]. split; [reflexivity|].
  split; [intros recordedAt; unfold scanAfterSend; apply counted_recordAlert|].
  split.
  - intros c2 r1 r2 Hc. cbv zeta. split.
    + destruct (momentum_before_state ticker data today c2 (resetDailyCounters today sc))
        as [(_ & _ & [Hnone|(d' & Hd' & Hrej)])|[(_ & _ & Hden & _)|(d' & _ & _ & _ & Heq2)]].
      * congruence.
      * rewrite Hd in Hd'. injection Hd' as <-. congruence.
      * exfalso.
        assert (Hal : fst (canSendAlert today c2 ticker (resetDailyCounters today sc)) = true).
        { apply (canSendAlert_later today checkedAt c2); [exact Hc|].
          unfold canSendAlert in *. rewrite resetDailyCounters_idem. exact Hok. }
        congruence.
      * rewrite Heq2, resetDailyCounters_idem. reflexivity.
    + unfold scanAfterSend. rewrite !counted_recordAlert. reflexivity.
  - intros other Hother.
    destruct (momentum_before_state ticker other today checkedAt sc)
      as [(Hst & _ & _)|[(_ & _ & _ & d' & Hd' & Hm')|(d' & Hd' & Hm' & _ & _)]].
    + rewrite <- Hst at 3. apply surjective_pairing.
    + destruct Hother as [->|(d2 & -> & Hrej)]; [discriminate|].
      injection Hd' as <-. congruence.
    + destruct Hother as [->|(d2 & -> & Hrej)]; [discriminate|].
      injection Hd' as <-. congruence.
Qed.

Lemma alert_number_read_before_send_witness :
  counted (scanAfterSend "SOFI" true 1793500001500
             (snd (scanBeforeSend "SOFI" (Some Quotes.lively) "Sun Nov 01 2026"
                     1793500001300 Quotes.freshScanner))) "SOFI" = 1%nat.
Proof.
  apply (proj1 (proj2 (proj2 (proj2
           (alert_number_read_before_send "SOFI" (Some Quotes.lively) "Sun Nov 01 2026"
              1793500001300 Quotes.freshScanner 1
              ltac:(vm_compute; reflexivity)))))).
Defined.

(** Two scans that overlap at a ticker with 19 alerts today: both alerts
    carry the number 20, and the count ends at 21. *)
Example two_scans_exceed_quota :
  let sc := {| alertHistory := ∅; alertCounter := {["SOFI" := 19%nat]};
               lastReset := "Sun Nov 01 2026" |} in
  counted (scanner (turns (idle sc)
                      [BeforeSend "SOFI" (Some Quotes.lively) "Sun Nov 01 2026" 1793500001300;
                       BeforeSend "SOFI" (Some Quotes.lively) "Sun Nov 01 2026" 1793500001350;
                       AfterSend "SOFI" true 1793500001500;
                       AfterSend "SOFI" true 1793500001550])) "SOFI" = 21%nat.
Proof. vm_compute. reflexivity. Qed.

End MomentumPassesFacts.

(** ** The momentum bot's batches *)

Section BatchFacts.
Import MomentumBot.

(** Whatever the readings, the [k]-th batch is cut from the watchlist as it
    is at the [k]-th turn. *)
Lemma batchLoop_lookup readings : forall i k b p,
  batchLoop i readings !! k = Some (b, p) ->
  exists rd, readings !! k = Some rd
    /\ b = take BATCH_SIZE (drop (i + BATCH_SIZE * k) (atSlice rd))
    /\ (i + BATCH_SIZE * k < length (atSlice rd))%nat
    /\ p = (i + BATCH_SIZE * k + BATCH_SIZE <? length (atPause rd))%nat.
Proof.
  induction readings as [|rd readings IH]; intros i k b p H; cbn [batchLoop] in H.
  - discriminate.
  - destruct (Nat.ltb_spec i (length (atSlice rd))) as [Hi|Hi]; [|discriminate].
    destruct k as [|k].
    + cbn in H. injection H as <- <-. exists rd.
      rewrite Nat.mul_0_r, Nat.add_0_r. auto.
    + cbn [lookup list_lookup] in H. apply IH in H.
      destruct H as (rd' & Hrd & Hb & Hk & Hp). exists rd'.
      replace (i + BATCH_SIZE * S k)%nat with (i + BATCH_SIZE + BATCH_SIZE * k)%nat by lia.
      auto.
Qed.

Lemma batchLoop_steady_concat n : forall i (W : list string),
  (length W - i <= n)%nat ->
  concat (map fst (batchLoop i (replicate n {| atSlice := W; atPause := W |})))
  = drop i W.
Proof.
  induction n as [|n IH]; intros i W Hn; cbn [replicate batchLoop atSlice atPause].
  - cbn. symmetry. apply drop_ge. lia.
  - destruct (Nat.ltb_spec i (length W)) as [Hi|Hi].
    + cbn [map fst concat]. rewrite IH by (unfold BATCH_SIZE; lia).
      rewrite <- drop_drop. apply take_drop.
    + cbn. symmetry. apply drop_ge. lia.
Qed.

Lemma batchLoop_steady_is_Some n : forall i (W : list string) k,
  (length W - i <= n)%nat ->
  is_Some (batchLoop i (replicate n {| atSlice := W; atPause := W |}) !! k)
  <-> (i + BATCH_SIZE * k < length W)%nat.
Proof.
  induction n as [|n IH]; intros i W k Hn; cbn [replicate batchLoop atSlice atPause].
  - split; [intros [x Hx]; discriminate|]. unfold BATCH_SIZE. lia.
  - destruct (Nat.ltb_spec i (length W)) as [Hi|Hi].
    + destruct k as [|k].
      * cbn. split; [intros _; lia|eauto].
      * cbn [lookup list_lookup]. rewrite IH by (unfold BATCH_SIZE; lia).
        unfold BATCH_SIZE. lia.
    + split; [intros [x Hx]; discriminate|]. unfold BATCH_SIZE. lia.
Qed.

(** More readings than the loop takes change nothing. *)
Lemma batchLoop_steady_enough n : forall i (W : list string),
  (length W - i <= n)%nat ->
  batchLoop i (replicate (S n) {| atSlice := W; atPause := W |})
  = batchLoop i (replicate n {| atSlice := W; atPause := W |}).
Proof.
  induction n as [|n IH]; intros i W Hn.
  - cbn [replicate batchLoop atSlice].
    destruct (Nat.ltb_spec i (length W)); [lia|reflexivity].
  - change (replicate (S (S n)) ?x) with (x :: replicate (S n) x).
    change (replicate (S n) {| atSlice := W; atPause := W |})
      with ({| atSlice := W; atPause := W |}
            :: replicate n {| atSlice := W; atPause := W |}) at 2.
    cbn [batchLoop atSlice atPause].
    destruct (Nat.ltb_spec i (length W)); [|reflexivity].
    rewrite IH by (unfold BATCH_SIZE; lia). reflexivity.
Qed.

(** [scanAndPost] reads the global [WATCHLIST] anew at every turn of its
    loop.  Whatever the commands do to it meanwhile, the [k]-th batch is
    [slice(5k, 5k + 5)] of the watchlist as it is at that turn, holds one to
    five tickers, and is followed by the pause exactly when the watchlist
    after the batch has more than [5k + 5] tickers.  When no command changes
    the watchlist during the scan, the batches put together are the
    watchlist, ticker by ticker and in order; the pause follows a batch
    exactly when another batch comes after it, and that batch is full; an
    empty watchlist gives no batch; and the loop ends by itself (readings
    beyond those it takes change nothing). *)
Theorem scanAndPost_batches (WATCHLIST : list string) :
  (forall readings k b p, scanAndPost readings !! k = Some (b, p) ->
     exists rd, readings !! k = Some rd
       /\ b = take 5 (drop (5 * k) (atSlice rd))
       /\ (1 <= length b <= 5)%nat
       /\ (p = true <-> (5 * k + 5 < length (atPause rd))%nat))
  /\ concat (map fst (scanAndPost (steady WATCHLIST))) = WATCHLIST
  /\ (forall k b p, scanAndPost (steady WATCHLIST) !! k = Some (b, p) ->
        b = take 5 (drop (5 * k) WATCHLIST)
        /\ (p = true <-> is_Some (scanAndPost (steady WATCHLIST) !! S k))
        /\ (p = true -> length b = 5%nat))
  /\ (WATCHLIST = [] -> scanAndPost (steady WATCHLIST) = [])
  /\ (forall more,
        scanAndPost (replicate (more + S (length WATCHLIST))
                       {| atSlice := WATCHLIST; atPause := WATCHLIST |})
        = scanAndPost (steady WATCHLIST)).
Proof.
  unfold scanAndPost, steady. split; [|split; [|split; [|split]]].
  - intros readings k b p H.
    destruct (batchLoop_lookup _ _ _ _ _ H) as (rd & Hrd & Hb & Hk & Hp).
    unfold BATCH_SIZE in *. cbn [Nat.add] in *. exists rd.
    split; [exact Hrd|]. split; [exact Hb|]. split.
    + rewrite Hb, length_take, length_drop. lia.
    + rewrite Hp. destruct (Nat.ltb_spec (5 * k + 5) (length (atPause rd)));
        split; try lia; try discriminate; reflexivity.
  - rewrite batchLoop_steady_concat by lia. apply drop_0.
  - intros k b p H.
    destruct (batchLoop_lookup _ _ _ _ _ H) as (rd & Hrd & Hb & Hk & Hp).
    apply lookup_replicate in Hrd as [-> _]. cbn [atSlice atPause] in *.
    unfold BATCH_SIZE in *. cbn [Nat.add] in *. split; [exact Hb|]. split.
    + rewrite batchLoop_steady_is_Some by lia. unfold BATCH_SIZE. rewrite Hp.
      destruct (Nat.ltb_spec (5 * k + 5) (length WATCHLIST));
        split; try lia; try discriminate; reflexivity.
    + intros ->. symmetry in Hp. apply Nat.ltb_lt in Hp.
      rewrite Hb, length_take, length_drop. lia.
  - intros ->. reflexivity.
  - intros more. induction more as [|more IH]; [reflexivity|].
    cbn [Nat.add]. rewrite batchLoop_steady_enough by lia. exact IH.
Qed.

(** A ticker removed while the first batch is scanned moves the rest one
    place down: the second batch starts at the sixth place of the shorter
    list, and the ticker that moved to the fifth place is not scanned. *)
Example removal_during_scan_skips :
  scanAndPost [{| atSlice := ["A"; "B"; "C"; "D"; "E"; "F"; "G"];
                  atPause := ["A"; "C"; "D"; "E"; "F"; "G"] |};
               {| atSlice := ["A"; "C"; "D"; "E"; "F"; "G"];
                  atPause := ["A"; "C"; "D"; "E"; "F"; "G"] |};
               {| atSlice := ["A"; "C"; "D"; "E"; "F"; "G"];
                  atPause := ["A"; "C"; "D"; "E"; "F"; "G"] |}]%string
  = [(["A"; "B"; "C"; "D"; "E"]%string, true); (["G"]%string, false)].
Proof. reflexivity. Qed.

End BatchFacts.

(** ** Pacing, and fetching a quote with retries *)

Section FetcherFacts.
Import Num Backoff StockDataFetcher.
Local Open Scope Q_scope.


(** What the pacing part does when a last request is on record. *)
Lemma waitPace_spec tElapsed tEnd r t :
  lastRequest r = Some t -> t <> 0%Z ->
  ((tElapsed - t < minDelay r)%Z ->
     waitPace tElapsed tEnd r = (Sleep (inject_Z (minDelay r - (tElapsed - t))) InPace, r))
  /\ ((minDelay r <= tElapsed - t)%Z ->
     waitPace tElapsed tEnd r = (Returned, setLastRequest tEnd r)).
Proof.
  intros Ht Hnz. unfold waitPace. rewrite Ht.
  destruct (Z.eqb_spec t 0) as [|_]; [contradiction|].
  destruct (Z.ltb_spec (tElapsed - t) (minDelay r)); split; intros; first [reflexivity|lia].
Qed.

(** [wait()] keeps a request at least [minDelay] after the last request it
    finds on record when it reads the clock, which is after its backoff
    sleep if it takes one: it asks the timer for exactly what is missing of
    [minDelay] then, and for nothing when that much time has passed.
    (Requests of other callers made later, during the pacing sleep, are not
    taken into account.) *)
Theorem wait_paces_requests (duringBackoff duringPace : list Turn)
    (r : RateLimiter) (tElapsed tEnd t : Z) :
  lastRequest (atClock duringBackoff r) = Some t -> t <> 0%Z ->
  exists pace,
    fst (waitAmong duringBackoff duringPace tElapsed tEnd r)
    = (if rateLimited r then [backoffDelay r] else []) ++ pace
    /\ inject_Z (t + minDelay r) <= inject_Z tElapsed + suspended pace
    /\ ((tElapsed < t + minDelay r)%Z ->
        inject_Z tElapsed + suspended pace == inject_Z (t + minDelay r))
    /\ ((t + minDelay r <= tElapsed)%Z -> pace = []).
Proof.
  intros Ht Hnz.
  assert (Hmin : minDelay (atClock duringBackoff r) = minDelay r).
  { unfold atClock. destruct (rateLimited r); [|reflexivity].
    cbn [clearRateLimited minDelay]. apply turns_minDelay. }
  destruct (waitPace_spec tElapsed tEnd _ t Ht Hnz) as [Hshort Hlong].
  rewrite Hmin in Hshort, Hlong.
  assert (Hcase : fst (waitAmong duringBackoff duringPace tElapsed tEnd r)
                  = (if rateLimited r then [backoffDelay r] else [])
                    ++ match fst (waitPace tElapsed tEnd (atClock duringBackoff r)) with
                       | Sleep d _ => [d]
                       | Returned => []
                       end).
  { unfold waitAmong, waitCall, atClock. destruct (rateLimited r).
    - cbn [waitResume].
      destruct (waitPace tElapsed tEnd (clearRateLimited (turns r duringBackoff)))
        as [[d at_|] r2]; reflexivity.
    - destruct (waitPace tElapsed tEnd r) as [[d at_|] r2] eqn:E; [|reflexivity].
      unfold waitPace in E. destruct (lastRequest r) as [t'|]; [|discriminate].
      destruct (t' =? 0)%Z; [discriminate|].
      destruct (tElapsed - t' <? minDelay r)%Z; [|discriminate].
      injection E as <- <- <-. reflexivity. }
  eexists. split; [exact Hcase|].
  destruct (Z.lt_ge_cases (tElapsed - t) (minDelay r)) as [Hlt|Hge].
  - rewrite (Hshort Hlt). cbn [fst suspended foldr]. split; [|split].
    + unfold inject_Z, Qle, Qplus. cbn. lia.
    + intros _. unfold inject_Z, Qeq, Qplus. cbn. lia.
    + intros H. lia.
  - rewrite (Hlong Hge). cbn [fst suspended foldr]. split; [|split].
    + assert (inject_Z (t + minDelay r) <= inject_Z tElapsed) by (rewrite <- Zle_Qle; lia).
      lra.
    + intros H. lia.
    + reflexivity.
Qed.

Lemma wait_paces_requests_witness :
  exists pace,
    fst (waitAmong [MarkRateLimited; WaitCall 1793500003000 1793500003000] []
           1793500007900 1793500008000
           (markRateLimited (snd (wait 1793500000000 1793500000000 create))))
    = [backoffDelay (markRateLimited create)] ++ pace
    /\ inject_Z (1793500000000 + 1000) <= inject_Z 1793500007900 + suspended pace.
Proof.
  destruct (wait_paces_requests [MarkRateLimited; WaitCall 1793500003000 1793500003000] []
              (markRateLimited (snd (wait 1793500000000 1793500000000 create)))
              1793500007900 1793500008000 1793500000000 eq_refl ltac:(lia))
    as (pace & H1 & H2 & _).
  exists pace. split; [exact H1|exact H2].
Defined.










End FetcherFacts.
